(** * vexyl: wallet store, timeline merge, RPC server actions, dust-account closer

    A shallow embedding of the logic of
      - [src/store/wallet.ts]          (the zustand wallet store),
      - [src/app/actions/wallet.ts]    (address resolution, account info),
      - [src/app/actions/timeline.ts]  (multi-wallet merge and pagination;
                                        in the tree at hand it follows
                                        [wallet.ts] in one file),
      - [src/app/actions/rpc.ts]       (blockhash / simulate / send actions),
      - [src/hooks/useCloseAccounts.ts] (burn-and-close batching pipeline),
      - [src/app/actions/assets.ts]    (assets of a wallet, by category),
      - [src/hooks/useTimeline.ts], [src/hooks/useAssets.ts]
                                       (the query functions of the timeline
                                        and of the frozen mints),
      - [src/components/portfolio/PortfolioView.tsx]
                                       (the choice of the dust accounts),
    followed by the properties established about them.

    Conventions.  JavaScript strings are [string]; integer-valued numbers are
    [Z]; [undefined]/[null] are [None]; arrays are lists.  The operator [||]
    is written out with the falsiness of the empty string and of zero.
    Calls that leave the program (the RPC connection, HTTP fetches, the
    browser wallet) are methods of type classes over an abstract world. *)

From stdpp Require Import base option list strings pretty sorting.
From Stdlib Require Import ZArith QArith Lia Lqa.
From Equations Require Import Equations.

Local Open Scope Z_scope.
Local Open Scope string_scope.
Local Open Scope list_scope.

(** ** JavaScript helpers *)

Module Js.

(** Values whose shape the program never inspects (the [unknown] event
    payloads, the simulation error of the RPC node). *)
Local Unset Elimination Schemes.
Inductive Json :=
| JNull
| JBool (b : bool)
| JNum (n : Z)
| JStr (s : string)
| JArr (items : list Json)
| JObj (fields : list (string * Json)).
Local Set Elimination Schemes.

(** What a [catch] clause can receive: an [Error] carrying its message, or
    any other thrown value. *)
Inductive Thrown :=
| ErrorObj (message : string)
| NonError (v : Json).

(** [error instanceof Error ? error.message : fallback] *)
Definition messageOr (e : Thrown) (fallback : string) : string :=
  match e with
  | ErrorObj m => m
  | NonError _ => fallback
  end.

Definition truthyStr (s : string) : bool := negb (String.eqb s "").

(** [s || d] for a string [s] *)
Definition strOr (s d : string) : string := if truthyStr s then s else d.

(** [o || d] for [o : string | undefined | null] *)
Definition optStrOr (o : option string) (d : string) : string :=
  match o with
  | Some s => strOr s d
  | None => d
  end.

(** [o || null] for [o : string | undefined] *)
Definition optStrOrNull (o : option string) : option string :=
  match o with
  | Some s => if truthyStr s then Some s else None
  | None => None
  end.

(** [n || 0] for an integer-valued number *)
Definition numOr0 (n : Z) : Z := if Z.eqb n 0 then 0 else n.

(** [Math.ceil(a / b)] for integers, [b > 0] *)
Definition ceilDiv (a b : Z) : Z := - ((- a) / b).

(** [arr.slice(0, end)] for an integer [end]: a negative [end] counts from
    the back of the array. *)
Definition slice0 {A} (l : list A) (end_ : Z) : list A :=
  if Z.ltb end_ 0
  then take (Z.to_nat (Z.max 0 (Z.of_nat (length l) + end_))) l
  else take (Z.to_nat end_) l.

(** [arr.slice(i, j)] for in-range naturals *)
Definition slice {A} (l : list A) (i j : nat) : list A :=
  take (j - i) (drop i l).

End Js.

(** ** Shared record types ([src/types]) *)

Module Types.

Record NativeTransfer := {
  nt_fromUserAccount : string;
  nt_toUserAccount : string;
  nt_amount : Z
}.

Record TokenTransfer := {
  fromUserAccount : string;
  toUserAccount : string;
  fromTokenAccount : string;
  toTokenAccount : string;
  tokenAmount : Q;
  mint : string;
  tokenStandard : string;
  symbol : option string;
  decimals : option Z;
  imageUri : option string
}.

Record Events := {
  nft : option Js.Json;
  swap : option Js.Json
}.

Record ParsedTransaction := {
  signature : string;
  type : string;
  source : string;
  description : string;
  fee : Z;
  feePayer : string;
  slot : Z;
  timestamp : Z;
  blockTime : Z;
  nativeTransfers : list NativeTransfer;
  tokenTransfers : list TokenTransfer;
  events : Events;
  isSelfTransfer : option bool;
  walletLabel : option string;
  walletColor : option string
}.

Record Wallet := {
  address : string;
  label : string;
  color : string
}.

Record TimelineResponse := {
  success : bool;
  data : option (list ParsedTransaction);
  nextCursor : option string;
  error : option string
}.

End Types.

(** ** The wallet store ([src/store/wallet.ts]) *)

Module Store.
Import Types.

Definition WALLET_COLORS : list string :=
  [ "#14F195"; "#9945FF"; "#00D1FF"; "#FF6B6B";
    "#FFE66D"; "#4ECDC4"; "#FF8C42"; "#A8E6CF" ].

Inductive View := timeline | portfolio.

Record WalletState := {
  wallets : list Wallet;
  primaryWallet : option string;
  isWarpComplete : bool;
  hoveredTransaction : option ParsedTransaction;
  selectedTransaction : option ParsedTransaction;
  selectedTimeRange : option (Z * Z);
  currentView : View;
  sidebarCollapsed : bool
}.

Definition initialState : WalletState :=
  {| wallets := [];
     primaryWallet := None;
     isWarpComplete := false;
     hoveredTransaction := None;
     selectedTransaction := None;
     selectedTimeRange := None;
     currentView := timeline;
     sidebarCollapsed := false |}.

(** [wallets.some((w) => w.address === address)] *)
Definition hasAddress (ws : list Wallet) (a : string) : bool :=
  existsb (fun w => String.eqb (address w) a) ws.

Definition addWallet (addr : string) (lbl : option string)
    (state : WalletState) : WalletState :=
  let ws := wallets state in
  if hasAddress ws addr then state
  else
    let colorIndex := (length ws mod length WALLET_COLORS)%nat in
    let newWallet :=
      {| address := addr;
         label := Js.optStrOr lbl ("Wallet " +:+ pretty (length ws + 1)%nat);
         color := default "" (WALLET_COLORS !! colorIndex) |} in
    {| wallets := wallets state ++ [newWallet];
       primaryWallet := Some (Js.optStrOr (primaryWallet state) addr);
       isWarpComplete := isWarpComplete state;
       hoveredTransaction := hoveredTransaction state;
       selectedTransaction := selectedTransaction state;
       selectedTimeRange := selectedTimeRange state;
       currentView := currentView state;
       sidebarCollapsed := sidebarCollapsed state |}.

Definition removeWallet (addr : string) (state : WalletState) : WalletState :=
  let newWallets :=
    List.filter (fun w => negb (String.eqb (address w) addr)) (wallets state) in
  let newPrimary :=
    if bool_decide (primaryWallet state = Some addr)
    then Js.optStrOrNull (address <$> head newWallets)
    else primaryWallet state in
  {| wallets := newWallets;
     primaryWallet := newPrimary;
     isWarpComplete :=
       if (0 <? length newWallets)%nat then isWarpComplete state else false;
     hoveredTransaction := hoveredTransaction state;
     selectedTransaction := selectedTransaction state;
     selectedTimeRange := selectedTimeRange state;
     currentView := currentView state;
     sidebarCollapsed := sidebarCollapsed state |}.

Definition updateWalletLabel (addr lbl : string) (state : WalletState)
    : WalletState :=
  {| wallets :=
       List.map (fun w =>
              if String.eqb (address w) addr
              then {| address := address w; label := lbl; color := color w |}
              else w)
           (wallets state);
     primaryWallet := primaryWallet state;
     isWarpComplete := isWarpComplete state;
     hoveredTransaction := hoveredTransaction state;
     selectedTransaction := selectedTransaction state;
     selectedTimeRange := selectedTimeRange state;
     currentView := currentView state;
     sidebarCollapsed := sidebarCollapsed state |}.

Definition setPrimaryWallet (addr : string) (state : WalletState)
    : WalletState :=
  {| wallets := wallets state;
     primaryWallet := Some addr;
     isWarpComplete := isWarpComplete state;
     hoveredTransaction := hoveredTransaction state;
     selectedTransaction := selectedTransaction state;
     selectedTimeRange := selectedTimeRange state;
     currentView := currentView state;
     sidebarCollapsed := sidebarCollapsed state |}.

Definition clearWallets (state : WalletState) : WalletState :=
  {| wallets := [];
     primaryWallet := None;
     isWarpComplete := false;
     hoveredTransaction := hoveredTransaction state;
     selectedTransaction := selectedTransaction state;
     selectedTimeRange := selectedTimeRange state;
     currentView := currentView state;
     sidebarCollapsed := sidebarCollapsed state |}.

Definition setWarpComplete (complete : bool) (state : WalletState)
    : WalletState :=
  {| wallets := wallets state;
     primaryWallet := primaryWallet state;
     isWarpComplete := complete;
     hoveredTransaction := hoveredTransaction state;
     selectedTransaction := selectedTransaction state;
     selectedTimeRange := selectedTimeRange state;
     currentView := currentView state;
     sidebarCollapsed := sidebarCollapsed state |}.

Definition setHoveredTransaction (tx : option ParsedTransaction)
    (state : WalletState) : WalletState :=
  {| wallets := wallets state;
     primaryWallet := primaryWallet state;
     isWarpComplete := isWarpComplete state;
     hoveredTransaction := tx;
     selectedTransaction := selectedTransaction state;
     selectedTimeRange := selectedTimeRange state;
     currentView := currentView state;
     sidebarCollapsed := sidebarCollapsed state |}.

Definition setSelectedTransaction (tx : option ParsedTransaction)
    (state : WalletState) : WalletState :=
  {| wallets := wallets state;
     primaryWallet := primaryWallet state;
     isWarpComplete := isWarpComplete state;
     hoveredTransaction := hoveredTransaction state;
     selectedTransaction := tx;
     selectedTimeRange := selectedTimeRange state;
     currentView := currentView state;
     sidebarCollapsed := sidebarCollapsed state |}.

Definition setSelectedTimeRange (range : option (Z * Z))
    (state : WalletState) : WalletState :=
  {| wallets := wallets state;
     primaryWallet := primaryWallet state;
     isWarpComplete := isWarpComplete state;
     hoveredTransaction := hoveredTransaction state;
     selectedTransaction := selectedTransaction state;
     selectedTimeRange := range;
     currentView := currentView state;
     sidebarCollapsed := sidebarCollapsed state |}.

Definition setCurrentView (view : View) (state : WalletState) : WalletState :=
  {| wallets := wallets state;
     primaryWallet := primaryWallet state;
     isWarpComplete := isWarpComplete state;
     hoveredTransaction := hoveredTransaction state;
     selectedTransaction := selectedTransaction state;
     selectedTimeRange := selectedTimeRange state;
     currentView := view;
     sidebarCollapsed := sidebarCollapsed state |}.

Definition toggleSidebar (state : WalletState) : WalletState :=
  {| wallets := wallets state;
     primaryWallet := primaryWallet state;
     isWarpComplete := isWarpComplete state;
     hoveredTransaction := hoveredTransaction state;
     selectedTransaction := selectedTransaction state;
     selectedTimeRange := selectedTimeRange state;
     currentView := currentView state;
     sidebarCollapsed := negb (sidebarCollapsed state) |}.

(** The actions of the store, as one type, so that a property of "every
    operation" can be stated. *)
Inductive Action :=
| AddWallet (addr : string) (lbl : option string)
| RemoveWallet (addr : string)
| UpdateWalletLabel (addr lbl : string)
| SetPrimaryWallet (addr : string)
| ClearWallets
| SetWarpComplete (complete : bool)
| SetHoveredTransaction (tx : option ParsedTransaction)
| SetSelectedTransaction (tx : option ParsedTransaction)
| SetSelectedTimeRange (range : option (Z * Z))
| SetCurrentView (view : View)
| ToggleSidebar.

Definition dispatch (a : Action) : WalletState -> WalletState :=
  match a with
  | AddWallet addr lbl => addWallet addr lbl
  | RemoveWallet addr => removeWallet addr
  | UpdateWalletLabel addr lbl => updateWalletLabel addr lbl
  | SetPrimaryWallet addr => setPrimaryWallet addr
  | ClearWallets => clearWallets
  | SetWarpComplete c => setWarpComplete c
  | SetHoveredTransaction tx => setHoveredTransaction tx
  | SetSelectedTransaction tx => setSelectedTransaction tx
  | SetSelectedTimeRange r => setSelectedTimeRange r
  | SetCurrentView v => setCurrentView v
  | ToggleSidebar => toggleSidebar
  end.

Definition addresses (state : WalletState) : list string :=
  List.map address (wallets state).

(** [primaryWallet] is [null] or the address of a listed wallet. *)
Definition primaryListed (state : WalletState) : Prop :=
  match primaryWallet state with
  | None => True
  | Some p => p ∈ addresses state
  end.

End Store.

(** ** Effects: exceptions and calls that leave the program *)

Module Eff.
Import Js.

(** A computation over a state [S] that returns a value or throws. *)
Definition M (S A : Type) : Type := S -> (Thrown + A) * S.

Definition ret {S A} (a : A) : M S A := fun s => (inr a, s).

Definition bind {S A B} (m : M S A) (k : A -> M S B) : M S B :=
  fun s =>
    match m s with
    | (inl e, s') => (inl e, s')
    | (inr a, s') => k a s'
    end.

Definition throw {S A} (e : Thrown) : M S A := fun s => (inl e, s).

(** [try { body } catch (error) { handler(error) }] *)
Definition tryCatch {S A} (body : M S A) (handler : Thrown -> M S A) : M S A :=
  fun s =>
    match body s with
    | (inl e, s') => handler e s'
    | (inr a, s') => (inr a, s')
    end.

(** A library call that computes a value or throws, without touching the
    state. *)
Definition lift {S A} (r : Thrown + A) : M S A := fun s => (r, s).

Definition modify {S} (f : S -> S) : M S unit := fun s => (inr tt, f s).

Declare Scope eff_scope.
Delimit Scope eff_scope with eff.
Notation "'let!' x ':=' c1 'in' c2" := (bind c1 (fun x => c2))
  (at level 10, x pattern, c1 at level 100, c2 at level 200) : eff_scope.
Notation "'do!' c1 'in' c2" := (bind c1 (fun _ => c2))
  (at level 10, c1 at level 100, c2 at level 200) : eff_scope.

(** [for (const x of l) { ys.push(await f x) }] *)
Fixpoint mapM {S A B} (f : A -> M S B) (l : list A) : M S (list B) :=
  match l with
  | [] => ret []
  | x :: xs => bind (f x) (fun y => bind (mapM f xs) (fun ys => ret (y :: ys)))
  end.

(** A promise run to its end, the outcome kept as a value *)
Definition settle {S A} (m : M S A) : M S (Thrown + A) :=
  tryCatch (bind m (fun a => ret (inr a))) (fun e => ret (inl e)).

(** All the values, or the first rejection *)
Fixpoint collect {A} (l : list (Thrown + A)) : Thrown + list A :=
  match l with
  | [] => inr []
  | inl e :: _ => inl e
  | inr a :: rest =>
      match collect rest with
      | inl e => inl e
      | inr vs => inr (a :: vs)
      end
  end.

(** [Promise.all(l.map(async (x) => f x))]: every callback runs; the
    result rejects with the first rejection, else resolves to all the
    values.  The callbacks are taken one after the other, in array
    order. *)
Definition promiseAll {S A B} (f : A -> M S B) (l : list A) : M S (list B) :=
  bind (mapM (fun x => settle (f x)) l) (fun settled => lift (collect settled)).

End Eff.

(** ** The Solana client libraries, as far as the program uses them *)

Module Solana.
Import Js.

Record PublicKey := { toBase58 : string }.

(** The two token programs exported by [@solana/spl-token]. *)
Definition TOKEN_PROGRAM_ID : PublicKey :=
  {| toBase58 := "TokenkegQfeZyiNwAJbNbGKPFXCWuBvf9Ss623VQ5DA" |}.
Definition TOKEN_2022_PROGRAM_ID : PublicKey :=
  {| toBase58 := "TokenzQdBNbLqP5VEhdkAS6EPFLC1PHnBqCXEpPxuEb" |}.

(** Instructions are kept as the constructor calls that build them. *)
Inductive TransactionInstruction :=
| createBurnInstruction
    (account mint owner : PublicKey) (amount : Z)
    (multiSigners : list PublicKey) (programId : PublicKey)
| createCloseAccountInstruction
    (account destination authority : PublicKey)
    (multiSigners : list PublicKey) (programId : PublicKey).

Record Transaction := {
  recentBlockhash : option string;
  feePayer : option PublicKey;
  instructions : list TransactionInstruction;
  signatures : list string
}.

(** [new Transaction()] *)
Definition newTransaction : Transaction :=
  {| recentBlockhash := None; feePayer := None;
     instructions := []; signatures := [] |}.

Definition setRecentBlockhash (h : string) (t : Transaction) : Transaction :=
  {| recentBlockhash := Some h; feePayer := feePayer t;
     instructions := instructions t; signatures := signatures t |}.

Definition setFeePayer (p : PublicKey) (t : Transaction) : Transaction :=
  {| recentBlockhash := recentBlockhash t; feePayer := Some p;
     instructions := instructions t; signatures := signatures t |}.

(** [tx.add(ix)] *)
Definition add (ix : TransactionInstruction) (t : Transaction) : Transaction :=
  {| recentBlockhash := recentBlockhash t; feePayer := feePayer t;
     instructions := instructions t ++ [ix]; signatures := signatures t |}.

(** [ixs.forEach((ix) => tx.add(ix))] *)
Definition addAll (ixs : list TransactionInstruction) (t : Transaction)
    : Transaction :=
  fold_left (fun acc ix => add ix acc) ixs t.

Record Message := { compiledFrom : Transaction }.

Record SerializeConfig := {
  requireAllSignatures : bool;
  verifySignatures : bool
}.

Record BlockhashWithExpiry := {
  blockhash : string;
  lastValidBlockHeight : Z
}.

(** [result.value] of [connection.simulateTransaction] *)
Record SimulatedResponse := {
  err : option Json;
  logs : option (list string)
}.

(** Pure functions of the libraries and of the runtime.  Each either
    returns or throws. *)
Class Lib := {
  PublicKey_new : string -> Thrown + PublicKey;
  getAssociatedTokenAddressSync :
    PublicKey -> PublicKey -> bool -> PublicKey -> Thrown + PublicKey;
  (** [tx.serialize(config).toString('base64')] *)
  serialize : SerializeConfig -> Transaction -> Thrown + string;
  (** [Transaction.from(Buffer.from(s, 'base64'))] *)
  Transaction_from : string -> Thrown + Transaction;
  compileMessage : Transaction -> Thrown + Message;
  JSON_stringify : Json -> string;
  String_trim : string -> string;
  String_toLowerCase : string -> string
}.

(** The JSON-RPC connection ([new Connection(HELIUS_RPC_URL, 'confirmed')])
    over a world [W]. *)
Class Connection (W : Type) := {
  conn_getLatestBlockhash : W -> (Thrown + BlockhashWithExpiry) * W;
  conn_simulateTransaction : Message -> W -> (Thrown + SimulatedResponse) * W;
  conn_sendRawTransaction : string -> W -> (Thrown + string) * W;
  conn_confirmTransaction :
    string -> string -> Z -> W -> (Thrown + unit) * W
}.

(** Truthiness of a JSON value, as [if (v)] tests it. *)
Definition truthy (v : Json) : bool :=
  match v with
  | JNull => false
  | JBool b => b
  | JNum n => negb (Z.eqb n 0)
  | JStr s => truthyStr s
  | JArr _ => true
  | JObj _ => true
  end.

End Solana.

(** ** HTTP endpoints ([fetch]) *)

Module Http.
Import Js.

Record Response (A : Type) := {
  ok : bool;
  statusText : string;
  (** [await response.json()], read with the type the caller casts to *)
  json : Thrown + A
}.
Arguments ok {A} _.
Arguments statusText {A} _.
Arguments json {A} _.

(** Body of the SNS resolver: [{ result: "pubkey" }] or [{ error: ... }] *)
Record SnsData := { sns_result : option Json }.

Record RpcError := { rpc_message : option string }.

(** A JSON-RPC reply *)
Record RpcJson (T : Type) := {
  rpc_error : option RpcError;
  rpc_result : T
}.
Arguments rpc_error {T} _.
Arguments rpc_result {T} _.

Record AccountValue := {
  lamports : Z;
  owner : string;
  executable : bool;
  rentEpoch : Z
}.

Record AccountInfoResult := { value : option AccountValue }.

(** Enhanced-transactions API item, with the fields the interface
    [HeliusEnhancedTransaction] declares. *)
Record HeliusTokenTransfer := {
  h_fromUserAccount : string;
  h_toUserAccount : string;
  h_fromTokenAccount : string;
  h_toTokenAccount : string;
  h_tokenAmount : Q;
  h_mint : string;
  h_tokenStandard : string
}.

Record HeliusEvents := {
  h_nft : option Json;
  h_swap : option Json
}.

Record HeliusEnhancedTransaction := {
  signature : string;
  type : string;
  source : string;
  description : string;
  fee : Z;
  feePayer : string;
  slot : Z;
  timestamp : Z;
  nativeTransfers : option (list Types.NativeTransfer);
  tokenTransfers : option (list HeliusTokenTransfer);
  events : option HeliusEvents
}.

Class Fetch (W : Type) := {
  (** [GET https://sns-sdk-proxy.bonfida.workers.dev/resolve/<name>] *)
  fetch_sns : string -> W -> (Thrown + Response SnsData) * W;
  (** [POST HELIUS_RPC_URL] with method [getAccountInfo] and the address *)
  fetch_rpc_getAccountInfo :
    string -> W -> (Thrown + Response (RpcJson (option AccountInfoResult))) * W;
  (** [GET HELIUS_ENHANCED_URL/addresses/<address>/transactions] with the
      query parameters [before] (when set) and [limit] *)
  fetch_transactions :
    string -> option string -> Z ->
    W -> (Thrown + Response (list HeliusEnhancedTransaction)) * W
}.

End Http.

(** ** Result records, observed calls and the machine state *)

Module Machine.
Import Js Solana.

(** Return type of [getRecentBlockhash] ([rpc.ts]) *)
Record BlockhashResult := {
  bh_success : bool;
  bh_data : option BlockhashWithExpiry;
  bh_error : option string
}.

(** Return type of [simulateTransaction] ([rpc.ts]) *)
Record SimulateResult := {
  sim_success : bool;
  sim_error : option string
}.

(** Return type of [sendTransaction] ([rpc.ts]) *)
Record SendResult := {
  send_success : bool;
  send_signature : option string;
  send_error : option string
}.

(** The calls the properties below speak about, with what they returned. *)
Inductive Event :=
| EvFetchWalletHistory (address : string) (limit : option Z)
    (before : option string)
| EvGetTransactions (address : string) (before : option string) (limit : Z)
| EvGetRecentBlockhash (r : BlockhashResult)
| EvSimulate (serialized : string) (r : SimulateResult)
| EvSign (tx : Transaction) (r : Thrown + Transaction)
| EvSend (serialized : string) (r : SendResult).

(** The [useState] cells of [useCloseAccounts].  [reclaimedSOL] is kept as
    an exact rational; the rounding of doubles is not modelled. *)
Record HookState := {
  isClosing : bool;
  statusMessage : string;
  closedMints : list string;
  reclaimedSOL : Q
}.

Record St (W : Type) := {
  world : W;
  log : list Event;
  hook : HookState
}.
Arguments world {W} _.
Arguments log {W} _.
Arguments hook {W} _.

Section Ops.
Context {W : Type}.

(** Run a call that leaves the program. *)
Definition ext {A} (o : W -> (Thrown + A) * W) : Eff.M (St W) A :=
  fun s =>
    let '(r, w') := o (world s) in
    (r, {| world := w'; log := log s; hook := hook s |}).

Definition emit (e : Event) : Eff.M (St W) unit :=
  Eff.modify (fun s =>
    {| world := world s; log := log s ++ [e]; hook := hook s |}).

Definition setHook (f : HookState -> HookState) : Eff.M (St W) unit :=
  Eff.modify (fun s =>
    {| world := world s; log := log s; hook := f (hook s) |}).
End Ops.

End Machine.

(** ** [src/lib/helius.ts] and [src/app/actions/wallet.ts] *)

Module WalletActions.
Import Js Solana Http Machine Eff.
Local Open Scope eff_scope.

(** [s.endsWith(suffix)] *)
Definition endsWith (s suffix : string) : bool :=
  let n := String.length s in
  let m := String.length suffix in
  if (m <=? n)%nat
  then String.eqb (String.substring (n - m) m s) suffix
  else false.

(** [s.replace(pat, rep)] for a string pattern: the first occurrence only *)
Fixpoint replaceFirst (pat rep s : string) : string :=
  if String.prefix pat s
  then rep +:+ String.substring (String.length pat)
                 (String.length s - String.length pat) s
  else match s with
       | EmptyString => EmptyString
       | String c s' => String c (replaceFirst pat rep s')
       end.



Section Actions.
Context {W : Type} `{!Lib} `{!Fetch W}.

(** [rpcCall('getAccountInfo', [address, { encoding: 'base58' }])] *)
Definition rpcCall_getAccountInfo (address : string)
    : M (St W) (option AccountInfoResult) :=
  let! response := ext (fetch_rpc_getAccountInfo address) in
  let! json := lift (json response) in
  match rpc_error json with
  | Some e => throw (ErrorObj (optStrOr (rpc_message e) "RPC call failed"))
  | None => ret (rpc_result json)
  end.

(** [fetchParsedTransactions(address, { before, limit })] *)
Definition fetchParsedTransactions (address : string)
    (before : option string) (limit : option Z)
    : M (St W) (list HeliusEnhancedTransaction) :=
  let limit := default 100 limit in
  let beforeParam := optStrOrNull before in
  do! emit (EvGetTransactions address beforeParam limit) in
  let! response := ext (fetch_transactions address beforeParam limit) in
  if negb (ok response)
  then throw (ErrorObj ("Failed to fetch transactions: "
                        +:+ statusText response))
  else lift (json response).

Definition resolveSolDomain (domain : string) : M (St W) (option string) :=
  tryCatch
    (let name := replaceFirst ".sol" "" domain in
     let! response := ext (fetch_sns name) in
     if negb (ok response) then ret None
     else
       let! data := lift (json response) in
       match sns_result data with
       | Some (JStr s) => if truthyStr s then ret (Some s) else ret None
       | _ => ret None
       end)
    (fun _ => ret None).

Definition isValidPublicKey (address : string) : bool :=
  match PublicKey_new address with
  | inr _ => true
  | inl _ => false
  end.

Definition ensurePubkey (address : string) : M (St W) string :=
  let trimmed := String_trim address in
  if endsWith (String_toLowerCase trimmed) ".sol" then
    let! resolved := resolveSolDomain (String_toLowerCase trimmed) in
    match optStrOrNull resolved with
    | Some r => ret r
    | None => throw (ErrorObj ("Could not resolve domain: " +:+ trimmed))
    end
  else if negb (isValidPublicKey trimmed) then
    throw (ErrorObj ("Invalid Solana address: " +:+ trimmed))
  else ret trimmed.

End Actions.

End WalletActions.

(** ** [src/app/actions/timeline.ts] *)

Module Timeline.
Import Js Types Machine Eff.
Local Open Scope eff_scope.

(** A [Map<string, V>]: the entries in insertion order, keys distinct. *)
Definition JsMap (V : Type) := list (string * V).

Definition mapGet {V} (m : JsMap V) (k : string) : option V :=
  snd <$> List.find (fun e => String.eqb (fst e) k) m.

(** [m.set(k, v)]: an existing key keeps its position. *)
Fixpoint mapSet {V} (m : JsMap V) (k : string) (v : V) : JsMap V :=
  match m with
  | [] => [(k, v)]
  | (k', v') :: m' =>
      if String.eqb k' k then (k, v) :: m' else (k', v') :: mapSet m' k v
  end.

(** Assignment to a field of the object stored under [k]; the map holds
    the object itself, so the stored entry changes. *)
Fixpoint mapUpdate {V} (m : JsMap V) (k : string) (f : V -> V) : JsMap V :=
  match m with
  | [] => []
  | (k', v') :: m' =>
      if String.eqb k' k then (k', f v') :: m' else (k', v') :: mapUpdate m' k f
  end.

(** [Array.from(m.values())] *)
Definition mapValues {V} (m : JsMap V) : list V := List.map snd m.

(** [existing.isSelfTransfer = true] *)
Definition setSelfTransfer (p : ParsedTransaction) : ParsedTransaction :=
  {| signature := signature p;
     type := type p;
     source := source p;
     description := description p;
     fee := fee p;
     feePayer := feePayer p;
     slot := slot p;
     timestamp := timestamp p;
     blockTime := blockTime p;
     nativeTransfers := nativeTransfers p;
     tokenTransfers := tokenTransfers p;
     events := events p;
     isSelfTransfer := Some true;
     walletLabel := walletLabel p;
     walletColor := walletColor p |}.

(** [{ ...t, symbol: undefined, decimals: undefined, imageUri: undefined }] *)
Definition toTokenTransfer (t : Http.HeliusTokenTransfer) : TokenTransfer :=
  {| fromUserAccount := Http.h_fromUserAccount t;
     toUserAccount := Http.h_toUserAccount t;
     fromTokenAccount := Http.h_fromTokenAccount t;
     toTokenAccount := Http.h_toTokenAccount t;
     tokenAmount := Http.h_tokenAmount t;
     mint := Http.h_mint t;
     tokenStandard := Http.h_tokenStandard t;
     symbol := None;
     decimals := None;
     imageUri := None |}.

(** The object literal built for a signature seen for the first time. *)
Definition toParsed (wallet : Wallet) (tx : Http.HeliusEnhancedTransaction)
    : ParsedTransaction :=
  {| signature := Http.signature tx;
     type := strOr (Http.type tx) "UNKNOWN";
     source := strOr (Http.source tx) "UNKNOWN";
     description := strOr (Http.description tx) "";
     fee := numOr0 (Http.fee tx);
     feePayer := strOr (Http.feePayer tx) "";
     slot := numOr0 (Http.slot tx);
     timestamp := numOr0 (Http.timestamp tx);
     blockTime := numOr0 (Http.timestamp tx);
     nativeTransfers := default [] (Http.nativeTransfers tx);
     tokenTransfers :=
       List.map toTokenTransfer (default [] (Http.tokenTransfers tx));
     events := {| nft := Http.events tx ≫= Http.h_nft;
                  swap := Http.events tx ≫= Http.h_swap |};
     isSelfTransfer := Some false;
     walletLabel := Some (label wallet);
     walletColor := Some (color wallet) |}.

(** Body of the inner loop of [mergeTransactions] *)
Definition mergeOne (wallet : Wallet)
    (signatureMap : JsMap ParsedTransaction)
    (tx : Http.HeliusEnhancedTransaction) : JsMap ParsedTransaction :=
  match mapGet signatureMap (Http.signature tx) with
  | Some _existing => mapUpdate signatureMap (Http.signature tx) setSelfTransfer
  | None => mapSet signatureMap (Http.signature tx) (toParsed wallet tx)
  end.

(** The two nested [for ... of] loops *)
Definition mergeLoop
    (results : list (Wallet * list Http.HeliusEnhancedTransaction))
    : JsMap ParsedTransaction :=
  fold_left
    (fun m '(wallet, transactions) => fold_left (mergeOne wallet) transactions m)
    results [].

(** [arr.sort((a, b) => b.timestamp - a.timestamp)]: a stable sort, an
    element going before the first one whose timestamp is not larger. *)
Fixpoint insertByTimestamp (x : ParsedTransaction)
    (l : list ParsedTransaction) : list ParsedTransaction :=
  match l with
  | [] => [x]
  | y :: l' =>
      if (timestamp y - timestamp x <=? 0)%Z
      then x :: y :: l'
      else y :: insertByTimestamp x l'
  end.

Definition sortByTimestampDesc (l : list ParsedTransaction)
    : list ParsedTransaction :=
  foldr insertByTimestamp [] l.

Definition mergeTransactions
    (results : list (Wallet * list Http.HeliusEnhancedTransaction))
    : list ParsedTransaction :=
  sortByTimestampDesc (mapValues (mergeLoop results)).

Section Actions.
Context {W : Type} `{!Solana.Lib} `{!Http.Fetch W}.

Definition fetchWalletHistory (address : string)
    (limit : option Z) (before : option string)
    : M (St W) (list Http.HeliusEnhancedTransaction) :=
  do! emit (EvFetchWalletHistory address limit before) in
  let limit := default 100 limit in
  tryCatch
    (let! pubkey := WalletActions.ensurePubkey address in
     WalletActions.fetchParsedTransactions pubkey before (Some limit))
    (fun _ => ret []).

Definition getTimeline (wallets : list Wallet)
    (limit : option Z) (cursor : option string)
    : M (St W) TimelineResponse :=
  let limit := default 50 limit in
  tryCatch
    (let! results :=
       promiseAll (fun wallet =>
               let! transactions :=
                 fetchWalletHistory (address wallet)
                   (Some (ceilDiv limit (Z.of_nat (length wallets)) + 10))
                   cursor in
               ret (wallet, transactions))
            wallets in
     let merged := mergeTransactions results in
     let trimmed := slice0 merged limit in
     let nextCursor := signature <$> last trimmed in
     ret {| success := true;
            data := Some trimmed;
            nextCursor := nextCursor;
            error := None |})
    (fun error =>
       ret {| success := false;
              data := None;
              nextCursor := None;
              error := Some (messageOr error "Failed to fetch timeline") |}).
End Actions.

End Timeline.

(** ** [src/app/actions/rpc.ts] *)

Module Rpc.
Import Js Solana Machine Eff.
Local Open Scope eff_scope.

Section Actions.
Context {W : Type} `{!Lib} `{!Connection W}.

Definition getRecentBlockhash : M (St W) BlockhashResult :=
  tryCatch
    (let! latest := ext conn_getLatestBlockhash in
     ret {| bh_success := true;
            bh_data := Some {| blockhash := blockhash latest;
                               lastValidBlockHeight :=
                                 lastValidBlockHeight latest |};
            bh_error := None |})
    (fun error =>
       ret {| bh_success := false;
              bh_data := None;
              bh_error := Some (messageOr error "Failed to get blockhash") |}).

Definition simulateTransaction (serializedTransaction : string)
    : M (St W) SimulateResult :=
  tryCatch
    (let! transaction := lift (Transaction_from serializedTransaction) in
     let! latest := ext conn_getLatestBlockhash in
     let transaction := setRecentBlockhash (blockhash latest) transaction in
     let! message := lift (compileMessage transaction) in
     let! result := ext (conn_simulateTransaction message) in
     match err result with
     | Some e =>
         if truthy e
         then ret {| sim_success := false;
                     sim_error := Some (JSON_stringify e) |}
         else ret {| sim_success := true; sim_error := None |}
     | None => ret {| sim_success := true; sim_error := None |}
     end)
    (fun error =>
       ret {| sim_success := false;
              sim_error := Some (messageOr error "Simulation failed") |}).

Definition sendTransaction (serializedTransaction : string)
    : M (St W) SendResult :=
  tryCatch
    (let! signature := ext (conn_sendRawTransaction serializedTransaction) in
     let! latest := ext conn_getLatestBlockhash in
     do! ext (conn_confirmTransaction signature (blockhash latest)
                (lastValidBlockHeight latest)) in
     ret {| send_success := true;
            send_signature := Some signature;
            send_error := None |})
    (fun error =>
       ret {| send_success := false;
              send_signature := None;
              send_error :=
                Some (messageOr error "Failed to send transaction") |}).
End Actions.

End Rpc.

(** ** [src/hooks/useCloseAccounts.ts] *)

Module CloseAccounts.
Import Js Solana Machine Eff.
Local Open Scope eff_scope.

Record TokenToClose := {
  mint : string;
  tokenProgram : option string;
  (** raw token balance, not decimals adjusted *)
  balance : option Z
}.

Record CloseAccountsResult := {
  success : bool;
  signature : option string;
  error : option string;
  closedCount : nat;
  skippedCount : option nat;
  closedMints : option (list string)
}.

(** What [useWallet()] hands to the hook. *)
Record WalletContextState (W : Type) := {
  publicKey : option PublicKey;
  signTransaction :
    option (Transaction -> W -> (Thrown + Transaction) * W)
}.
Arguments publicKey {W} _.
Arguments signTransaction {W} _.

(** [{ token, instructions }] *)
Record TokenInstructions := {
  ti_token : TokenToClose;
  ti_instructions : list TransactionInstruction
}.

(** [{ token, instructions, valid }] *)
Record SimulationOutcome := {
  so_token : TokenToClose;
  so_instructions : list TransactionInstruction;
  valid : bool
}.

(** [{ instructions, mints }] *)
Record Batch := {
  batch_instructions : list TransactionInstruction;
  batch_mints : list string
}.

(** The [let] variables assigned by the batch loop *)
Record Progress := {
  p_closedCount : nat;
  p_lastSignature : option string;
  p_lastError : option string;
  p_allClosedMints : list string
}.

Definition MAX_ACCOUNTS_PER_TX : nat := 5.

Definition TOKEN_2022_ADDRESS : string :=
  "TokenzQdBNbLqP5VEhdkAS6EPFLC1PHnBqCXEpPxuEb".

(** Rent reclaimed per closed account, [0.00203928] SOL *)
Definition RENT_PER_ACCOUNT : Q := (203928 # 100000000)%Q.

Definition isToken2022 (token : TokenToClose) : bool :=
  bool_decide (tokenProgram token = Some TOKEN_2022_ADDRESS).

Definition programIdOf (token : TokenToClose) : PublicKey :=
  if isToken2022 token then TOKEN_2022_PROGRAM_ID else TOKEN_PROGRAM_ID.

(** [token.balance && token.balance > 0] *)
Definition hasBalance (token : TokenToClose) : bool :=
  match balance token with
  | Some b => negb (b =? 0)%Z && (0 <? b)%Z
  | None => false
  end.

Definition mkBatch (batchTokens : list SimulationOutcome) : Batch :=
  {| batch_instructions := List.concat (List.map so_instructions batchTokens);
     batch_mints := List.map (fun r => mint (so_token r)) batchTokens |}.

(** [for (let i = 0; i < validTokens.length; i += MAX_ACCOUNTS_PER_TX)] *)
Equations? batchesFrom (validTokens : list SimulationOutcome) (i : nat)
    : list Batch by wf (length validTokens - i)%nat lt :=
  batchesFrom validTokens i with decide (i < length validTokens)%nat := {
    | left _ =>
        mkBatch (slice validTokens i (i + MAX_ACCOUNTS_PER_TX))
        :: batchesFrom validTokens (i + MAX_ACCOUNTS_PER_TX);
    | right _ => [] }.
Proof. unfold MAX_ACCOUNTS_PER_TX. lia. Qed.

Definition buildBatches (validTokens : list SimulationOutcome) : list Batch :=
  batchesFrom validTokens 0.

(** [next.add(mint)] on a [Set<string>] kept in insertion order *)
Definition setAdd (s : list string) (x : string) : list string :=
  if bool_decide (x ∈ s) then s else s ++ [x].

Definition setIsClosing (b : bool) (h : HookState) : HookState :=
  {| isClosing := b;
     statusMessage := statusMessage h;
     Machine.closedMints := Machine.closedMints h;
     reclaimedSOL := reclaimedSOL h |}.

Definition setStatusMessage (m : string) (h : HookState) : HookState :=
  {| isClosing := isClosing h;
     statusMessage := m;
     Machine.closedMints := Machine.closedMints h;
     reclaimedSOL := reclaimedSOL h |}.

(** [setClosedMints((prev) => ...)] *)
Definition addClosedMints (mints : list string) (h : HookState) : HookState :=
  {| isClosing := isClosing h;
     statusMessage := statusMessage h;
     Machine.closedMints := fold_left setAdd mints (Machine.closedMints h);
     reclaimedSOL := reclaimedSOL h |}.

(** [setReclaimedSOL((prev) => prev + n * 0.00203928)] *)
Definition addReclaimed (n : nat) (h : HookState) : HookState :=
  {| isClosing := isClosing h;
     statusMessage := statusMessage h;
     Machine.closedMints := Machine.closedMints h;
     reclaimedSOL :=
       (reclaimedSOL h + inject_Z (Z.of_nat n) * RENT_PER_ACCOUNT)%Q |}.

(** The test transaction of the simulation stage and the transaction of a
    batch are assembled the same way. *)
Definition assemble (hash : string) (payer : PublicKey)
    (ixs : list TransactionInstruction) : Transaction :=
  addAll ixs (setFeePayer payer (setRecentBlockhash hash newTransaction)).

Definition unsignedConfig : SerializeConfig :=
  {| requireAllSignatures := false; verifySignatures := false |}.

(** [tx.serialize()] with no argument *)
Definition defaultConfig : SerializeConfig :=
  {| requireAllSignatures := true; verifySignatures := true |}.

Section Hook.
Context {W : Type} `{!Lib} `{!Connection W}.

Definition callGetRecentBlockhash : M (St W) BlockhashResult :=
  let! r := Rpc.getRecentBlockhash in
  do! emit (EvGetRecentBlockhash r) in
  ret r.

Definition callSimulate (serialized : string) : M (St W) SimulateResult :=
  let! r := Rpc.simulateTransaction serialized in
  do! emit (EvSimulate serialized r) in
  ret r.

Definition callSend (serialized : string) : M (St W) SendResult :=
  let! r := Rpc.sendTransaction serialized in
  do! emit (EvSend serialized r) in
  ret r.

Definition callSign
    (sign : Transaction -> W -> (Thrown + Transaction) * W)
    (tx : Transaction) : M (St W) Transaction :=
  let! r := settle (ext (sign tx)) in
  do! emit (EvSign tx r) in
  lift r.

(** [if (!r.success || !r.data) throw new Error(r.error || '...')] *)
Definition requireBlockhash (r : BlockhashResult) : M (St W) string :=
  match bh_success r, bh_data r with
  | true, Some d => ret (blockhash d)
  | _, _ => throw (ErrorObj (optStrOr (bh_error r) "Failed to get blockhash"))
  end.

(** Body of the first loop: the instructions for one token.  The
    constructors of the libraries either return or throw. *)
Definition instructionsFor (owner : PublicKey) (token : TokenToClose)
    : Thrown + TokenInstructions :=
  match PublicKey_new (mint token) with
  | inl e => inl e
  | inr mintPubkey =>
      let programId := programIdOf token in
      match getAssociatedTokenAddressSync mintPubkey owner false programId with
      | inl e => inl e
      | inr tokenAccountPubkey =>
          let burn :=
            if hasBalance token
            then [createBurnInstruction tokenAccountPubkey mintPubkey owner
                    (default 0 (balance token)) [] programId]
            else [] in
          inr {| ti_token := token;
                 ti_instructions :=
                   burn ++ [createCloseAccountInstruction tokenAccountPubkey
                              owner owner [] programId] |}
      end
  end.

Definition buildInstructions (owner : PublicKey) (token : TokenToClose)
    : M (St W) TokenInstructions :=
  lift (instructionsFor owner token).

(** Callback of [tokenInstructions.map] *)
Definition simulateOne (hash : string) (owner : PublicKey)
    (t : TokenInstructions) : M (St W) SimulationOutcome :=
  let testTx := assemble hash owner (ti_instructions t) in
  let! serialized := lift (serialize unsignedConfig testTx) in
  let! result := callSimulate serialized in
  ret {| so_token := ti_token t;
         so_instructions := ti_instructions t;
         valid := sim_success result |}.

(** Body of the batch loop, for the batch at index [i] of [total] *)
Definition processBatch
    (sign : Transaction -> W -> (Thrown + Transaction) * W)
    (owner : PublicKey) (total i : nat) (batch : Batch) (acc : Progress)
    : M (St W) Progress :=
  do! setHook (setStatusMessage
        ("Signing batch " +:+ pretty (i + 1)%nat +:+ "/" +:+ pretty total
         +:+ " (" +:+ pretty (length (batch_mints batch))
         +:+ " accounts)...")) in
  let! freshBlockhash := callGetRecentBlockhash in
  let! hash := requireBlockhash freshBlockhash in
  let batchTx := assemble hash owner (batch_instructions batch) in
  tryCatch
    (let! signedTx := callSign sign batchTx in
     let! serialized := lift (serialize defaultConfig signedTx) in
     do! setHook (setStatusMessage
           ("Sending batch " +:+ pretty (i + 1)%nat +:+ "/"
            +:+ pretty total +:+ "...")) in
     let! sendResult := callSend serialized in
     if send_success sendResult then
       do! setHook (addClosedMints (batch_mints batch)) in
       do! setHook (addReclaimed (length (batch_mints batch))) in
       ret {| p_closedCount :=
                (p_closedCount acc + length (batch_mints batch))%nat;
              p_lastSignature := send_signature sendResult;
              p_lastError := p_lastError acc;
              p_allClosedMints := p_allClosedMints acc ++ batch_mints batch |}
     else
       ret {| p_closedCount := p_closedCount acc;
              p_lastSignature := p_lastSignature acc;
              p_lastError := send_error sendResult;
              p_allClosedMints := p_allClosedMints acc |})
    (fun error =>
       ret {| p_closedCount := p_closedCount acc;
              p_lastSignature := p_lastSignature acc;
              p_lastError := Some (messageOr error "Unknown error");
              p_allClosedMints := p_allClosedMints acc |}).

(** [for (let i = 0; i < batches.length; i++)], from index [i] on *)
Fixpoint processBatches
    (sign : Transaction -> W -> (Thrown + Transaction) * W)
    (owner : PublicKey) (total i : nat) (batches : list Batch)
    (acc : Progress) : M (St W) Progress :=
  match batches with
  | [] => ret acc
  | batch :: rest =>
      let! acc' := processBatch sign owner total i batch acc in
      processBatches sign owner total (S i) rest acc'
  end.

Definition initialProgress : Progress :=
  {| p_closedCount := 0;
     p_lastSignature := None;
     p_lastError := None;
     p_allClosedMints := [] |}.

(** From the status line before the batches are built to the result
    returned after the batch loop *)
Definition submitBatches
    (sign : Transaction -> W -> (Thrown + Transaction) * W)
    (owner : PublicKey) (skipped : nat)
    (validTokens : list SimulationOutcome)
    : M (St W) CloseAccountsResult :=
  do! setHook (setStatusMessage
        ("Found " +:+ pretty (length validTokens)
         +:+ " closeable accounts"
         +:+ (if (0 <? skipped)%nat
              then " (" +:+ pretty skipped +:+ " frozen/skipped)"
              else ""))) in
  let batches := buildBatches validTokens in
  let! final :=
    processBatches sign owner (length batches) 0 batches
      initialProgress in
  do! setHook (setIsClosing false) in
  do! setHook (setStatusMessage "") in
  if (0 <? p_closedCount final)%nat then
    ret {| success := true;
           signature := p_lastSignature final;
           error := None;
           closedCount := p_closedCount final;
           skippedCount := Some skipped;
           closedMints := Some (p_allClosedMints final) |}
  else
    ret {| success := false;
           signature := None;
           error := Some (optStrOr (p_lastError final)
                            "Failed to close accounts");
           closedCount := 0;
           skippedCount := Some skipped;
           closedMints := None |}.

(** The [try] block of [closeAccounts] *)
Definition closeAccountsBody
    (sign : Transaction -> W -> (Thrown + Transaction) * W)
    (owner : PublicKey) (tokens : list TokenToClose)
    : M (St W) CloseAccountsResult :=
  let! blockhashResult := callGetRecentBlockhash in
  let! hash := requireBlockhash blockhashResult in
  let! tokenInstructions := mapM (buildInstructions owner) tokens in
  do! setHook (setStatusMessage
        ("Simulating " +:+ pretty (length tokens) +:+ " accounts...")) in
  let! simulationResults :=
    promiseAll (simulateOne hash owner) tokenInstructions in
  let validTokens := List.filter valid simulationResults in
  let skipped := (length simulationResults - length validTokens)%nat in
  if (length validTokens =? 0)%nat then
    do! setHook (setIsClosing false) in
    do! setHook (setStatusMessage "") in
    ret {| success := false;
           signature := None;
           error := Some "All accounts are frozen or invalid";
           closedCount := 0;
           skippedCount := Some skipped;
           closedMints := None |}
  else
    submitBatches sign owner skipped validTokens.

(** The outer [catch] block *)
Definition onError (error : Thrown) : M (St W) CloseAccountsResult :=
  do! setHook (setIsClosing false) in
  do! setHook (setStatusMessage "") in
  ret {| success := false;
         signature := None;
         error := Some (messageOr error "Unknown error");
         closedCount := 0;
         skippedCount := None;
         closedMints := None |}.

Definition closeAccounts (wallet : WalletContextState W)
    (tokens : list TokenToClose) : M (St W) CloseAccountsResult :=
  match publicKey wallet, signTransaction wallet with
  | Some owner, Some sign =>
      if (length tokens =? 0)%nat then
        ret {| success := false;
               signature := None;
               error := Some "No accounts selected";
               closedCount := 0;
               skippedCount := None;
               closedMints := None |}
      else
        do! setHook (setIsClosing true) in
        do! setHook (setStatusMessage
              ("Checking " +:+ pretty (length tokens) +:+ " accounts...")) in
        tryCatch (closeAccountsBody sign owner tokens) onError
  | _, _ =>
      ret {| success := false;
             signature := None;
             error := Some "Wallet not connected";
             closedCount := 0;
             skippedCount := None;
             closedMints := None |}
  end.
End Hook.

End CloseAccounts.

(** ** A scripted world, for running the program on concrete inputs *)

Module Demo.
Import Js Solana Http Machine.

(** The replies the outside will give, call after call; a queue that has
    run empty gives the default reply. *)
Record Script := {
  blockhashes : list (Thrown + BlockhashWithExpiry);
  simulations : list (Thrown + SimulatedResponse);
  sends : list (Thrown + string);
  signs : list (option Thrown)
}.

Definition someBlockhash : BlockhashWithExpiry :=
  {| blockhash := "EkSnNWid2cvwEVnVx9aBqawnmiCNiDgp3gUdkDPTKN1N";
     lastValidBlockHeight := 250000000 |}.

Definition noErr : SimulatedResponse := {| err := None; logs := Some [] |}.

Definition frozenErr : SimulatedResponse :=
  {| err := Some (JObj [("InstructionError", JArr [JNum 0; JObj [("Custom", JNum 17)]])]);
     logs := Some ["Program log: Error: Account is frozen"] |}.

Definition ixName (ix : TransactionInstruction) : string :=
  match ix with
  | createBurnInstruction a _ _ n _ _ =>
      "burn(" +:+ toBase58 a +:+ "," +:+ pretty n +:+ ")"
  | createCloseAccountInstruction a _ _ _ _ => "close(" +:+ toBase58 a +:+ ")"
  end.

#[export] Instance lib : Lib := {|
  PublicKey_new s :=
    if truthyStr s then inr {| toBase58 := s |}
    else inl (ErrorObj "Invalid public key input");
  getAssociatedTokenAddressSync m _ _ _ :=
    inr {| toBase58 := "ata:" +:+ toBase58 m |};
  serialize _ tx :=
    inr (default "" (recentBlockhash tx) +:+ "|"
         +:+ String.concat ";" (List.map ixName (instructions tx)));
  Transaction_from _ := inr newTransaction;
  compileMessage tx := inr {| compiledFrom := tx |};
  JSON_stringify _ := "{InstructionError:[0,{Custom:17}]}";
  String_trim s := s;
  String_toLowerCase s := s
|}.

#[export] Instance connection : Connection Script := {|
  conn_getLatestBlockhash w :=
    (default (inr someBlockhash) (head (blockhashes w)),
     {| blockhashes := tail (blockhashes w); simulations := simulations w;
        sends := sends w; signs := signs w |});
  conn_simulateTransaction _ w :=
    (default (inr noErr) (head (simulations w)),
     {| blockhashes := blockhashes w; simulations := tail (simulations w);
        sends := sends w; signs := signs w |});
  conn_sendRawTransaction _ w :=
    (default (inr "5VERv8NMvzbJMEkV8xnrLkEaWRtSz9CosKDYjCJjBRnb") (head (sends w)),
     {| blockhashes := blockhashes w; simulations := simulations w;
        sends := tail (sends w); signs := signs w |});
  conn_confirmTransaction _ _ _ w := (inr tt, w)
|}.

(** The wallet signs by attaching one signature, or rejects. *)
Definition sign (tx : Transaction) (w : Script)
    : (Thrown + Transaction) * Script :=
  (match head (signs w) with
   | Some (Some e) => inl e
   | _ => inr {| recentBlockhash := recentBlockhash tx;
                 Solana.feePayer := Solana.feePayer tx;
                 instructions := instructions tx;
                 signatures := ["sig"] |}
   end,
   {| blockhashes := blockhashes w; simulations := simulations w;
      sends := sends w; signs := tail (signs w) |}).

Definition history (address : string) : list HeliusEnhancedTransaction :=
  [ {| signature := "shared"; type := "TRANSFER"; source := "";
       description := ""; fee := 5000; feePayer := address; slot := 7;
       timestamp := 1700000000;
       nativeTransfers := None; tokenTransfers := None; events := None |};
    {| signature := "only-" +:+ address; type := ""; source := "JUPITER";
       description := ""; fee := 5000; feePayer := address; slot := 9;
       timestamp := 1700000100 + Z.of_nat (String.length address);
       nativeTransfers := None; tokenTransfers := None; events := None |} ].

#[export] Instance fetch : Fetch Script := {|
  fetch_sns _ w :=
    (inr {| ok := false; statusText := "Not Found";
            json := inl (ErrorObj "Unexpected end of JSON input") |}, w);
  fetch_rpc_getAccountInfo _ w :=
    (inr {| ok := true; statusText := "OK";
            json := inr {| rpc_error := None; rpc_result := None |} |}, w);
  fetch_transactions address _ _ w :=
    (inr {| ok := true; statusText := "OK"; json := inr (history address) |}, w)
|}.

Definition quiet : Script :=
  {| blockhashes := []; simulations := []; sends := []; signs := [] |}.

Definition idle : HookState :=
  {| isClosing := false; statusMessage := ""; closedMints := [];
     reclaimedSOL := 0%Q |}.

Definition start (w : Script) : St Script :=
  {| world := w; log := []; hook := idle |}.

Definition wallet : CloseAccounts.WalletContextState Script :=
  {| CloseAccounts.publicKey :=
       Some {| toBase58 := "9xQeWvG816bUx9EPjHmaT23yvVM2ZWbrrpZb9PusVFin" |};
     CloseAccounts.signTransaction := Some sign |}.

Definition dust (m : string) (b : option Z) : CloseAccounts.TokenToClose :=
  {| CloseAccounts.mint := m;
     CloseAccounts.tokenProgram := Some "TokenkegQfeZyiNwAJbNbGKPFXCWuBvf9Ss623VQ5DA";
     CloseAccounts.balance := b |}.

End Demo.

(** * Further parts of the program *)

(** ** [src/app/actions/wallet.ts]: resolving what the user typed *)

Module WalletResolve.
Import Js Solana Http Machine Eff WalletActions.
Local Open Scope eff_scope.

Inductive WalletType := pubkey | domain.

(** [WalletValidation] of [src/types] *)
Record WalletValidation := {
  wv_valid : bool;
  wv_address : option string;
  wv_type : option WalletType;
  wv_error : option string
}.

Section Actions.
Context {W : Type} `{!Lib} `{!Fetch W}.

(** [result?.value !== null]: a reply without a result counts as an
    account that exists; [None] as [value] is the [null] the node answers
    for an account that does not. *)
Definition accountExists (address : string) : M (St W) bool :=
  tryCatch
    (let! result := rpcCall_getAccountInfo address in
     ret (match result with
          | Some r => bool_decide (is_Some (value r))
          | None => true
          end))
    (fun _ => ret false).

Definition resolveWallet (input : string) : M (St W) WalletValidation :=
  let trimmed := String_trim input in
  if endsWith (String_toLowerCase trimmed) ".sol" then
    let! resolved := resolveSolDomain (String_toLowerCase trimmed) in
    match optStrOrNull resolved with
    | Some r =>
        ret {| wv_valid := true;
               wv_address := Some r;
               wv_type := Some domain;
               wv_error := None |}
    | None =>
        ret {| wv_valid := false;
               wv_address := None;
               wv_type := None;
               wv_error := Some ("Could not resolve domain: "
                                 +:+ String_toLowerCase trimmed) |}
    end
  else if negb (isValidPublicKey trimmed) then
    ret {| wv_valid := false;
           wv_address := None;
           wv_type := None;
           wv_error := Some "Invalid Solana address format" |}
  else
    let! exists_ := accountExists trimmed in
    if negb exists_ then
      ret {| wv_valid := true;
             wv_address := Some trimmed;
             wv_type := Some pubkey;
             wv_error := None |}
    else
      ret {| wv_valid := true;
             wv_address := Some trimmed;
             wv_type := Some pubkey;
             wv_error := None |}.

(** [Promise.all(inputs.map(resolveWallet))] *)
Definition resolveWallets (inputs : list string)
    : M (St W) (list WalletValidation) :=
  promiseAll resolveWallet inputs.
End Actions.

End WalletResolve.

(** ** [src/app/actions/timeline.ts]: time ranges and single transactions *)

Module TimelineMore.
Import Js Types Machine Eff Timeline.
Local Open Scope eff_scope.

(** [POST https://api.helius.xyz/v0/transactions/] with the signatures to
    parse; the body of the reply is an array, or [null]. *)
Class FetchParsed (W : Type) := {
  fetch_parse_transactions :
    list string ->
    W -> (Thrown + Http.Response (option (list Http.HeliusEnhancedTransaction))) * W
}.

Record TransactionDetails := {
  td_success : bool;
  td_data : option ParsedTransaction;
  td_error : option string
}.

(** The object literal of [getTransactionDetails]: as in
    [mergeTransactions], without the three fields that belong to a
    wallet. *)
Definition detailsOf (tx : Http.HeliusEnhancedTransaction)
    : ParsedTransaction :=
  {| signature := Http.signature tx;
     type := strOr (Http.type tx) "UNKNOWN";
     source := strOr (Http.source tx) "UNKNOWN";
     description := strOr (Http.description tx) "";
     fee := numOr0 (Http.fee tx);
     feePayer := strOr (Http.feePayer tx) "";
     slot := numOr0 (Http.slot tx);
     timestamp := numOr0 (Http.timestamp tx);
     blockTime := numOr0 (Http.timestamp tx);
     nativeTransfers := default [] (Http.nativeTransfers tx);
     tokenTransfers :=
       List.map toTokenTransfer (default [] (Http.tokenTransfers tx));
     events := {| nft := Http.events tx ≫= Http.h_nft;
                  swap := Http.events tx ≫= Http.h_swap |};
     isSelfTransfer := None;
     walletLabel := None;
     walletColor := None |}.


Section Actions.
Context {W : Type} `{!Solana.Lib} `{!Http.Fetch W} `{!FetchParsed W}.


Definition getTransactionDetails (signature : string)
    : M (St W) TransactionDetails :=
  tryCatch
    (let! response := ext (fetch_parse_transactions [signature]) in
     if negb (Http.ok response) then
       throw (ErrorObj ("Failed to fetch transaction: "
                        +:+ Http.statusText response))
     else
       let! transactions := lift (Http.json response) in
       match transactions with
       | Some (tx :: _) =>
           ret {| td_success := true;
                  td_data := Some (detailsOf tx);
                  td_error := None |}
       | _ =>
           ret {| td_success := false;
                  td_data := None;
                  td_error := Some "Transaction not found" |}
       end)
    (fun error =>
       ret {| td_success := false;
              td_data := None;
              td_error :=
                Some (messageOr error "Failed to fetch transaction") |}).
End Actions.

End TimelineMore.

(** ** [src/app/actions/rpc.ts]: frozen token accounts *)

Module RpcFrozen.
Import Js Solana Machine Eff.
Local Open Scope eff_scope.

(** [account.data.parsed.info], as far as it is read *)
Record TokenAccountInfo := {
  tai_state : option string;
  tai_mint : string
}.

(** [account.data.parsed] *)
Record ParsedAccountData := { pad_info : option TokenAccountInfo }.

(** An item of [getParsedTokenAccountsByOwner(...).value] *)
Record TokenAccount := { ta_parsed : option ParsedAccountData }.

Class TokenAccounts (W : Type) := {
  (** [connection.getParsedTokenAccountsByOwner(owner, { programId })],
      its [value] *)
  conn_getParsedTokenAccountsByOwner :
    PublicKey -> PublicKey -> W -> (Thrown + list TokenAccount) * W
}.

Record FrozenMintsResult := {
  fm_success : bool;
  fm_data : option (list string);
  fm_error : option string
}.

(** [Promise.all([p1, p2])]: both calls are made; the result rejects with
    a rejection of one of them (here the first in array order), else
    resolves to both values. *)
Definition promiseAll2 {S A B} (m1 : M S A) (m2 : M S B) : M S (A * B) :=
  let! r1 := settle m1 in
  let! r2 := settle m2 in
  match r1, r2 with
  | inr a, inr b => ret (a, b)
  | inl e, _ => throw e
  | inr _, inl e => throw e
  end.

(** The test [parsed?.info?.state === 'frozen'] of a loop body, with the
    mint it pushes when the test passes *)
Definition frozenMint (account : TokenAccount) : option string :=
  match ta_parsed account with
  | Some {| pad_info := Some i |} =>
      if bool_decide (tai_state i = Some "frozen")
      then Some (tai_mint i)
      else None
  | _ => None
  end.

(** One of the two [for ... of] loops: [frozenMints] after the accounts
    [accounts] *)
Definition pushFrozen (frozenMints : list string)
    (accounts : list TokenAccount) : list string :=
  fold_left
    (fun acc account =>
       match frozenMint account with
       | Some mint => acc ++ [mint]
       | None => acc
       end)
    accounts frozenMints.

Section Actions.
Context {W : Type} `{!Lib} `{!TokenAccounts W}.

Definition getFrozenTokenMints (ownerAddress : string)
    : M (St W) FrozenMintsResult :=
  tryCatch
    (let! owner := lift (PublicKey_new ownerAddress) in
     let! (tokenAccounts, token2022Accounts) :=
       promiseAll2
         (ext (conn_getParsedTokenAccountsByOwner owner TOKEN_PROGRAM_ID))
         (ext (conn_getParsedTokenAccountsByOwner owner
                 TOKEN_2022_PROGRAM_ID)) in
     let frozenMints := pushFrozen [] tokenAccounts in
     let frozenMints := pushFrozen frozenMints token2022Accounts in
     ret {| fm_success := true;
            fm_data := Some frozenMints;
            fm_error := None |})
    (fun error =>
       ret {| fm_success := false;
              fm_data := None;
              fm_error :=
                Some (messageOr error "Failed to get frozen tokens") |}).
End Actions.

End RpcFrozen.

(** ** [src/hooks/useTimeline.ts]: the pages of the infinite query *)

Module UseTimeline.
Import Js Types Machine Eff Timeline.
Local Open Scope eff_scope.

(** What [queryFn] resolves to *)
Record Page := {
  transactions : list ParsedTransaction;
  page_nextCursor : option string
}.

Section Hook.
Context {W : Type} `{!Solana.Lib} `{!Http.Fetch W}.

(** [queryFn] of [useTimeline] and of [useWalletTimeline], for the wallets
    and the [limit] option of the hook *)
Definition queryFn (wallets : list Wallet) (limit : option Z)
    (pageParam : option string) : M (St W) Page :=
  let limit := default 50 limit in
  let! result := getTimeline wallets (Some limit) pageParam in
  if negb (success result) then
    throw (ErrorObj (optStrOr (error result) "Failed to fetch timeline"))
  else
    ret {| transactions := default [] (data result);
           page_nextCursor := nextCursor result |}.
End Hook.


End UseTimeline.

(** ** [useFrozenMints] of the assets hooks: the frozen mints of all
    wallets *)

Module UseFrozenMints.
Import Js Types Machine Eff RpcFrozen.
Local Open Scope eff_scope.

(** The loop over the results: the mints of the results that succeeded,
    added to the set *)
Definition combine (results : list FrozenMintsResult) : list string :=
  fold_left
    (fun allFrozen result =>
       match fm_success result, fm_data result with
       | true, Some data => fold_left CloseAccounts.setAdd data allFrozen
       | _, _ => allFrozen
       end)
    results [].

Section Hook.
Context {W : Type} `{!Solana.Lib} `{!TokenAccounts W}.

Definition queryFn (wallets : list Wallet) : M (St W) (list string) :=
  let! results :=
    promiseAll (fun w => getFrozenTokenMints (address w)) wallets in
  ret (combine results).
End Hook.

End UseFrozenMints.

(** ** Assets of the DAS API ([src/types], as far as the code reads them) *)

Module Das.
Import Js.

Record PriceInfo := {
  price_per_token : Q;
  total_price : Q;
  currency : string
}.

Record TokenInfo := {
  balance : Z;
  supply : Z;
  decimals : Z;
  token_program : string;
  price_info : option PriceInfo
}.

Record Ownership := { frozen : bool }.

Record DASAsset := {
  id : string;
  interface : string;
  ownership : option Ownership;
  token_info : option TokenInfo
}.

Record NativeBalance := {
  lamports : Z;
  price_per_sol : option Q;
  nb_total_price : option Q
}.

(** [item.interface === 'FungibleToken' || item.interface === 'FungibleAsset'
    || (item.token_info && item.token_info.decimals > 0)] *)
Definition isFungible (item : DASAsset) : bool :=
  String.eqb (interface item) "FungibleToken"
  || String.eqb (interface item) "FungibleAsset"
  || match token_info item with
     | Some info => (0 <? decimals info)%Z
     | None => false
     end.

(** [token.token_info?.price_info?.total_price || 0]; prices are kept as
    exact rationals. *)
Definition valueOf (token : DASAsset) : Q :=
  match token_info token ≫= price_info with
  | Some p => total_price p
  | None => 0%Q
  end.

End Das.

(** ** The assets actions ([src/app/actions/assets.ts]) *)

Module Assets.
Import Js Solana Http Machine Eff Das.
Local Open Scope eff_scope.

Record DASResponse := {
  total : Z;
  limit : Z;
  page : Z;
  items : list DASAsset;
  nativeBalance : option NativeBalance
}.

(** The parameters of [getAssetsByOwner] that vary between the calls *)
Record AssetsByOwnerParams := {
  ownerAddress : string;
  param_page : Z;
  param_limit : Z;
  showFungible : bool;
  showNativeBalance : bool;
  sortByRecentAction : bool
}.

Class DasApi (W : Type) := {
  (** [POST HELIUS_DAS_URL] with method [getAssetsByOwner] *)
  fetch_das_getAssetsByOwner :
    AssetsByOwnerParams ->
    W -> (Thrown + Response (RpcJson DASResponse)) * W
}.

(** [{ items, nativeBalance }] of [fetchWalletTokens] *)
Record WalletTokens := {
  wt_items : list DASAsset;
  wt_nativeBalance : option NativeBalance
}.

Record PortfolioAssets := {
  pa_nativeBalance : NativeBalance;
  tokens : list DASAsset;
  nfts : list DASAsset
}.

Record AssetsResponse := {
  success : bool;
  data : option PortfolioAssets;
  error : option string
}.

(** The filter of [fetchWalletNFTs], as written *)
Definition isNonFungible (item : DASAsset) : bool :=
  negb (String.eqb (interface item) "FungibleToken")
  && negb (String.eqb (interface item) "FungibleAsset")
  && negb (match token_info item with
           | Some info => (0 <? decimals info)%Z
           | None => false
           end).

(** [tokens.sort((a, b) => bValue - aValue)]: a stable sort, an element
    going before the first one whose value is not larger. *)
Fixpoint insertByValue (x : DASAsset) (l : list DASAsset) : list DASAsset :=
  match l with
  | [] => [x]
  | y :: l' =>
      if Qle_bool (valueOf y - valueOf x) 0
      then x :: y :: l'
      else y :: insertByValue x l'
  end.

Definition sortByValueDesc (l : list DASAsset) : list DASAsset :=
  foldr insertByValue [] l.

Definition categorizeAssets (items : list DASAsset)
    : list DASAsset * list DASAsset :=
  let '(tokens, nfts) :=
    fold_left
      (fun '(tokens, nfts) item =>
         if isFungible item
         then (tokens ++ [item], nfts)
         else (tokens, nfts ++ [item]))
      items ([], []) in
  (sortByValueDesc tokens, nfts).

Section Actions.
Context {W : Type} `{!Lib} `{!Fetch W} `{!DasApi W}.

(** [dasCall('getAssetsByOwner', params)] *)
Definition dasCall_getAssetsByOwner (params : AssetsByOwnerParams)
    : M (St W) DASResponse :=
  let! response := ext (fetch_das_getAssetsByOwner params) in
  let! json := lift (json response) in
  match rpc_error json with
  | Some e => throw (ErrorObj (optStrOr (rpc_message e) "DAS call failed"))
  | None => ret (rpc_result json)
  end.

Definition fetchWalletTokens (address : string) : M (St W) WalletTokens :=
  let! pubkey := WalletActions.ensurePubkey address in
  tryCatch
    (let! response :=
       dasCall_getAssetsByOwner
         {| ownerAddress := pubkey;
            param_page := 1;
            param_limit := 50;
            showFungible := true;
            showNativeBalance := true;
            sortByRecentAction := true |} in
     let tokens := List.filter isFungible (items response) in
     ret {| wt_items := tokens;
            wt_nativeBalance := nativeBalance response |})
    (fun _ => ret {| wt_items := []; wt_nativeBalance := None |}).

(** The [while (hasMore && page <= maxPages)] loop of [fetchWalletNFTs],
    with [pagesLeft] pages still allowed; a failed request breaks out of
    the loop. *)
Fixpoint fetchNFTPages (pubkey : string) (pagesLeft : nat) (page : Z)
    (allNFTs : list DASAsset) : M (St W) (list DASAsset) :=
  match pagesLeft with
  | O => ret allNFTs
  | S pagesLeft' =>
      let! attempt :=
        settle
          (dasCall_getAssetsByOwner
             {| ownerAddress := pubkey;
                param_page := page;
                param_limit := 20;
                showFungible := false;
                showNativeBalance := false;
                sortByRecentAction := false |}) in
      match attempt with
      | inl _ => ret allNFTs
      | inr response =>
          let nfts := List.filter isNonFungible (items response) in
          let allNFTs := allNFTs ++ nfts in
          if (length (items response) =? 20)%nat
          then fetchNFTPages pubkey pagesLeft' (page + 1) allNFTs
          else ret allNFTs
      end
  end.

Definition fetchWalletNFTs (address : string) (maxPages : option nat)
    : M (St W) (list DASAsset) :=
  let maxPages := default 2%nat maxPages in
  let! pubkey := WalletActions.ensurePubkey address in
  fetchNFTPages pubkey maxPages 1 [].

Definition fetchWalletAssets (address : string) : M (St W) DASResponse :=
  let! (tokenResult, nfts) :=
    RpcFrozen.promiseAll2 (fetchWalletTokens address)
      (fetchWalletNFTs address None) in
  ret {| total := Z.of_nat (length (wt_items tokenResult) + length nfts);
         limit := 100;
         page := 1;
         items := wt_items tokenResult ++ nfts;
         nativeBalance := wt_nativeBalance tokenResult |}.

Definition getAssets (address : string) : M (St W) AssetsResponse :=
  tryCatch
    (let! response := fetchWalletAssets address in
     let '(tokens, nfts) := categorizeAssets (items response) in
     ret {| success := true;
            data :=
              Some {| pa_nativeBalance :=
                        default {| lamports := 0;
                                   price_per_sol := None;
                                   nb_total_price := None |}
                                (nativeBalance response);
                      tokens := tokens;
                      nfts := nfts |};
            error := None |})
    (fun error =>
       ret {| success := false;
              data := None;
              error := Some (messageOr error "Failed to fetch assets") |}).
End Actions.

End Assets.

(** ** The dust accounts of the portfolio view
    ([src/components/portfolio/PortfolioView.tsx]) *)

Module PortfolioDust.
Import Js Das.

(** [frozenMints?.has(token.id) || token.ownership?.frozen] *)
Definition isFrozen (frozenMints : option (list string)) (token : DASAsset)
    : bool :=
  match frozenMints with
  | Some mints => bool_decide (id token ∈ mints)
  | None => false
  end
  || match ownership token with
     | Some o => frozen o
     | None => false
     end.

(** The loop of the memo over [assets.tokens]: the tokens worth a dollar
    or more, and the dust accounts.  The two totals the memo also sums up
    are left out. *)
Definition splitDust (tokens : list DASAsset)
    (frozenMints : option (list string)) (closedMints : list string)
    : list DASAsset * list DASAsset :=
  fold_left
    (fun '(valuable, dust) token =>
       let value := valueOf token in
       if negb (Qle_bool 1 value) then
         if negb (isFrozen frozenMints token)
            && negb (bool_decide (id token ∈ closedMints))
         then (valuable, dust ++ [token])
         else (valuable, dust)
       else (valuable ++ [token], dust))
    tokens ([], []).

(** [tokensToClose] of [handleCloseDust] *)
Definition tokensToClose (dustAccounts : list DASAsset)
    (selectedDust : list string) : list CloseAccounts.TokenToClose :=
  List.map
    (fun token =>
       {| CloseAccounts.mint := id token;
          CloseAccounts.tokenProgram := token_program <$> token_info token;
          CloseAccounts.balance := balance <$> token_info token |})
    (List.filter (fun token => bool_decide (id token ∈ selectedDust))
       dustAccounts).

End PortfolioDust.

(** ** Scripted replies for the further endpoints *)

Module DemoMore.
Import Js Solana Http Machine Demo.

(** A name service that knows every name, and a node that knows every
    account *)
Definition resolver : Fetch Script := {|
  fetch_sns name w :=
    (inr {| ok := true; statusText := "OK";
            json := inr {| sns_result := Some (JStr ("owner of " +:+ name)) |} |},
     w);
  fetch_rpc_getAccountInfo _ w :=
    (inr {| ok := true; statusText := "OK";
            json :=
              inr {| rpc_error := None;
                     rpc_result :=
                       Some {| value :=
                                 Some {| lamports := 2500000000;
                                         owner := "11111111111111111111111111111111";
                                         executable := false;
                                         rentEpoch := 361 |} |} |} |},
     w);
  fetch_transactions address _ _ w :=
    (inr {| ok := true; statusText := "OK"; json := inr (history address) |}, w)
|}.

(** The parse endpoint answers with the history of wallet "A", whatever
    signature is asked for. *)
#[export] Instance parsed : TimelineMore.FetchParsed Script := {|
  TimelineMore.fetch_parse_transactions _ w :=
    (inr {| ok := true; statusText := "OK";
            json := inr (Some (history "A")) |}, w)
|}.

Definition account (state : string) (mint : string)
    : RpcFrozen.TokenAccount :=
  {| RpcFrozen.ta_parsed :=
       Some {| RpcFrozen.pad_info :=
                 Some {| RpcFrozen.tai_state := Some state;
                         RpcFrozen.tai_mint := mint |} |} |}.

(** The token program holds three accounts, one of them frozen; the
    Token-2022 program holds one frozen account. *)
#[export] Instance tokenAccounts : RpcFrozen.TokenAccounts Script := {|
  RpcFrozen.conn_getParsedTokenAccountsByOwner _ programId w :=
    (inr (if String.eqb (toBase58 programId) (toBase58 TOKEN_PROGRAM_ID)
          then [ account "initialized" "m1"; account "frozen" "m2";
                 account "initialized" "m3" ]
          else [ account "frozen" "m9" ]),
     w)
|}.

Definition asset (i : string) (decimals_ : Z) (price : option Q)
    (frozen_ : bool) : Das.DASAsset :=
  {| Das.id := i;
     Das.interface := "FungibleToken";
     Das.ownership := Some {| Das.frozen := frozen_ |};
     Das.token_info :=
       Some {| Das.balance := 1500;
               Das.supply := 1000000;
               Das.decimals := decimals_;
               Das.token_program := "TokenkegQfeZyiNwAJbNbGKPFXCWuBvf9Ss623VQ5DA";
               Das.price_info :=
                 (fun p => {| Das.price_per_token := p;
                              Das.total_price := p;
                              Das.currency := "USDC" |}) <$> price |} |}.

End DemoMore.


(** * Vocabulary of the properties *)

Section StoreTerms.
Import Types Store.

Definition twoWallets : WalletState :=
  addWallet "B" None (addWallet "A" None initialState).
End StoreTerms.

Section MergeTerms.
Import Types Timeline.

(** The signatures of the input, list after list, with repetitions. *)
Definition inputSignatures
    (results : list (Wallet * list Http.HeliusEnhancedTransaction))
    : list string :=
  List.concat (List.map (fun r => List.map Http.signature (snd r)) results).

(** Number of positions of [l] holding [k] *)
Definition occurrences (k : string) (l : list string) : nat :=
  length (List.filter (String.eqb k) l).

(** What holds of the signature map once the signatures [sigs] have been
    processed. *)
Definition Merged (m : JsMap ParsedTransaction) (sigs : list string) : Prop :=
  NoDup (List.map fst m) ∧
  (∀ k, k ∈ List.map fst m ↔ k ∈ sigs) ∧
  Forall (fun e =>
            signature (snd e) = fst e ∧
            isSelfTransfer (snd e)
            = Some (bool_decide (1 < occurrences (fst e) sigs)%nat)) m.

(** [a] does not come after [b] in a newest-first list. *)
Definition newerFirst (a b : ParsedTransaction) : Prop :=
  (timestamp b ≤ timestamp a)%Z.

(** A run of [mergeTransactions] on two wallets that both saw [s1]. *)
Definition sampleTx (sig : string) (ts : Z) : Http.HeliusEnhancedTransaction :=
  {| Http.signature := sig; Http.type := "TRANSFER"; Http.source := "";
     Http.description := ""; Http.fee := 5000; Http.feePayer := "";
     Http.slot := 1; Http.timestamp := ts;
     Http.nativeTransfers := None; Http.tokenTransfers := None;
     Http.events := None |}.

Definition sampleWallet (a : string) : Wallet :=
  {| address := a; label := "Wallet " +:+ a; color := "#14F195" |}.
End MergeTerms.

Section EffTerms.
Import Js Eff.
Context {S : Type}.

(** Whatever [m] returns satisfies [P]. *)
Definition Post {A} (m : M S A) (P : A → Prop) : Prop :=
  ∀ s a s', m s = (inr a, s') → P a.

(** [m] returns, from every state, a value satisfying [P]. *)
Definition Total {A} (m : M S A) (P : A → Prop) : Prop :=
  ∀ s, ∃ a s', m s = (inr a, s') ∧ P a.
End EffTerms.

Section SettledTerms.
Import Js Eff.
Context {S A B : Type}.

(** [Settled f s xs rs s']: running [f] on the elements of [xs] in turn,
    from state [s], gives the outcomes [rs] and ends in state [s']. *)
Inductive Settled (f : A → M S B) : S → list A → list (Thrown + B) → S → Prop :=
| Settled_nil s : Settled f s [] [] s
| Settled_cons s x r s1 xs rs s' :
    f x s = (r, s1) →
    Settled f s1 xs rs s' →
    Settled f s (x :: xs) (r :: rs) s'.
End SettledTerms.

Section QuietTerms.
Import Js Eff Machine.
Context {W : Type}.

(** [m] adds nothing to the log and leaves the hook state as it is. *)
Definition Quiet {A} (m : M (St W) A) : Prop :=
  ∀ s, log (m s).2 = log s ∧ hook (m s).2 = hook s.
End QuietTerms.

Section ServerTerms.
Import Js Eff Machine Solana Http.
Context {W : Type} `{!Lib} `{!Connection W} `{!Fetch W}.

(** A result object: [success] with no [error], or failure with one. *)
Definition resultShape (success : bool) (error : option string) : Prop :=
  if success then error = None else is_Some error.


End ServerTerms.

Section TimelineTerms.
Import Js Eff Machine Types Timeline.
Context {W : Type} `{!Solana.Lib} `{!Http.Fetch W}.

(** The per-wallet history fetches recorded in a log, with their options *)
Definition historyCalls (evs : list Event)
    : list (string * option Z * option string) :=
  omap (fun e => match e with
                 | EvFetchWalletHistory a l b => Some (a, l, b)
                 | _ => None
                 end) evs.

(** The requests to the enhanced-transactions endpoint recorded in a log,
    with their query parameters *)
Definition transactionRequests (evs : list Event)
    : list (string * option string * Z) :=
  omap (fun e => match e with
                 | EvGetTransactions a b l => Some (a, b, l)
                 | _ => None
                 end) evs.

(** The callback of [wallets.map] in [getTimeline] *)
Definition fetchOne (perWallet : Z) (cursor : option string) (wallet : Wallet)
    : M (St W) (Wallet * list Http.HeliusEnhancedTransaction) :=
  bind (fetchWalletHistory (address wallet) (Some perWallet) cursor)
       (fun transactions => ret (wallet, transactions)).

(** What one per-wallet fetch adds to the log: the call, then at most one
    request, which carries the cursor as [before]. *)
Definition fetchEvents (perWallet : Z) (cursor : option string)
    (wallet : Wallet) (evs : list Event) : Prop :=
  ∃ reqs,
    evs = EvFetchWalletHistory (address wallet) (Some perWallet) cursor :: reqs ∧
    historyCalls reqs = [] ∧
    Forall (fun q => q.1.2 = optStrOrNull cursor ∧ q.2 = perWallet)
           (transactionRequests reqs).
End TimelineTerms.

Section TimelineInputs.
Import Types.

Definition twoTracked : list Wallet :=
  [ {| address := "A"; label := "Wallet 1"; color := "#14F195" |};
    {| address := "BB"; label := "Wallet 2"; color := "#9945FF" |} ].
End TimelineInputs.

Section CloseTerms.
Import Js Eff Machine Solana CloseAccounts.
Context {W : Type} `{!Lib} `{!Connection W}.

Definition notConnected : CloseAccountsResult :=
  {| success := false; signature := None;
     error := Some "Wallet not connected";
     closedCount := 0; skippedCount := None; closedMints := None |}.

Definition noneSelected : CloseAccountsResult :=
  {| success := false; signature := None;
     error := Some "No accounts selected";
     closedCount := 0; skippedCount := None; closedMints := None |}.

Definition allFrozen (skipped : nat) : CloseAccountsResult :=
  {| success := false;
     signature := None;
     error := Some "All accounts are frozen or invalid";
     closedCount := 0;
     skippedCount := Some skipped;
     closedMints := None |}.

(** The blockhash a result of [getRecentBlockhash] carries, if it passes
    the check [r.success && r.data]. *)
Definition blockhashOf (r : BlockhashResult) : option string :=
  match bh_success r, bh_data r with
  | true, Some d => Some (blockhash d)
  | _, _ => None
  end.


(** What became of a batch: sent and confirmed, with the signature
    returned, or failed, with the error kept. *)
Inductive Outcome :=
| Sent (signature : option string)
| Failed (error : option string).


(** The calls made for one batch, and what became of it ([None] when the
    blockhash fetch failed, which abandons the loop). *)
Inductive BatchEvents (owner : PublicKey) (batch : Batch)
    : list Event → option Outcome → Prop :=
| BE_noBlockhash r :
    blockhashOf r = None →
    BatchEvents owner batch [EvGetRecentBlockhash r] None
| BE_rejected r hash e :
    blockhashOf r = Some hash →
    BatchEvents owner batch
      [ EvGetRecentBlockhash r;
        EvSign (assemble hash owner (batch_instructions batch)) (inl e) ]
      (Some (Failed (Some (messageOr e "Unknown error"))))
| BE_unserializable r hash signedTx e :
    blockhashOf r = Some hash →
    serialize defaultConfig signedTx = inl e →
    BatchEvents owner batch
      [ EvGetRecentBlockhash r;
        EvSign (assemble hash owner (batch_instructions batch)) (inr signedTx) ]
      (Some (Failed (Some (messageOr e "Unknown error"))))
| BE_submitted r hash signedTx serialized res :
    blockhashOf r = Some hash →
    serialize defaultConfig signedTx = inr serialized →
    BatchEvents owner batch
      [ EvGetRecentBlockhash r;
        EvSign (assemble hash owner (batch_instructions batch)) (inr signedTx);
        EvSend serialized res ]
      (Some (if send_success res then Sent (send_signature res)
             else Failed (send_error res))).

(** The calls made for a list of batches, one batch after the other, with
    the outcome of each batch reached; the flag tells whether the loop ran
    to its end. *)
Inductive BatchTrace (owner : PublicKey)
    : list Batch → list Event → list Outcome → bool → Prop :=
| BT_done : BatchTrace owner [] [] [] true
| BT_abandoned batch rest evs :
    BatchEvents owner batch evs None →
    BatchTrace owner (batch :: rest) evs [] false
| BT_next batch rest evs o evs' os complete :
    BatchEvents owner batch evs (Some o) →
    BatchTrace owner rest evs' os complete →
    BatchTrace owner (batch :: rest) (evs ++ evs') (o :: os) complete.

(** The assignments a batch's outcome causes *)
Definition applyOutcome (batch : Batch) (o : Outcome) (acc : Progress)
    : Progress :=
  match o with
  | Sent sig =>
      {| p_closedCount := (p_closedCount acc + length (batch_mints batch))%nat;
         p_lastSignature := sig;
         p_lastError := p_lastError acc;
         p_allClosedMints := p_allClosedMints acc ++ batch_mints batch |}
  | Failed err =>
      {| p_closedCount := p_closedCount acc;
         p_lastSignature := p_lastSignature acc;
         p_lastError := err;
         p_allClosedMints := p_allClosedMints acc |}
  end.

Fixpoint tally (batches : list Batch) (os : list Outcome) (acc : Progress)
    : Progress :=
  match batches, os with
  | batch :: batches', o :: os' => tally batches' os' (applyOutcome batch o acc)
  | _, _ => acc
  end.






End CloseTerms.

Section CloseInputs.
Import Js Machine Solana CloseAccounts Demo.

Definition owner : PublicKey :=
  {| toBase58 := "9xQeWvG816bUx9EPjHmaT23yvVM2ZWbrrpZb9PusVFin" |}.

Definition sixTokens : list TokenToClose :=
  [ dust "m1" None; dust "m2" (Some 0); dust "m3" (Some 12);
    dust "m4" None; dust "m5" None; dust "m6" None ].

(** What the simulation stage keeps of a token that passed *)
Definition passed (token : TokenToClose) : SimulationOutcome :=
  {| so_token := token;
     so_instructions :=
       match instructionsFor owner token with
       | inr ti => ti_instructions ti
       | inl _ => []
       end;
     valid := true |}.

End CloseInputs.

(** * Vocabulary of the further properties *)

Section MergeMoreTerms.
Import Types Timeline.

(** The transactions of the input, list after list, each with the wallet
    it was fetched for. *)
Definition flattenResults
    (results : list (Wallet * list Http.HeliusEnhancedTransaction))
    : list (Wallet * Http.HeliusEnhancedTransaction) :=
  List.concat (List.map (fun r => List.map (pair (fst r)) (snd r)) results).

(** The elements of a list in the order of their first occurrence *)
Definition firstSeen (l : list string) : list string :=
  fold_left CloseAccounts.setAdd l [].

(** [byTimestamp t p]: the transaction [p] has timestamp [t]. *)
Definition byTimestamp (t : Z) (p : ParsedTransaction) : bool :=
  (timestamp p =? t)%Z.

(** What holds of the signature map once the pairs [seen] have been
    processed: every entry was built from the first pair with its
    signature. *)
Definition FromFirst (m : JsMap ParsedTransaction)
    (seen : list (Wallet * Http.HeliusEnhancedTransaction)) : Prop :=
  Forall (fun e =>
            ∃ pre w tx post,
              seen = pre ++ (w, tx) :: post ∧
              Forall (fun q => Http.signature (snd q) ≠ Http.signature tx)
                     pre ∧
              fst e = Http.signature tx ∧
              setSelfTransfer (snd e) = setSelfTransfer (toParsed w tx)) m.
End MergeMoreTerms.

Section CloseMoreTerms.
Import Js Eff Machine Solana CloseAccounts.

Definition isBlockhashFetch (e : Event) : bool :=
  match e with EvGetRecentBlockhash _ => true | _ => false end.

Definition isSimulation (e : Event) : bool :=
  match e with EvSimulate _ _ => true | _ => false end.

Definition isSign (e : Event) : bool :=
  match e with EvSign _ _ => true | _ => false end.

Definition isSend (e : Event) : bool :=
  match e with EvSend _ _ => true | _ => false end.

(** Number of events of a kind in a log *)
Definition count (kind : Event → bool) (evs : list Event) : nat :=
  length (List.filter kind evs).

(** [Gained mints h h']: from [h] to [h'] the hook has added the mints
    [mints], one after the other, to [closedMints], and the rent of that
    many accounts to [reclaimedSOL]. *)
Definition Gained (mints : list string) (h h' : HookState) : Prop :=
  Machine.closedMints h'
  = fold_left setAdd mints (Machine.closedMints h) ∧
  (reclaimedSOL h'
   == reclaimedSOL h
      + inject_Z (Z.of_nat (length mints)) * RENT_PER_ACCOUNT)%Q.
End CloseMoreTerms.

Section CloseResultTerms.
Import Js Eff Machine Solana CloseAccounts.

(** What a result says, given the mints the hook has gained: a success
    reports exactly these mints; a failure reports none. *)
Definition Accounted (mints : list string) (r : CloseAccountsResult)
    : Prop :=
  if success r
  then closedMints r = Some mints ∧ closedCount r = length mints ∧
       mints ≠ [] ∧ error r = None
  else closedMints r = None ∧ closedCount r = 0%nat ∧
       signature r = None ∧ is_Some (error r).
End CloseResultTerms.


(** * Properties *)

(** ** The wallet store *)

Section StoreFacts.
Import Types Store.

Lemma hasAddress_spec ws a :
  hasAddress ws a = bool_decide (a ∈ List.map address ws).
Proof.
  induction ws as [|w ws IH]; simpl; [done|].
  rewrite IH. destruct (String.eqb_spec (address w) a) as [->|Hne]; simpl.
  - symmetry. apply bool_decide_eq_true_2. left.
  - apply bool_decide_ext. rewrite elem_of_cons. intuition congruence.
Qed.

Lemma color_index_in_range n :
  is_Some (WALLET_COLORS !! (n mod length WALLET_COLORS)%nat).
Proof.
  apply lookup_lt_is_Some. apply Nat.mod_upper_bound. simpl. lia.
Qed.

Lemma filter_address_elem ws addr p :
  p ∈ List.map address ws → p ≠ addr →
  p ∈ List.map address
        (List.filter (fun w => negb (String.eqb (address w) addr)) ws).
Proof.
  intros Hin Hne. induction ws as [|w ws IH]; simpl in *; [done|].
  apply elem_of_cons in Hin as [->|Hin].
  - destruct (String.eqb_spec (address w) addr) as [?|_]; [done|].
    simpl. left.
  - destruct (negb _); simpl; [right|]; by apply IH.
Qed.

Lemma head_elem {A} (l : list A) x : head l = Some x → x ∈ l.
Proof. destruct l; simpl; [done|]. intros [= ->]. left. Qed.

Lemma addWallet_listed addr lbl s :
  primaryListed s → primaryListed (addWallet addr lbl s).
Proof.
  unfold primaryListed, addWallet, addresses. intros Hinv.
  destruct (hasAddress (wallets s) addr); [done|]. simpl.
  rewrite List.map_app, elem_of_app. simpl.
  destruct (primaryWallet s) as [p|]; simpl.
  - unfold Js.strOr. destruct (Js.truthyStr p); [by left|].
    right. left.
  - right. left.
Qed.

Lemma removeWallet_listed addr s :
  primaryListed s → primaryListed (removeWallet addr s).
Proof.
  unfold primaryListed, removeWallet, addresses. simpl. intros Hinv.
  case_bool_decide as Hp.
  - destruct (head _) as [w|] eqn:Hhd; simpl; [|done].
    destruct (Js.truthyStr (address w)); [|done].
    apply list_elem_of_fmap_2. by apply head_elem.
  - destruct (primaryWallet s) as [p|]; [|done].
    apply filter_address_elem; [done|congruence].
Qed.

Lemma updateWalletLabel_addresses addr lbl s :
  addresses (updateWalletLabel addr lbl s) = addresses s.
Proof.
  unfold addresses, updateWalletLabel. simpl.
  rewrite List.map_map. apply List.map_ext. intros w.
  by destruct (String.eqb (address w) addr).
Qed.

(** C8, as the code has it.  An address already listed leaves the whole
    state as it was.  A new address is appended as a wallet whose colour is
    [WALLET_COLORS] at the previous length modulo 8 and whose label is the
    given one, or "Wallet <n+1>" when none (or the empty string) is given;
    [primaryWallet] becomes the new address when it was [null] or the empty
    string and is kept otherwise; nothing else changes. *)
Theorem addWallet_spec (s : WalletState) (addr : string) (lbl : option string) :
  ∃ c,
    WALLET_COLORS !! (length (wallets s) mod 8)%nat = Some c ∧
    addWallet addr lbl s =
      if bool_decide (addr ∈ addresses s) then s
      else
        {| wallets :=
             wallets s ++
             [ {| address := addr;
                  label :=
                    match lbl with
                    | Some (String a l) => String a l
                    | _ => "Wallet " +:+ pretty (S (length (wallets s)))
                    end;
                  color := c |} ];
           primaryWallet :=
             match primaryWallet s with
             | Some (String a p) => Some (String a p)
             | _ => Some addr
             end;
           isWarpComplete := isWarpComplete s;
           hoveredTransaction := hoveredTransaction s;
           selectedTransaction := selectedTransaction s;
           selectedTimeRange := selectedTimeRange s;
           currentView := currentView s;
           sidebarCollapsed := sidebarCollapsed s |}.
Proof.
  destruct (color_index_in_range (length (wallets s))) as [c Hc].
  exists c. split; [exact Hc|].
  unfold addWallet, addresses. rewrite hasAddress_spec.
  case_bool_decide; [done|].
  rewrite Hc. simpl. rewrite Nat.add_1_r. f_equal.
  - do 3 f_equal. by destruct lbl as [[|]|].
  - by destruct (primaryWallet s) as [[|]|].
Qed.

(** C8 as worded fails: with the empty string as primary wallet (which
    [addWallet ""] on the initial state produces), adding a new address
    replaces a primary wallet that was not [null]. *)
Lemma addWallet_overwrites_empty_primary :
  let s := addWallet "" None initialState in
  primaryWallet s = Some "" ∧
  ("So11111111111111111111111111111111111111112" ∉ addresses s) ∧
  primaryWallet
    (addWallet "So11111111111111111111111111111111111111112" None s)
  = Some "So11111111111111111111111111111111111111112".
Proof.
  simpl. split; [reflexivity|]. split; [|reflexivity].
  unfold addresses. simpl. intros [?|?%elem_of_nil]%elem_of_cons; done.
Qed.

(** C9, as the code has it.  An action keeps [primaryWallet] either [null]
    or listed, provided a [setPrimaryWallet] is given a listed address.
    [removeWallet] of the primary wallet moves it to the first remaining
    address, or to [null] when none remains or that address is the empty
    string; of another wallet, it leaves it alone.  [clearWallets] empties
    the list and sets [primaryWallet] to [null]. *)
Theorem primaryListed_preserved (a : Action) (s : WalletState)
    (Hinv : primaryListed s)
    (Hset : ∀ addr, a = SetPrimaryWallet addr → addr ∈ addresses s) :
  primaryListed (dispatch a s) ∧
  (∀ addr,
     primaryWallet (removeWallet addr s) =
       if bool_decide (primaryWallet s = Some addr)
       then match wallets (removeWallet addr s) with
            | [] => None
            | w :: _ => if bool_decide (address w = "") then None
                        else Some (address w)
            end
       else primaryWallet s) ∧
  (∀ addr, wallets (removeWallet addr s) =
             List.filter (fun w => bool_decide (address w ≠ addr)) (wallets s)) ∧
  wallets (clearWallets s) = [] ∧
  primaryWallet (clearWallets s) = None.
Proof.
  split; [|split; [|split; [|done]]].
  - destruct a; simpl; try exact Hinv.
    + by apply addWallet_listed.
    + by apply removeWallet_listed.
    + unfold primaryListed in *. rewrite updateWalletLabel_addresses.
      exact Hinv.
    + unfold primaryListed. simpl. by apply Hset.
    + exact I.
  - intros addr. unfold removeWallet. simpl.
    case_bool_decide; [|done].
    destruct (List.filter _ _) as [|w ?]; simpl; [done|].
    unfold Js.truthyStr. destruct (String.eqb_spec (address w) "") as [->|?].
    + done.
    + by rewrite bool_decide_eq_false_2.
  - intros addr. unfold removeWallet. simpl.
    apply List.filter_ext. intros w.
    destruct (String.eqb_spec (address w) addr); simpl;
      [by rewrite bool_decide_eq_false_2; [|intros ?]
      |by rewrite bool_decide_eq_true_2].
Qed.

Lemma primaryListed_preserved_witness :
  primaryListed (dispatch (RemoveWallet "A") twoWallets) ∧
  primaryWallet (removeWallet "A" twoWallets) = Some "B".
Proof.
  assert (Hinv : primaryListed twoWallets).
  { unfold primaryListed, addresses. simpl. left. }
  assert (Hset : ∀ addr, RemoveWallet "A" = SetPrimaryWallet addr →
                         addr ∈ addresses twoWallets) by (intros ? [=]).
  destruct (primaryListed_preserved (RemoveWallet "A") twoWallets Hinv Hset)
    as (H1 & H2 & _).
  split; [exact H1|]. rewrite H2. reflexivity.
Defined.

(** C9 as worded fails twice: [setPrimaryWallet] stores any address,
    listed or not; and [removeWallet] of the primary wallet yields [null],
    not the first remaining address, when that address is the empty
    string. *)
Lemma primaryListed_broken :
  (primaryListed initialState ∧
   ¬ primaryListed (dispatch (SetPrimaryWallet "A") initialState)) ∧
  (let s := addWallet "" None (addWallet "A" None initialState) in
   primaryWallet s = Some "A" ∧
   address <$> head (wallets (removeWallet "A" s)) = Some "" ∧
   primaryWallet (removeWallet "A" s) = None).
Proof.
  split; [split; [exact I|]|done].
  unfold primaryListed, addresses. simpl. by intros ?%elem_of_nil.
Qed.


Example addWallet_sample :
  addWallet "B" (Some "") (addWallet "A" (Some "main") (addWallet "A" None initialState))
  = {| wallets :=
         [ {| address := "A"; label := "Wallet 1"; color := "#14F195" |};
           {| address := "B"; label := "Wallet 2"; color := "#9945FF" |} ];
       primaryWallet := Some "A";
       isWarpComplete := false;
       hoveredTransaction := None;
       selectedTransaction := None;
       selectedTimeRange := None;
       currentView := timeline;
       sidebarCollapsed := false |}.
Proof. reflexivity. Qed.

Example removeWallet_sample :
  let s := removeWallet "A" twoWallets in
  List.map address (wallets s) = ["B"] ∧ primaryWallet s = Some "B".
Proof. split; reflexivity. Qed.

End StoreFacts.


(** ** Merging the histories *)

Section MergeFacts.
Import Types Timeline.

Lemma occurrences_app k l1 l2 :
  occurrences k (l1 ++ l2) = (occurrences k l1 + occurrences k l2)%nat.
Proof. unfold occurrences. by rewrite List.filter_app, length_app. Qed.

Lemma occurrences_snoc k l x :
  occurrences k (l ++ [x])
  = (occurrences k l + if String.eqb k x then 1 else 0)%nat.
Proof.
  rewrite occurrences_app. unfold occurrences. simpl.
  by destruct (String.eqb k x).
Qed.

Lemma occurrences_zero k l : k ∉ l → occurrences k l = 0%nat.
Proof.
  unfold occurrences. induction l as [|x l IH]; simpl; [done|].
  intros Hnin. apply not_elem_of_cons in Hnin as [Hne Hnin].
  destruct (String.eqb_spec k x); [done|]. by apply IH.
Qed.

Lemma occurrences_pos k l : k ∈ l → (0 < occurrences k l)%nat.
Proof.
  unfold occurrences. induction l as [|x l IH]; simpl.
  - by intros ?%elem_of_nil.
  - intros Hin. destruct (String.eqb_spec k x); simpl; [lia|].
    apply elem_of_cons in Hin as [?|?]; [done|]. by apply IH.
Qed.

Section JsMapFacts.
Context {V : Type}.
Implicit Types (m : JsMap V) (k : string).

Lemma mapGet_None m k : mapGet m k = None ↔ k ∉ List.map fst m.
Proof.
  unfold mapGet. induction m as [|[k' v] m IH]; simpl.
  - split; [intros _ ?%elem_of_nil; done|done].
  - destruct (String.eqb_spec k' k) as [->|Hne]; simpl.
    + split; [done|]. intros []. left.
    + rewrite IH, not_elem_of_cons. intuition congruence.
Qed.

Lemma mapGet_Some m k v : mapGet m k = Some v → k ∈ List.map fst m.
Proof.
  intros Hget. destruct (decide (k ∈ List.map fst m)) as [|Hn]; [done|].
  apply mapGet_None in Hn. congruence.
Qed.

Lemma mapSet_fresh m k v : k ∉ List.map fst m → mapSet m k v = m ++ [(k, v)].
Proof.
  induction m as [|[k' v'] m IH]; simpl; [done|].
  intros [Hne Hnin]%not_elem_of_cons.
  destruct (String.eqb_spec k' k); [congruence|]. by rewrite IH.
Qed.

Lemma mapUpdate_keys m k f : List.map fst (mapUpdate m k f) = List.map fst m.
Proof.
  induction m as [|[k' v'] m IH]; simpl; [done|].
  destruct (String.eqb k' k); simpl; [done|]. by rewrite IH.
Qed.

Lemma mapUpdate_Forall (P Q : string * V → Prop) m k f :
  NoDup (List.map fst m) →
  Forall P m →
  (∀ e, P e → fst e = k → Q (fst e, f (snd e))) →
  (∀ e, P e → fst e ≠ k → Q e) →
  Forall Q (mapUpdate m k f).
Proof.
  intros Hnd HP Hhit Hmiss.
  induction m as [|[k' v'] m IH]; simpl in *; [constructor|].
  apply NoDup_cons in Hnd as [Hk' Hnd].
  apply Forall_cons in HP as [Hhd HP].
  destruct (String.eqb_spec k' k) as [->|Hne].
  - constructor; [by apply (Hhit (k, v'))|].
    apply Forall_forall. intros e He. apply Hmiss.
    + by eapply Forall_forall in HP.
    + intros <-. apply Hk'. by apply (list_elem_of_fmap_2 fst).
  - constructor; [by apply Hmiss|]. by apply IH.
Qed.
End JsMapFacts.

Lemma Merged_empty : Merged [] [].
Proof. split; [constructor|]. split; [done|constructor]. Qed.

Lemma mergeOne_Merged wallet m sigs tx :
  Merged m sigs →
  Merged (mergeOne wallet m tx) (sigs ++ [Http.signature tx]).
Proof.
  intros (Hnd & Hkeys & Hall). unfold mergeOne.
  set (k := Http.signature tx).
  destruct (mapGet m k) as [existing|] eqn:Hget.
  - apply mapGet_Some in Hget.
    assert (Hk : (0 < occurrences k sigs)%nat)
      by (by apply occurrences_pos, Hkeys).
    split; [by rewrite mapUpdate_keys|]. split.
    + intros k'. rewrite mapUpdate_keys, Hkeys, elem_of_app, list_elem_of_singleton.
      split; [by left|]. intros [?| ->]; [done|]. by apply Hkeys.
    + eapply mapUpdate_Forall; [exact Hnd|exact Hall|..].
      * intros [k' v'] [Hsig Hself] Hk'. simpl in *. rewrite Hk' in *.
        split; [done|]. f_equal. symmetry. apply bool_decide_eq_true_2.
        rewrite occurrences_snoc, String.eqb_refl. lia.
      * intros [k' v'] [Hsig Hself] Hk'. simpl in *.
        split; [done|]. rewrite Hself. f_equal.
        rewrite occurrences_snoc.
        destruct (String.eqb_spec k' k); [done|].
        apply bool_decide_ext. lia.
  - apply mapGet_None in Hget.
    assert (Hk : occurrences k sigs = 0%nat)
      by (apply occurrences_zero; by rewrite <- Hkeys).
    rewrite mapSet_fresh by done. split; [|split].
    + rewrite List.map_app. simpl. apply NoDup_app. split; [done|].
      split; [|apply NoDup_singleton].
      intros k' Hin ->%list_elem_of_singleton. done.
    + intros k'. rewrite List.map_app, !elem_of_app, Hkeys. done.
    + apply Forall_app. split.
      * apply Forall_forall. intros [k' v'] Hin.
        destruct (proj1 (Forall_forall _ _) Hall _ Hin) as [Hsig Hself].
        simpl in *. split; [done|]. rewrite Hself. f_equal.
        rewrite occurrences_snoc.
        destruct (String.eqb_spec k' k) as [->|?];
          [|apply bool_decide_ext; lia].
        exfalso. apply Hget. by apply (list_elem_of_fmap_2 fst _ (k, v')).
      * constructor; [|constructor]. simpl. split; [done|].
        f_equal. symmetry. apply bool_decide_eq_false_2.
        rewrite occurrences_snoc, Hk, String.eqb_refl. lia.
Qed.

Lemma mergeInner_Merged wallet txs m sigs :
  Merged m sigs →
  Merged (fold_left (mergeOne wallet) txs m)
         (sigs ++ List.map Http.signature txs).
Proof.
  revert m sigs. induction txs as [|tx txs IH]; intros m sigs Hm; simpl.
  - by rewrite app_nil_r.
  - rewrite (assoc_L (++) sigs [_] _ : sigs ++ _ :: _ = _).
    apply IH. by apply mergeOne_Merged.
Qed.

Lemma mergeOuter_Merged results m sigs :
  Merged m sigs →
  Merged (fold_left
            (fun m '(wallet, transactions) =>
               fold_left (mergeOne wallet) transactions m) results m)
         (sigs ++ inputSignatures results).
Proof.
  revert m sigs.
  induction results as [|[wallet txs] results IH]; intros m sigs Hm; simpl.
  - by rewrite app_nil_r.
  - unfold inputSignatures. simpl. rewrite (assoc_L (++)).
    apply IH. by apply mergeInner_Merged.
Qed.

Lemma mergeLoop_Merged results :
  Merged (mergeLoop results) (inputSignatures results).
Proof. apply (mergeOuter_Merged results [] []), Merged_empty. Qed.

Lemma insertByTimestamp_perm x l : insertByTimestamp x l ≡ₚ x :: l.
Proof.
  induction l as [|y l IH]; simpl; [done|].
  destruct (Z.leb _ _); [done|]. rewrite IH. apply Permutation_swap.
Qed.

Lemma sortByTimestampDesc_perm l : sortByTimestampDesc l ≡ₚ l.
Proof.
  induction l as [|x l IH]; simpl; [done|].
  by rewrite insertByTimestamp_perm, IH.
Qed.

Lemma insertByTimestamp_sorted x l :
  StronglySorted newerFirst l →
  StronglySorted newerFirst (insertByTimestamp x l).
Proof.
  induction 1 as [|y l Hl IH Hy]; simpl.
  - repeat constructor.
  - destruct (Z.leb_spec (timestamp y - timestamp x) 0) as [Hle|Hgt].
    + constructor; [by constructor|].
      constructor; [unfold newerFirst; lia|].
      eapply Forall_impl; [exact Hy|]. unfold newerFirst. intros z ?. lia.
    + constructor; [exact IH|].
      rewrite insertByTimestamp_perm.
      constructor; [unfold newerFirst; lia|exact Hy].
Qed.

Lemma sortByTimestampDesc_sorted l :
  StronglySorted newerFirst (sortByTimestampDesc l).
Proof.
  induction l as [|x l IH]; simpl; [constructor|].
  by apply insertByTimestamp_sorted.
Qed.

Lemma mergeTransactions_perm results :
  mergeTransactions results ≡ₚ mapValues (mergeLoop results).
Proof. apply sortByTimestampDesc_perm. Qed.

Lemma mergeTransactions_signatures results :
  List.map signature (mergeTransactions results)
  ≡ₚ List.map fst (mergeLoop results).
Proof.
  destruct (mergeLoop_Merged results) as (_ & _ & Hall).
  assert (Hsig : List.map signature (mapValues (mergeLoop results))
                 = List.map fst (mergeLoop results)).
  { unfold mapValues. rewrite List.map_map.
    apply Forall_fmap_ext_1. eapply Forall_impl; [exact Hall|].
    by intros e [? _]. }
  rewrite <- Hsig.
  apply (fmap_Permutation signature), mergeTransactions_perm.
Qed.

Lemma mergeTransactions_NoDup results :
  NoDup (List.map signature (mergeTransactions results)).
Proof.
  rewrite mergeTransactions_signatures.
  by destruct (mergeLoop_Merged results) as (Hnd & _).
Qed.

(** C1.  The output of [mergeTransactions] holds every input signature
    exactly once, and an entry is flagged [isSelfTransfer = true] exactly
    when its signature stands at more than one position of the input
    lists; otherwise the flag is [false]. *)
Theorem mergeTransactions_dedup
    (results : list (Wallet * list Http.HeliusEnhancedTransaction)) :
  let out := mergeTransactions results in
  let sigs := inputSignatures results in
  NoDup (List.map signature out) ∧
  (∀ sig, sig ∈ List.map signature out ↔ sig ∈ sigs) ∧
  Forall (fun p =>
            isSelfTransfer p
            = Some (bool_decide (1 < occurrences (signature p) sigs)%nat))
         out.
Proof.
  intros out sigs.
  destruct (mergeLoop_Merged results) as (Hnd & Hkeys & Hall).
  fold sigs in Hkeys, Hall.
  split; [apply mergeTransactions_NoDup|]. split.
  - intros sig. unfold out. by rewrite mergeTransactions_signatures.
  - unfold out. rewrite mergeTransactions_perm. unfold mapValues.
    apply Forall_fmap. eapply Forall_impl; [exact Hall|].
    intros e [Hs Hself]. simpl. by rewrite Hs.
Qed.

Example mergeTransactions_sample :
  List.map (fun p => (signature p, isSelfTransfer p, timestamp p))
    (mergeTransactions
       [ (sampleWallet "A", [sampleTx "s1" 10; sampleTx "s2" 30]);
         (sampleWallet "B", [sampleTx "s3" 20; sampleTx "s1" 10]) ])
  = [ ("s2", Some false, 30); ("s3", Some false, 20); ("s1", Some true, 10) ].
Proof. reflexivity. Qed.

End MergeFacts.


(** ** Computations: returning, throwing, leaving the log alone *)

Section EffFacts.
Import Js Eff.
Context {S : Type}.

Lemma bind_inr {A B} (m : M S A) (k : A → M S B) s a s1 :
  m s = (inr a, s1) → bind m k s = k a s1.
Proof. unfold bind. by intros ->. Qed.

Lemma bind_inl {A B} (m : M S A) (k : A → M S B) s e s1 :
  m s = (inl e, s1) → bind m k s = (inl e, s1).
Proof. unfold bind. by intros ->. Qed.

Lemma tryCatch_inr {A} (m : M S A) h s a s1 :
  m s = (inr a, s1) → tryCatch m h s = (inr a, s1).
Proof. unfold tryCatch. by intros ->. Qed.

Lemma tryCatch_inl {A} (m : M S A) h s e s1 :
  m s = (inl e, s1) → tryCatch m h s = h e s1.
Proof. unfold tryCatch. by intros ->. Qed.

Lemma Post_ret {A} (a : A) (P : A → Prop) : P a → Post (S := S) (ret a) P.
Proof. intros HP s a' s' [= <- _]. exact HP. Qed.

Lemma Post_throw {A} e (P : A → Prop) : Post (S := S) (throw e) P.
Proof. intros s a s' [=]. Qed.

Lemma Post_bind {A B} (m : M S A) (k : A → M S B) (P : B → Prop) :
  (∀ a, Post (k a) P) → Post (bind m k) P.
Proof.
  intros Hk s b s'. unfold bind.
  destruct (m s) as [[e|a] s1]; [done|]. apply Hk.
Qed.

Lemma Post_lift {A} (r : Thrown + A) (P : A → Prop) :
  (∀ a, r = inr a → P a) → Post (S := S) (lift r) P.
Proof. intros Hr s a s' [= -> _]. by apply Hr. Qed.

Lemma Total_ret {A} (a : A) (P : A → Prop) : P a → Total (S := S) (ret a) P.
Proof. intros HP s. by exists a, s. Qed.


Lemma Total_tryCatch {A} (m : M S A) h (P : A → Prop) :
  Post m P → (∀ e, Total (h e) P) → Total (tryCatch m h) P.
Proof.
  intros Hm Hh s. unfold tryCatch.
  destruct (m s) as [[e|a] s1] eqn:Hrun.
  - apply Hh.
  - exists a, s1. split; [done|]. by eapply Hm.
Qed.

Lemma Total_weaken {A} (m : M S A) (P Q : A → Prop) :
  Total m P → (∀ a, P a → Q a) → Total m Q.
Proof.
  intros Hm HPQ s. destruct (Hm s) as (a & s' & ? & ?).
  exists a, s'. auto.
Qed.

Lemma settle_run {A} (m : M S A) s :
  settle m s = (inr (m s).1, (m s).2).
Proof.
  unfold settle, tryCatch, bind, ret. by destruct (m s) as [[e|a] s1].
Qed.
End EffFacts.

Ltac post_steps :=
  repeat first
    [ apply Post_ret
    | apply Post_throw
    | apply Post_bind; intros ?
    | match goal with
      | |- Post (if ?b then _ else _) _ => destruct b
      | |- Post (match ?x with _ => _ end) _ => destruct x
      end ].

Section QuietFacts.
Import Js Eff Machine.
Context {W : Type}.

Lemma Quiet_ret {A} (a : A) : Quiet (W := W) (ret a).
Proof. by intros s. Qed.

Lemma Quiet_throw {A} e : Quiet (W := W) (throw (A := A) e).
Proof. by intros s. Qed.

Lemma Quiet_lift {A} (r : Thrown + A) : Quiet (W := W) (lift r).
Proof. by intros s. Qed.

Lemma Quiet_ext {A} (o : W → (Thrown + A) * W) : Quiet (ext o).
Proof. intros s. unfold ext. by destruct (o (world s)). Qed.

Lemma Quiet_bind {A B} (m : M (St W) A) (k : A → M (St W) B) :
  Quiet m → (∀ a, Quiet (k a)) → Quiet (bind m k).
Proof.
  intros Hm Hk s. unfold bind. specialize (Hm s).
  destruct (m s) as [[e|a] s1]; simpl in *; [done|].
  destruct (Hk a s1) as [-> ->]. done.
Qed.

Lemma Quiet_tryCatch {A} (m : M (St W) A) h :
  Quiet m → (∀ e, Quiet (h e)) → Quiet (tryCatch m h).
Proof.
  intros Hm Hh s. unfold tryCatch. specialize (Hm s).
  destruct (m s) as [[e|a] s1]; simpl in *; [|done].
  destruct (Hh e s1) as [-> ->]. done.
Qed.

Lemma Quiet_run {A} (m : M (St W) A) s r s' :
  Quiet m → m s = (r, s') → log s' = log s ∧ hook s' = hook s.
Proof. intros Hm Hrun. specialize (Hm s). by rewrite Hrun in Hm. Qed.
End QuietFacts.

Ltac quiet_steps :=
  repeat first
    [ apply Quiet_ret
    | apply Quiet_throw
    | apply Quiet_lift
    | apply Quiet_ext
    | apply Quiet_bind; [|intros ?]
    | apply Quiet_tryCatch; [|intros ?]
    | match goal with
      | |- Quiet (if ?b then _ else _) => destruct b
      | |- Quiet (match ?x with _ => _ end) => destruct x
      end ].

(** ** The server actions *)

Section ServerFacts.
Import Js Eff Machine Solana Http.
Context {W : Type} `{!Lib} `{!Connection W} `{!Fetch W}.

Lemma getRecentBlockhash_quiet : Quiet (Rpc.getRecentBlockhash (W := W)).
Proof. unfold Rpc.getRecentBlockhash. quiet_steps. Qed.

Lemma simulateTransaction_quiet s : Quiet (Rpc.simulateTransaction (W := W) s).
Proof. unfold Rpc.simulateTransaction. quiet_steps. Qed.

Lemma sendTransaction_quiet s : Quiet (Rpc.sendTransaction (W := W) s).
Proof. unfold Rpc.sendTransaction. quiet_steps. Qed.

Lemma getRecentBlockhash_total :
  Total (Rpc.getRecentBlockhash (W := W))
    (fun r => resultShape (bh_success r) (bh_error r) ∧
              (bh_success r = true → is_Some (bh_data r))).
Proof.
  unfold Rpc.getRecentBlockhash. apply Total_tryCatch.
  - post_steps. simpl. eauto.
  - intros e. apply Total_ret. simpl. split; [eauto|done].
Qed.

Lemma simulateTransaction_total s :
  Total (Rpc.simulateTransaction (W := W) s)
    (fun r => resultShape (sim_success r) (sim_error r)).
Proof.
  unfold Rpc.simulateTransaction. apply Total_tryCatch.
  - post_steps; simpl; eauto.
  - intros e. apply Total_ret. simpl. eauto.
Qed.

Lemma sendTransaction_total s :
  Total (Rpc.sendTransaction (W := W) s)
    (fun r => resultShape (send_success r) (send_error r)).
Proof.
  unfold Rpc.sendTransaction. apply Total_tryCatch.
  - post_steps. done.
  - intros e. apply Total_ret. simpl. eauto.
Qed.



End ServerFacts.

Section ServerRuns.
Import Js Machine Demo.

End ServerRuns.


(** ** Promises settled one after the other *)

Section SettledFacts.
Import Js Eff.
Context {S A B : Type}.

Lemma mapM_settle (f : A → M S B) xs s :
  ∃ rs s',
    mapM (fun x => settle (f x)) xs s = (inr rs, s') ∧ Settled f s xs rs s'.
Proof.
  revert s. induction xs as [|x xs IH]; intros s; simpl.
  - exists [], s. split; [done|constructor].
  - destruct (f x s) as [r s1] eqn:Hx.
    destruct (IH s1) as (rs & s' & Hrun & Hrs).
    exists (r :: rs), s'. split; [|by econstructor].
    erewrite bind_inr; [|by rewrite settle_run, Hx].
    by erewrite bind_inr.
Qed.

Lemma promiseAll_run (f : A → M S B) xs s :
  ∃ rs s', promiseAll f xs s = (collect rs, s') ∧ Settled f s xs rs s'.
Proof.
  destruct (mapM_settle f xs s) as (rs & s' & Hrun & Hrs).
  exists rs, s'. split; [|done].
  unfold promiseAll. by erewrite bind_inr.
Qed.

Lemma Settled_length (f : A → M S B) s xs rs s' :
  Settled f s xs rs s' → length rs = length xs.
Proof. induction 1; simpl; congruence. Qed.

Lemma collect_fmap_inr (ys : list B) : collect (inr <$> ys) = inr ys.
Proof.
  induction ys as [|y ys IH]; [done|].
  rewrite fmap_cons. cbn [collect]. by rewrite IH.
Qed.

Lemma Settled_returns (f : A → M S B) s xs rs s' :
  Settled f s xs rs s' →
  (∀ x s, ∃ y s1, f x s = (inr y, s1)) →
  ∃ ys, rs = inr <$> ys.
Proof.
  intros Hrs Hf. induction Hrs as [|s x r s1 xs rs s' Hx _ [ys ->]].
  - by exists [].
  - destruct (Hf x s) as (y & ? & Hy). rewrite Hy in Hx.
    injection Hx as <- _. by exists (y :: ys).
Qed.
End SettledFacts.

(** ** The timeline *)

Section TimelineFacts.
Import Js Eff Machine Types Timeline.
Context {W : Type} `{!Solana.Lib} `{!Http.Fetch W}.

Lemma resolveSolDomain_quiet d : Quiet (WalletActions.resolveSolDomain (W := W) d).
Proof. unfold WalletActions.resolveSolDomain. quiet_steps. Qed.

Lemma ensurePubkey_quiet a : Quiet (WalletActions.ensurePubkey (W := W) a).
Proof.
  unfold WalletActions.ensurePubkey. quiet_steps.
Qed.

Lemma fetchParsedTransactions_log a before limit (s : St W) :
  log (WalletActions.fetchParsedTransactions a before limit s).2
  = log s ++ [EvGetTransactions a (optStrOrNull before) (default 100 limit)]
  ∧ hook (WalletActions.fetchParsedTransactions a before limit s).2 = hook s.
Proof.
  unfold WalletActions.fetchParsedTransactions, bind, emit, modify, ext.
  simpl. destruct (Http.fetch_transactions _ _ _ _) as [[e|response] w'];
    simpl; [done|].
  by destruct (negb _).
Qed.

Lemma fetchOne_run perWallet cursor wallet (s : St W) :
  ∃ txs s' evs,
    fetchOne perWallet cursor wallet s = (inr (wallet, txs), s') ∧
    log s' = log s ++ evs ∧
    fetchEvents perWallet cursor wallet evs.
Proof.
  unfold fetchOne, fetchWalletHistory.
  set (s1 := {| world := world s;
                log := log s ++ [EvFetchWalletHistory (address wallet)
                                   (Some perWallet) cursor];
                hook := hook s |}).
  assert (Hemit : emit (EvFetchWalletHistory (address wallet)
                          (Some perWallet) cursor) s = (inr tt, s1)) by done.
  destruct (WalletActions.ensurePubkey (address wallet) s1)
    as [[e|pubkey] s2] eqn:Hpk.
  - exists [], s2, [EvFetchWalletHistory (address wallet) (Some perWallet) cursor].
    destruct (Quiet_run _ _ _ _ (ensurePubkey_quiet _) Hpk) as [Hlog _].
    split; [|split; [by rewrite Hlog|]].
    + erewrite bind_inr; [done|]. erewrite bind_inr; [|exact Hemit].
      erewrite tryCatch_inl; [done|]. by erewrite bind_inl.
    + exists []. split; [done|]. split; [done|constructor].
  - destruct (Quiet_run _ _ _ _ (ensurePubkey_quiet _) Hpk) as [Hlog _].
    pose proof (fetchParsedTransactions_log pubkey cursor
                  (Some (default 100 (Some perWallet))) s2) as [Hlog3 _].
    destruct (WalletActions.fetchParsedTransactions pubkey cursor
                (Some (default 100 (Some perWallet))) s2)
      as [[e|txs] s3] eqn:Hfetch; simpl in Hlog3.
    + exists [], s3. eexists. split; [|split].
      * erewrite bind_inr; [done|]. erewrite bind_inr; [|exact Hemit].
        erewrite tryCatch_inl; [done|].
        erewrite bind_inr; [|exact Hpk]. exact Hfetch.
      * rewrite Hlog3, Hlog. simpl. by rewrite <- (assoc_L (++)).
      * eexists. split; [done|]. split; [done|].
        simpl. by repeat constructor.
    + exists txs, s3. eexists. split; [|split].
      * erewrite bind_inr; [done|]. erewrite bind_inr; [|exact Hemit].
        erewrite tryCatch_inr; [done|].
        erewrite bind_inr; [|exact Hpk]. exact Hfetch.
      * rewrite Hlog3, Hlog. simpl. by rewrite <- (assoc_L (++)).
      * eexists. split; [done|]. split; [done|].
        simpl. by repeat constructor.
Qed.

Lemma historyCalls_app evs1 evs2 :
  historyCalls (evs1 ++ evs2) = historyCalls evs1 ++ historyCalls evs2.
Proof. apply omap_app. Qed.

Lemma transactionRequests_app evs1 evs2 :
  transactionRequests (evs1 ++ evs2)
  = transactionRequests evs1 ++ transactionRequests evs2.
Proof. apply omap_app. Qed.

Lemma Settled_fetchOne perWallet cursor (s : St W) wallets rs s' :
  Settled (fetchOne perWallet cursor) s wallets rs s' →
  ∃ results evs,
    rs = inr <$> results ∧
    List.map fst results = wallets ∧
    log s' = log s ++ evs ∧
    historyCalls evs
    = List.map (fun w => (address w, Some perWallet, cursor)) wallets ∧
    Forall (fun q => q.1.2 = optStrOrNull cursor ∧ q.2 = perWallet)
           (transactionRequests evs).
Proof.
  induction 1 as [s|s wallet r s1 wallets rs s' Hx _ IH].
  - exists [], []. by rewrite app_nil_r.
  - destruct IH as (results & evs & -> & Hfst & Hlog & Hcalls & Hreqs).
    destruct (fetchOne_run perWallet cursor wallet s)
      as (txs & s1' & evs1 & Hrun & Hlog1 & reqs & -> & Hnone & Hreqs1).
    rewrite Hrun in Hx. injection Hx as <- <-.
    exists ((wallet, txs) :: results),
      ((EvFetchWalletHistory (address wallet) (Some perWallet) cursor :: reqs)
       ++ evs).
    split; [done|]. split; [simpl; by rewrite Hfst|].
    split; [by rewrite Hlog, Hlog1, (assoc_L (++))|]. split.
    + rewrite historyCalls_app. simpl. by rewrite Hnone, Hcalls.
    + rewrite transactionRequests_app. simpl. by apply Forall_app.
Qed.

Lemma slice0_nonneg {A} (l : list A) (n : Z) :
  (0 ≤ n)%Z → slice0 l n = take (Z.to_nat n) l.
Proof. unfold slice0. intros Hn. by destruct (Z.ltb_spec n 0); [lia|]. Qed.

(** C6, as the code has it.  For a limit that is not negative,
    [getTimeline] returns success with the merged, deduplicated list,
    newest first, cut to its first [limit] entries; [nextCursor] is the
    signature of the last entry returned, or [undefined] when there is none.
    The merged histories are those the per-wallet fetches returned, one
    fetch per wallet in order, each called with the caller's cursor as
    [before] and with [ceil(limit / wallets) + 10] as limit; every request
    that reaches the endpoint carries that cursor. *)
Theorem getTimeline_page (wallets : list Wallet) (limit : option Z)
    (cursor : option string) (s : St W) :
  let lim := default 50 limit in
  let perWallet := ceilDiv lim (Z.of_nat (length wallets)) + 10 in
  (0 ≤ lim)%Z →
  ∃ results evs s',
    let page := take (Z.to_nat lim) (mergeTransactions results) in
    getTimeline wallets limit cursor s
    = (inr {| success := true;
              data := Some page;
              nextCursor := signature <$> last page;
              error := None |}, s') ∧
    Settled (fetchOne perWallet cursor) s wallets (inr <$> results) s' ∧
    List.map fst results = wallets ∧
    StronglySorted newerFirst page ∧
    NoDup (List.map signature page) ∧
    (Z.of_nat (length page) ≤ lim)%Z ∧
    log s' = log s ++ evs ∧
    historyCalls evs
    = List.map (fun w => (address w, Some perWallet, cursor)) wallets ∧
    Forall (fun q => q.1.2 = optStrOrNull cursor ∧ q.2 = perWallet)
           (transactionRequests evs).
Proof.
  intros lim perWallet Hlim.
  destruct (promiseAll_run (fetchOne perWallet cursor) wallets s)
    as (rs & s' & Hrun & Hrs).
  destruct (Settled_fetchOne _ _ _ _ _ _ Hrs)
    as (results & evs & -> & Hfst & Hlog & Hcalls & Hreqs).
  rewrite collect_fmap_inr in Hrun.
  exists results, evs, s'. intros page.
  assert (Hpage : mergeTransactions results = page ++ drop (Z.to_nat lim) (mergeTransactions results))
    by (unfold page; by rewrite take_drop).
  split; [|split; [done|split; [done|split; [|split; [|split]]]]].
  - unfold getTimeline. fold lim.
    erewrite tryCatch_inr; [done|].
    erewrite bind_inr; [|exact Hrun].
    by rewrite slice0_nonneg.
  - eapply StronglySorted_app_1_l. rewrite <- Hpage.
    apply sortByTimestampDesc_sorted.
  - pose proof (mergeTransactions_NoDup results) as Hnd.
    rewrite Hpage, List.map_app in Hnd.
    by apply NoDup_app in Hnd as [? _].
  - unfold page. rewrite length_take. lia.
  - done.
Qed.
End TimelineFacts.

Section TimelineRuns.
Import Js Machine Types Timeline Demo.

Lemma getTimeline_page_witness :
  (0 ≤ 2)%Z ∧
  ∃ results,
    (getTimeline twoTracked (Some 2) (Some "shared") (start quiet)).1
    = inr {| success := true;
             data := Some (take 2 (mergeTransactions results));
             nextCursor :=
               signature <$> last (take 2 (mergeTransactions results));
             error := None |} ∧
    List.map fst results = twoTracked.
Proof.
  split; [lia|].
  destruct (getTimeline_page twoTracked (Some 2) (Some "shared")
              (start quiet) ltac:(simpl; lia))
    as (results & evs & s' & Hrun & _ & Hfst & _).
  exists results. split; [by rewrite Hrun|exact Hfst].
Defined.

(** C6 as worded fails for a negative limit: [slice(0, -1)] drops the last
    merged entry and keeps the rest, here two entries. *)
Lemma getTimeline_negative_limit :
  ∃ page,
    (getTimeline twoTracked (Some (-1)) None (start quiet)).1
    = inr {| success := true;
             data := Some page;
             nextCursor := Some "only-A";
             error := None |} ∧
    length page = 2%nat.
Proof. eexists. split; [reflexivity|reflexivity]. Qed.
End TimelineRuns.


(** ** Closing dust accounts *)

Section CloseFacts.
Import Js Eff Machine Solana CloseAccounts.
Context {W : Type} `{!Lib} `{!Connection W}.

Lemma token_programs_differ : TOKEN_2022_PROGRAM_ID ≠ TOKEN_PROGRAM_ID.
Proof. discriminate. Qed.

(** C3.  For a token whose mint is a valid key and whose associated token
    account can be derived, the instructions built are a burn of exactly
    the raw balance followed by the close when the balance is present and
    positive, and the close alone otherwise; both name the Token-2022
    program exactly when [tokenProgram] is the Token-2022 address, and the
    classic token program otherwise. *)
Theorem instructionsFor_spec (owner : PublicKey) (token : TokenToClose)
    (mintPubkey account : PublicKey) :
  let programId :=
    if bool_decide
         (tokenProgram token
          = Some "TokenzQdBNbLqP5VEhdkAS6EPFLC1PHnBqCXEpPxuEb")
    then TOKEN_2022_PROGRAM_ID else TOKEN_PROGRAM_ID in
  let close :=
    createCloseAccountInstruction account owner owner [] programId in
  PublicKey_new (mint token) = inr mintPubkey →
  getAssociatedTokenAddressSync mintPubkey owner false programId = inr account →
  instructionsFor owner token
  = inr {| ti_token := token;
           ti_instructions :=
             match balance token with
             | Some b =>
                 if (0 <? b)%Z
                 then [createBurnInstruction account mintPubkey owner b []
                         programId; close]
                 else [close]
             | None => [close]
             end |} ∧
  TOKEN_2022_PROGRAM_ID ≠ TOKEN_PROGRAM_ID.
Proof.
  intros programId close Hmint Hata. split; [|apply token_programs_differ].
  unfold instructionsFor, programIdOf, isToken2022, TOKEN_2022_ADDRESS.
  fold programId. rewrite Hmint, Hata.
  do 2 f_equal. unfold hasBalance.
  destruct (balance token) as [b|]; [|done]. simpl.
  destruct (Z.eqb_spec b 0) as [->|Hb]; [done|]. simpl.
  by destruct (0 <? b)%Z.
Qed.

(** C10.  Without a public key or without [signTransaction] the hook
    returns the "Wallet not connected" failure; with both and an empty
    token list it returns the "No accounts selected" failure.  In either
    case the state is the one it started from: nothing is added to the log
    of calls, and the hook's cells, [closedMints] and [reclaimedSOL] among
    them, are untouched. *)
Theorem closeAccounts_preconditions (wallet : WalletContextState W)
    (tokens : list TokenToClose) (s : St W) :
  publicKey wallet = None ∨ signTransaction wallet = None ∨ tokens = [] →
  closeAccounts wallet tokens s
  = (inr (match publicKey wallet, signTransaction wallet with
          | Some _, Some _ => noneSelected
          | _, _ => notConnected
          end), s).
Proof.
  unfold closeAccounts.
  destruct (publicKey wallet), (signTransaction wallet);
    intros [?|[?| ->]]; done.
Qed.

(** *** The calls the hook makes *)

Lemma callGetRecentBlockhash_run (s : St W) :
  ∃ r s',
    callGetRecentBlockhash s = (inr r, s') ∧
    log s' = log s ++ [EvGetRecentBlockhash r] ∧
    hook s' = hook s.
Proof.
  destruct (getRecentBlockhash_total s) as (r & s1 & Hrun & _).
  destruct (Quiet_run _ _ _ _ getRecentBlockhash_quiet Hrun) as [Hlog Hhook].
  exists r. eexists. split; [|split].
  - unfold callGetRecentBlockhash. erewrite bind_inr; [|exact Hrun]. done.
  - simpl. by rewrite Hlog.
  - done.
Qed.

Lemma callSimulate_run serialized (s : St W) :
  ∃ r s',
    callSimulate serialized s = (inr r, s') ∧
    log s' = log s ++ [EvSimulate serialized r] ∧
    hook s' = hook s.
Proof.
  destruct (simulateTransaction_total serialized s) as (r & s1 & Hrun & _).
  destruct (Quiet_run _ _ _ _ (simulateTransaction_quiet _) Hrun)
    as [Hlog Hhook].
  exists r. eexists. split; [|split].
  - unfold callSimulate. erewrite bind_inr; [|exact Hrun]. done.
  - simpl. by rewrite Hlog.
  - done.
Qed.

Lemma callSend_run serialized (s : St W) :
  ∃ r s',
    callSend serialized s = (inr r, s') ∧
    log s' = log s ++ [EvSend serialized r] ∧
    hook s' = hook s.
Proof.
  destruct (sendTransaction_total serialized s) as (r & s1 & Hrun & _).
  destruct (Quiet_run _ _ _ _ (sendTransaction_quiet _) Hrun)
    as [Hlog Hhook].
  exists r. eexists. split; [|split].
  - unfold callSend. erewrite bind_inr; [|exact Hrun]. done.
  - simpl. by rewrite Hlog.
  - done.
Qed.

Lemma callSign_run sign tx (s : St W) :
  ∃ r s',
    callSign sign tx s = (r, s') ∧
    log s' = log s ++ [EvSign tx r] ∧
    hook s' = hook s.
Proof.
  unfold callSign. rewrite (bind_inr _ _ _ _ _ (settle_run _ _)).
  destruct (Quiet_ext (sign tx) s) as [Hlog Hhook].
  destruct (ext (sign tx) s) as [r s1]. simpl in *.
  exists r. eexists. split; [|split].
  - erewrite bind_inr; [|done]. done.
  - simpl. by rewrite Hlog.
  - done.
Qed.
End CloseFacts.

Section CloseRuns.
Import Js Machine Solana CloseAccounts Demo.

Lemma instructionsFor_spec_witness :
  instructionsFor {| toBase58 := "owner" |} (dust "mintA" (Some 7))
  = inr {| ti_token := dust "mintA" (Some 7);
           ti_instructions :=
             [ createBurnInstruction {| toBase58 := "ata:mintA" |}
                 {| toBase58 := "mintA" |} {| toBase58 := "owner" |} 7 []
                 TOKEN_PROGRAM_ID;
               createCloseAccountInstruction {| toBase58 := "ata:mintA" |}
                 {| toBase58 := "owner" |} {| toBase58 := "owner" |} []
                 TOKEN_PROGRAM_ID ] |}.
Proof.
  apply (instructionsFor_spec {| toBase58 := "owner" |}
           (dust "mintA" (Some 7)) {| toBase58 := "mintA" |}
           {| toBase58 := "ata:mintA" |});
    reflexivity.
Defined.

Lemma closeAccounts_preconditions_witness :
  closeAccounts wallet [] (start quiet) = (inr noneSelected, start quiet).
Proof.
  apply (closeAccounts_preconditions wallet [] (start quiet)).
  right. right. reflexivity.
Defined.
End CloseRuns.


(** *** Batches *)

Section BatchFacts.
Import Js Eff Machine Solana CloseAccounts.

Lemma batchesFrom_step validTokens i :
  batchesFrom validTokens i
  = if decide (i < length validTokens)%nat
    then mkBatch (take MAX_ACCOUNTS_PER_TX (drop i validTokens))
         :: batchesFrom validTokens (i + MAX_ACCOUNTS_PER_TX)
    else [].
Proof.
  rewrite batchesFrom_equation_1. simpl.
  destruct (decide (i < length validTokens)%nat); [|done].
  simpl. unfold slice. do 3 f_equal. lia.
Qed.

(** The token groups behind the batches built from index [i] on *)
Lemma batchesFrom_chunks validTokens n i :
  (length validTokens - i ≤ n)%nat →
  ∃ chunks,
    batchesFrom validTokens i = List.map mkBatch chunks ∧
    List.concat chunks = drop i validTokens ∧
    Forall (fun c => (1 ≤ length c ≤ MAX_ACCOUNTS_PER_TX)%nat) chunks ∧
    Forall (fun c => length c = MAX_ACCOUNTS_PER_TX) (removelast chunks).
Proof.
  revert i. induction n as [|n IH]; intros i Hn;
    rewrite batchesFrom_step;
    destruct (decide (i < length validTokens)%nat) as [Hi|Hi];
    try lia.
  - exists []. rewrite drop_ge by lia. by repeat split.
  - destruct (IH (i + MAX_ACCOUNTS_PER_TX)%nat) as (chunks & Hb & Hc & Hlen & Hfull).
    { unfold MAX_ACCOUNTS_PER_TX. lia. }
    exists (take MAX_ACCOUNTS_PER_TX (drop i validTokens) :: chunks).
    split; [by rewrite Hb|]. split; [|split].
    + simpl. rewrite Hc, <- drop_drop. apply take_drop.
    + constructor; [|done]. rewrite length_take, length_drop.
      unfold MAX_ACCOUNTS_PER_TX. lia.
    + destruct chunks as [|c chunks]; [constructor|].
      change (removelast (?x :: c :: chunks))
        with (x :: removelast (c :: chunks)).
      constructor; [|done].
      rewrite length_take, length_drop.
      assert (i + MAX_ACCOUNTS_PER_TX < length validTokens)%nat; [|lia].
      destruct (decide (i + MAX_ACCOUNTS_PER_TX < length validTokens)%nat)
        as [|Hge]; [done|].
      rewrite batchesFrom_step in Hb.
      by destruct (decide _) in Hb.
  - exists []. rewrite drop_ge by lia. by repeat split.
Qed.

Lemma buildBatches_chunks validTokens :
  ∃ chunks,
    buildBatches validTokens = List.map mkBatch chunks ∧
    List.concat chunks = validTokens ∧
    Forall (fun c => (1 ≤ length c ≤ MAX_ACCOUNTS_PER_TX)%nat) chunks ∧
    Forall (fun c => length c = MAX_ACCOUNTS_PER_TX) (removelast chunks).
Proof.
  destruct (batchesFrom_chunks validTokens (length validTokens) 0)
    as (chunks & ? & ? & ? & ?); [lia|].
  by exists chunks.
Qed.
End BatchFacts.


(** *** The batch loop *)

Section LoopFacts.
Import Js Eff Machine Solana CloseAccounts.
Context {W : Type} `{!Lib} `{!Connection W}.

Lemma requireBlockhash_run r (s : St W) :
  requireBlockhash r s
  = (match blockhashOf r with
     | Some h => inr h
     | None => inl (ErrorObj (optStrOr (bh_error r) "Failed to get blockhash"))
     end, s).
Proof.
  unfold requireBlockhash, blockhashOf.
  by destruct (bh_success r), (bh_data r).
Qed.

Lemma setHook_run f (s : St W) :
  setHook f s
  = (inr tt, {| world := world s; log := log s; hook := f (hook s) |}).
Proof. done. Qed.

Lemma processBatch_run sign owner total i batch acc (s : St W) :
  ∃ evs oo s',
    BatchEvents owner batch evs oo ∧
    log s' = log s ++ evs ∧
    match oo with
    | Some o =>
        processBatch sign owner total i batch acc s
        = (inr (applyOutcome batch o acc), s')
    | None => ∃ e, processBatch sign owner total i batch acc s = (inl e, s')
    end.
Proof.
  unfold processBatch.
  rewrite (bind_inr _ _ _ _ _ (setHook_run _ s)).
  match goal with |- context [bind callGetRecentBlockhash _ ?s0] =>
    destruct (callGetRecentBlockhash_run s0) as (r & s1 & Hbh & Hlog1 & _)
  end.
  rewrite (bind_inr _ _ _ _ _ Hbh). simpl in Hlog1.
  pose proof (requireBlockhash_run r s1) as Hreq.
  destruct (blockhashOf r) as [hash|] eqn:Hhash.
  2:{ exists [EvGetRecentBlockhash r], None, s1.
      split; [by constructor|]. split; [done|].
      eexists. by rewrite (bind_inl _ _ _ _ _ Hreq). }
  rewrite (bind_inr _ _ _ _ _ Hreq).
  set (tx := assemble hash owner (batch_instructions batch)).
  destruct (callSign_run sign tx s1) as (rr & s2 & Hsign & Hlog2 & _).
  destruct rr as [e|signedTx].
  { exists [EvGetRecentBlockhash r; EvSign tx (inl e)],
           (Some (Failed (Some (messageOr e "Unknown error")))), s2.
    split; [by constructor|].
    split; [by rewrite Hlog2, Hlog1, <- (assoc_L (++))|].
    erewrite tryCatch_inl; [done|]. by rewrite (bind_inl _ _ _ _ _ Hsign). }
  destruct (serialize defaultConfig signedTx) as [e|serialized] eqn:Hser.
  { exists [EvGetRecentBlockhash r; EvSign tx (inr signedTx)],
           (Some (Failed (Some (messageOr e "Unknown error")))), s2.
    split; [by econstructor|].
    split; [by rewrite Hlog2, Hlog1, <- (assoc_L (++))|].
    erewrite tryCatch_inl; [done|].
    rewrite (bind_inr _ _ _ _ _ Hsign).
    erewrite bind_inl; [done|]. unfold lift. by rewrite Hser. }
  pose proof (setHook_run
                (setStatusMessage
                   ("Sending batch " +:+ pretty (i + 1)%nat +:+ "/"
                    +:+ pretty total +:+ "...")) s2) as Hmsg.
  match type of Hmsg with _ = (_, ?s3') =>
    destruct (callSend_run serialized s3') as (res & s4 & Hsend & Hlog4 & _)
  end.
  simpl in Hlog4.
  assert (Hlog : log s4 = log s ++
            [ EvGetRecentBlockhash r; EvSign tx (inr signedTx);
              EvSend serialized res ]).
  { rewrite Hlog4, Hlog2, Hlog1, <- !(assoc_L (++)). done. }
  assert (Hev : BatchEvents owner batch
            [ EvGetRecentBlockhash r; EvSign tx (inr signedTx);
              EvSend serialized res ]
            (Some (if send_success res then Sent (send_signature res)
                   else Failed (send_error res)))) by (by econstructor).
  destruct (send_success res) eqn:Hok.
  - eexists _, _, _. split; [exact Hev|].
    split; [|erewrite tryCatch_inr; [done|];
             rewrite (bind_inr _ _ _ _ _ Hsign);
             erewrite bind_inr; [|unfold lift; by rewrite Hser];
             rewrite (bind_inr _ _ _ _ _ Hmsg);
             rewrite (bind_inr _ _ _ _ _ Hsend), Hok;
             rewrite (bind_inr _ _ _ _ _ (setHook_run _ _));
             rewrite (bind_inr _ _ _ _ _ (setHook_run _ _));
             reflexivity].
    simpl. exact Hlog.
  - eexists _, _, _. split; [exact Hev|].
    split; [exact Hlog|].
    erewrite tryCatch_inr; [done|].
    rewrite (bind_inr _ _ _ _ _ Hsign).
    erewrite bind_inr; [|unfold lift; by rewrite Hser].
    rewrite (bind_inr _ _ _ _ _ Hmsg).
    rewrite (bind_inr _ _ _ _ _ Hsend), Hok. reflexivity.
Qed.

Lemma processBatches_run sign owner total i batches acc (s : St W) :
  ∃ evs os complete s',
    BatchTrace owner batches evs os complete ∧
    log s' = log s ++ evs ∧
    if complete
    then processBatches sign owner total i batches acc s
         = (inr (tally batches os acc), s')
    else ∃ e, processBatches sign owner total i batches acc s = (inl e, s').
Proof.
  revert i acc s. induction batches as [|batch rest IH]; intros i acc s.
  - exists [], [], true, s. split; [constructor|].
    split; [by rewrite app_nil_r|done].
  - destruct (processBatch_run sign owner total i batch acc s)
      as (evs & oo & s1 & Hevs & Hlog1 & Hrun).
    destruct oo as [o|].
    + destruct (IH (S i) (applyOutcome batch o acc) s1)
        as (evs' & os & complete & s' & Htrace & Hlog & Hrest).
      exists (evs ++ evs'), (o :: os), complete, s'.
      split; [by econstructor|].
      split; [by rewrite Hlog, Hlog1, (assoc_L (++))|].
      simpl. rewrite (bind_inr _ _ _ _ _ Hrun). exact Hrest.
    + destruct Hrun as [e Hrun].
      exists evs, [], false, s1. split; [by constructor|].
      split; [done|]. exists e. simpl. by rewrite (bind_inl _ _ _ _ _ Hrun).
Qed.
End LoopFacts.


(** *** The result after the batch loop *)

Section ResultFacts.
Import Js Eff Machine Solana CloseAccounts.
Context {W : Type} `{!Lib} `{!Connection W}.






Lemma submitBatches_run sign owner skipped validTokens (s : St W) :
  ∃ evs os complete s',
    BatchTrace owner (buildBatches validTokens) evs os complete ∧
    log (submitBatches sign owner skipped validTokens s).2 = log s ++ evs ∧
    if complete
    then let final := tally (buildBatches validTokens) os initialProgress in
         (submitBatches sign owner skipped validTokens s).1
         = inr (if (0 <? p_closedCount final)%nat
                then {| success := true;
                        signature := p_lastSignature final;
                        error := None;
                        closedCount := p_closedCount final;
                        skippedCount := Some skipped;
                        closedMints := Some (p_allClosedMints final) |}
                else {| success := false;
                        signature := None;
                        error := Some (optStrOr (p_lastError final)
                                         "Failed to close accounts");
                        closedCount := 0;
                        skippedCount := Some skipped;
                        closedMints := None |})
    else ∃ e, submitBatches sign owner skipped validTokens s = (inl e, s').
Proof.
  unfold submitBatches.
  rewrite (bind_inr _ _ _ _ _ (setHook_run _ s)).
  match goal with |- context [bind (processBatches _ _ ?t ?i ?b ?a) _ ?s0] =>
    destruct (processBatches_run sign owner t i b a s0)
      as (evs & os & complete & s' & Htrace & Hlog & Hrun)
  end.
  exists evs, os, complete, s'. split; [exact Htrace|].
  simpl in Hlog. destruct complete.
  - rewrite (bind_inr _ _ _ _ _ Hrun).
    rewrite (bind_inr _ _ _ _ _ (setHook_run _ _)).
    rewrite (bind_inr _ _ _ _ _ (setHook_run _ _)).
    destruct (0 <? p_closedCount
                     (tally (buildBatches validTokens) os initialProgress))%nat;
      simpl; (split; [exact Hlog|done]).
  - destruct Hrun as [e Hrun]. rewrite (bind_inl _ _ _ _ _ Hrun).
    split; [done|]. by exists e.
Qed.



End ResultFacts.


(** *** The simulation stage *)

Section SimulationFacts.
Import Js Eff Machine Solana CloseAccounts.
Context {W : Type} `{!Lib} `{!Connection W}.









Lemma buildBatches_nil : buildBatches [] = [].
Proof. unfold buildBatches. by rewrite batchesFrom_step. Qed.





End SimulationFacts.


(** *** Runs of the hook in the scripted world *)

Section CloseMoreRuns.
Import Js Machine Solana CloseAccounts Demo.





(** A run with one frozen account out of seven: the six others go out in
    two batches, of five and one. *)
Example closeAccounts_seven :
  let w := {| blockhashes := [];
              simulations := [inr noErr; inr frozenErr];
              sends := []; signs := [] |} in
  let run := closeAccounts wallet (dust "m0" None :: sixTokens) (start w) in
  run.1 = inr {| success := true;
                 signature := Some "5VERv8NMvzbJMEkV8xnrLkEaWRtSz9CosKDYjCJjBRnb";
                 error := None;
                 closedCount := 6;
                 skippedCount := Some 1%nat;
                 closedMints := Some ["m0"; "m2"; "m3"; "m4"; "m5"; "m6"] |} ∧
  List.map (fun e => match e with
                     | EvGetRecentBlockhash _ => "blockhash"
                     | EvSimulate _ _ => "simulate"
                     | EvSign _ _ => "sign"
                     | EvSend _ _ => "send"
                     | _ => "fetch"
                     end) (log run.2)
  = [ "blockhash"; "simulate"; "simulate"; "simulate"; "simulate";
      "simulate"; "simulate"; "simulate";
      "blockhash"; "sign"; "send"; "blockhash"; "sign"; "send" ].
Proof. split; reflexivity. Qed.
End CloseMoreRuns.

(** * Further properties *)

(** ** The wallet store, continued *)

Section StoreMoreFacts.
Import Types Store.

Lemma filter_address_id ws addr :
  addr ∉ List.map address ws →
  List.filter (fun w => negb (String.eqb (address w) addr)) ws = ws.
Proof.
  induction ws as [|w ws IH]; simpl; [done|].
  intros Hnot. apply not_elem_of_cons in Hnot as [Hne Hnot].
  destruct (String.eqb_spec (address w) addr) as [?|_]; [congruence|].
  simpl. by rewrite IH.
Qed.

Lemma filter_address_NoDup ws addr :
  NoDup (List.map address ws) →
  NoDup (List.map address
           (List.filter (fun w => negb (String.eqb (address w) addr)) ws)).
Proof.
  induction ws as [|w ws IH]; simpl; [done|].
  intros [Hnot Hnd]%NoDup_cons.
  destruct (negb _); simpl; [|by apply IH].
  apply NoDup_cons. split; [|by apply IH].
  intros Hin. apply Hnot.
  clear -Hin. induction ws as [|w' ws IH]; simpl in *; [done|].
  destruct (negb _); simpl in *.
  - apply elem_of_cons in Hin as [->|Hin]; [left|right; auto].
  - right. auto.
Qed.

Lemma filter_address_gone ws addr :
  addr ∉ List.map address
           (List.filter (fun w => negb (String.eqb (address w) addr)) ws).
Proof.
  induction ws as [|w ws IH]; simpl; [by intros ?%elem_of_nil|].
  destruct (String.eqb_spec (address w) addr) as [?|Hne]; simpl; [done|].
  apply not_elem_of_cons. split; [congruence|done].
Qed.

(** The addresses of the listed wallets stay pairwise distinct under
    every action of the store. *)
Theorem addresses_NoDup_preserved (a : Action) (s : WalletState) :
  NoDup (addresses s) → NoDup (addresses (dispatch a s)).
Proof.
  intros Hnd. destruct a; simpl; try exact Hnd.
  - unfold addWallet, addresses in *. rewrite hasAddress_spec.
    case_bool_decide as Hin; [done|]. simpl.
    rewrite List.map_app. apply NoDup_app. split; [done|].
    split; [|apply NoDup_singleton].
    intros x Hx ->%list_elem_of_singleton. done.
  - by apply filter_address_NoDup.
  - by rewrite updateWalletLabel_addresses.
  - apply NoDup_nil_2.
Qed.

Lemma addresses_NoDup_preserved_witness :
  NoDup (addresses (dispatch (AddWallet "C" None) twoWallets)).
Proof.
  apply (addresses_NoDup_preserved (AddWallet "C" None) twoWallets).
  unfold addresses. simpl.
  apply NoDup_cons. split; [|apply NoDup_singleton].
  by intros ?%list_elem_of_singleton.
Defined.

(** Adding a wallet whose address is not listed and removing it again
    gives back the list of wallets; it gives back the whole state when
    the primary wallet is a listed, non-empty address. *)
Theorem removeWallet_addWallet (s : WalletState) (addr : string)
    (lbl : option string) :
  addr ∉ addresses s →
  wallets (removeWallet addr (addWallet addr lbl s)) = wallets s ∧
  (∀ p, primaryWallet s = Some p → p ≠ "" → p ∈ addresses s →
        removeWallet addr (addWallet addr lbl s) = s).
Proof.
  intros Hnot.
  assert (Hw : wallets (removeWallet addr (addWallet addr lbl s))
               = wallets s).
  { unfold addWallet, removeWallet. rewrite hasAddress_spec.
    rewrite bool_decide_eq_false_2 by done. simpl.
    rewrite List.filter_app. simpl. rewrite String.eqb_refl. simpl.
    rewrite app_nil_r. by apply filter_address_id. }
  split; [exact Hw|].
  intros p Hp Hne Hin.
  assert (Hpa : p ≠ addr) by (intros ->; done).
  revert Hw. unfold addWallet, removeWallet, addresses in *.
  rewrite hasAddress_spec. rewrite bool_decide_eq_false_2 by done.
  simpl. intros ->. rewrite Hp. simpl.
  unfold Js.strOr, Js.truthyStr.
  destruct (String.eqb_spec p "") as [?|_]; [done|]. simpl.
  rewrite bool_decide_eq_false_2 by congruence.
  destruct s as [ws pw warp hov sel range view side]. simpl in *.
  destruct ws as [|w ws]; [by apply elem_of_nil in Hin|].
  simpl. by rewrite Hp.
Qed.

Lemma removeWallet_addWallet_witness :
  removeWallet "C" (addWallet "C" (Some "cold") twoWallets) = twoWallets.
Proof.
  assert (Hnot : "C" ∉ addresses twoWallets).
  { unfold addresses. simpl.
    intros [?|[?|?%elem_of_nil]%elem_of_cons]%elem_of_cons; done. }
  destruct (removeWallet_addWallet twoWallets "C" (Some "cold") Hnot)
    as [_ Hall].
  apply (Hall "A"); [reflexivity|done|].
  unfold addresses. simpl. left.
Defined.

(** [updateWalletLabel] changes labels only: the addresses and colours
    stay, every wallet with the given address gets the label, the other
    wallets are kept, an address that is not listed changes nothing,
    and of two updates of one address the last one counts. *)
Theorem updateWalletLabel_spec (s : WalletState) (addr lbl : string) :
  let s' := updateWalletLabel addr lbl s in
  List.map address (wallets s') = List.map address (wallets s) ∧
  List.map color (wallets s') = List.map color (wallets s) ∧
  (∀ w, w ∈ wallets s' → address w = addr → label w = lbl) ∧
  (∀ w, w ∈ wallets s → address w ≠ addr → w ∈ wallets s') ∧
  (addr ∉ addresses s → s' = s) ∧
  (∀ lbl', updateWalletLabel addr lbl' s' = updateWalletLabel addr lbl' s).
Proof.
  intros s'. subst s'. unfold updateWalletLabel. simpl.
  split; [|split; [|split; [|split; [|split]]]].
  - rewrite List.map_map. apply List.map_ext. intros w.
    by destruct (String.eqb (address w) addr).
  - rewrite List.map_map. apply List.map_ext. intros w.
    by destruct (String.eqb (address w) addr).
  - intros w Hin Hw.
    apply list_elem_of_In, List.in_map_iff in Hin as (w0 & <- & _).
    destruct (String.eqb_spec (address w0) addr) as [?|Hne]; [done|].
    done.
  - intros w Hin Hne. apply list_elem_of_In, List.in_map_iff.
    exists w. split; [|by apply list_elem_of_In].
    by destruct (String.eqb_spec (address w) addr).
  - intros Hnot. destruct s as [ws pw warp hov sel range view side].
    simpl in *. f_equal. unfold addresses in Hnot. simpl in Hnot.
    induction ws as [|w ws IH]; simpl; [done|].
    apply not_elem_of_cons in Hnot as [Hne Hnot].
    destruct (String.eqb_spec (address w) addr) as [?|_]; [congruence|].
    by rewrite IH.
  - intros lbl'. f_equal. rewrite List.map_map. apply List.map_ext.
    intros w. destruct (String.eqb_spec (address w) addr) as [?|Hne];
      simpl.
    + destruct (String.eqb_spec (address w) addr); done.
    + destruct (String.eqb_spec (address w) addr); done.
Qed.

(** Wallets added one after the other, with no label, to a store that
    lists none of them: the wallet at position [n + i] is the [i]-th
    address, labelled "Wallet <n+i+1>" and coloured with the palette
    entry [(n + i) mod 8], where [n] is the number of wallets before. *)
Theorem addWallet_sequence (addrs : list string) (s : WalletState) :
  NoDup addrs →
  (∀ a, a ∈ addrs → a ∉ addresses s) →
  let s' := fold_left (fun st a => addWallet a None st) addrs s in
  let n := length (wallets s) in
  length (wallets s') = (n + length addrs)%nat ∧
  take n (wallets s') = wallets s ∧
  ∀ i a, addrs !! i = Some a →
    ∃ c, WALLET_COLORS !! ((n + i) mod 8)%nat = Some c ∧
         wallets s' !! (n + i)%nat
         = Some {| address := a;
                   label := "Wallet " +:+ pretty (n + i + 1)%nat;
                   color := c |}.
Proof.
  revert s. induction addrs as [|a addrs IH]; intros s Hnd Hfresh; simpl.
  - split; [lia|]. split; [by rewrite firstn_all|]. intros i a [=].
  - apply NoDup_cons in Hnd as [Hna Hnd].
    assert (Ha : a ∉ addresses s) by (apply Hfresh; left).
    destruct (color_index_in_range (length (wallets s))) as [c Hc].
    assert (Hadd : wallets (addWallet a None s)
                   = wallets s ++
                     [ {| address := a;
                          label := "Wallet "
                                   +:+ pretty (length (wallets s) + 1)%nat;
                          color := c |} ]).
    { unfold addWallet. rewrite hasAddress_spec.
      rewrite bool_decide_eq_false_2 by done. by rewrite Hc. }
    destruct (IH (addWallet a None s) Hnd) as (Hlen & Htake & Hat).
    { intros b Hb. unfold addresses. rewrite Hadd, List.map_app. simpl.
      intros [Hin|Hin%list_elem_of_singleton]%elem_of_app.
      - eapply Hfresh; [right; exact Hb|exact Hin].
      - subst b. done. }
    rewrite Hadd in Hlen, Htake, Hat.
    rewrite length_app in Hlen, Htake, Hat. simpl in Hlen, Htake, Hat.
    split; [lia|]. split.
    + apply (f_equal (take (length (wallets s)))) in Htake.
      rewrite take_take, Nat.min_l in Htake by lia.
      rewrite Htake. by rewrite take_app_length.
    + intros [|i] b Hb; simpl in Hb.
      * injection Hb as <-. exists c. rewrite Nat.add_0_r.
        split; [exact Hc|].
        apply (f_equal (fun l => l !! length (wallets s))) in Htake.
        rewrite lookup_take_lt in Htake by lia.
        rewrite Htake. by rewrite list_lookup_middle.
      * destruct (Hat i b Hb) as (c' & Hc' & Hw).
        exists c'.
        replace (length (wallets s) + S i)%nat
          with (length (wallets s) + 1 + i)%nat by lia.
        split; [exact Hc'|]. rewrite Hw. do 3 f_equal. 
Qed.

Lemma addWallet_sequence_witness :
  wallets (addWallet "B" None (addWallet "A" None initialState))
    !! 1%nat
  = Some {| address := "B"; label := "Wallet 2"; color := "#9945FF" |}.
Proof.
  assert (Hnd : NoDup ["A"; "B"]).
  { apply NoDup_cons. split; [|apply NoDup_singleton].
    by intros ?%list_elem_of_singleton. }
  assert (Hfresh : ∀ a, a ∈ ["A"; "B"] → a ∉ addresses initialState).
  { intros a _. unfold addresses. simpl. by intros ?%elem_of_nil. }
  destruct (addWallet_sequence ["A"; "B"] initialState Hnd Hfresh)
    as (_ & _ & Hat).
  destruct (Hat 1%nat "B" eq_refl) as (c & Hc & Hw).
  simpl in Hc. injection Hc as <-. exact Hw.
Defined.

(** [removeWallet] leaves no wallet with the given address, keeps
    [isWarpComplete] only while a wallet remains, and changes nothing
    when the address is neither listed nor the primary wallet and some
    wallet is listed. *)
Theorem removeWallet_spec (s : WalletState) (addr : string) :
  let s' := removeWallet addr s in
  (addr ∉ addresses s') ∧
  isWarpComplete s'
  = (isWarpComplete s && bool_decide (wallets s' ≠ [])) ∧
  (addr ∉ addresses s → primaryWallet s ≠ Some addr → wallets s ≠ [] →
   s' = s).
Proof.
  intros s'. subst s'. unfold removeWallet, addresses. simpl.
  split; [apply filter_address_gone|]. split.
  - destruct (List.filter _ _); simpl; [by rewrite andb_false_r|].
    by rewrite andb_true_r.
  - intros Hnot Hp Hne. rewrite (filter_address_id _ _ Hnot).
    rewrite bool_decide_eq_false_2 by done.
    destruct s as [ws pw warp hov sel range view side]. simpl in *.
    destruct ws; done.
Qed.
End StoreMoreFacts.

(** ** Resolving addresses and domains *)

Section ResolveFacts.
Import Js Eff Machine Solana Http WalletActions WalletResolve.
Context {W : Type} `{!Lib} `{!Fetch W}.

Lemma prefix_append p s :
  String.prefix p s = true → ∃ q, s = p +:+ q.
Proof.
  revert s. induction p as [|a p IH]; intros s.
  - intros _. by exists s.
  - destruct s as [|b s]; simpl; [done|].
    destruct (Ascii.ascii_dec a b) as [->|?]; [|done].
    intros [q ->]%IH. by exists q.
Qed.

Lemma append_nil_l s : "" +:+ s = s.
Proof. done. Qed.

Lemma append_cons c s t : String c s +:+ t = String c (s +:+ t).
Proof. done. Qed.

Lemma substring_all s : String.substring 0 (String.length s) s = s.
Proof. induction s as [|a s IH]; simpl; [done|]. by rewrite IH. Qed.

(** [domain.replace('.sol', '')] takes out the first [.sol] of the
    domain, wherever it stands. *)
Lemma replaceFirst_sol pre post :
  (∀ p q, pre +:+ ".sol" +:+ post = p +:+ ".sol" +:+ q →
          (String.length pre ≤ String.length p)%nat) →
  replaceFirst ".sol" "" (pre +:+ ".sol" +:+ post) = pre +:+ post.
Proof.
  induction pre as [|c pre IH]; intros Hfirst.
  - rewrite !append_nil_l, !append_cons, append_nil_l. cbn.
    assert (String.prefix "" post = true) as -> by (by destruct post).
    by rewrite append_nil_l, Nat.sub_0_r, substring_all.
  - assert (Hno : String.prefix ".sol" (String c pre +:+ ".sol" +:+ post)
                  = false).
    { destruct (String.prefix _ _) eqn:Hp; [|done].
      apply prefix_append in Hp as [q Hq].
      specialize (Hfirst "" q Hq). simpl in Hfirst. lia. }
    rewrite (append_cons c pre) in Hno |- *.
    cbn [replaceFirst]. rewrite Hno. rewrite (append_cons c pre post).
    f_equal. apply IH. intros p q Hpq.
    assert (Heq : String c pre +:+ ".sol" +:+ post
                  = String c p +:+ ".sol" +:+ q).
    { rewrite (append_cons c pre), (append_cons c p). by rewrite Hpq. }
    specialize (Hfirst _ _ Heq). simpl in Hfirst. lia.
Qed.

Lemma resolveSolDomain_outcome (domain : string) (s : St W) :
  ∃ r s',
    resolveSolDomain domain s = (inr r, s') ∧
    (∀ a, r = Some a → a ≠ "") ∧
    log s' = log s ∧ hook s' = hook s.
Proof.
  assert (Htotal : Total (resolveSolDomain (W := W) domain)
                     (fun r => ∀ a, r = Some a → a ≠ "")).
  { unfold resolveSolDomain. apply Total_tryCatch.
    - apply Post_bind. intros response.
      destruct (negb (ok response)); [by apply Post_ret|].
      apply Post_bind. intros data.
      destruct (sns_result data) as [[| | |a| |]|];
        try (by apply Post_ret).
      destruct (truthyStr a) eqn:Ha; [|by apply Post_ret].
      apply Post_ret. intros ? [= <-] ->. done.
    - intros e. by apply Total_ret. }
  destruct (Htotal s) as (r & s' & Hrun & Hr).
  destruct (Quiet_run _ _ _ _ (resolveSolDomain_quiet _) Hrun).
  by exists r, s'.
Qed.


(** The resolver is asked for the domain with its first [.sol] taken
    out, which is the name before the suffix only when [.sol] does not
    occur earlier in the domain: when the resolver answers that name
    with an address, [resolveSolDomain] returns the address. *)
Theorem resolveSolDomain_name (pre post a : string) (s : St W)
    (response : Response SnsData) (w' : W) :
  (∀ p q, pre +:+ ".sol" +:+ post = p +:+ ".sol" +:+ q →
          (String.length pre ≤ String.length p)%nat) →
  fetch_sns (pre +:+ post) (world s) = (inr response, w') →
  ok response = true →
  json response = inr {| sns_result := Some (JStr a) |} →
  a ≠ "" →
  resolveSolDomain (pre +:+ ".sol" +:+ post) s
  = (inr (Some a), {| world := w'; log := log s; hook := hook s |}).
Proof.
  intros Hfirst Hfetch Hok Hjson Ha.
  unfold resolveSolDomain. rewrite (replaceFirst_sol _ _ Hfirst).
  unfold tryCatch, bind, ext, lift. rewrite Hfetch, Hok, Hjson. simpl.
  unfold truthyStr. by destruct (String.eqb_spec a "").
Qed.

Lemma ensurePubkey_outcome (address : string) (s : St W) :
  let trimmed := String_trim address in
  let run := ensurePubkey address s in
  log run.2 = log s ∧ hook run.2 = hook s ∧
  if endsWith (String_toLowerCase trimmed) ".sol"
  then match run.1 with
       | inr r => r ≠ ""
       | inl e => e = ErrorObj ("Could not resolve domain: " +:+ trimmed)
       end
  else run.2 = s ∧
       match run.1 with
       | inr r => r = trimmed ∧ isValidPublicKey trimmed = true
       | inl e => e = ErrorObj ("Invalid Solana address: " +:+ trimmed) ∧
                  isValidPublicKey trimmed = false
       end.
Proof.
  intros trimmed run.
  destruct (ensurePubkey_quiet address s) as [Hlog Hhook].
  split; [exact Hlog|]. split; [exact Hhook|].
  subst run. unfold ensurePubkey. fold trimmed.
  destruct (endsWith _ _).
  - destruct (resolveSolDomain_outcome (String_toLowerCase trimmed) s)
      as (r & s' & Hrun & Hr & _).
    rewrite (bind_inr _ _ _ _ _ Hrun).
    destruct r as [a|]; simpl; [|done].
    specialize (Hr a eq_refl). unfold truthyStr.
    by destruct (String.eqb_spec a "").
  - destruct (isValidPublicKey trimmed); simpl; done.
Qed.

(** What [ensurePubkey] returns or throws: for a [.sol] domain, an
    address that is not empty, or the error "Could not resolve domain";
    for any other input, the trimmed input itself when it is a valid
    public key, with no call made, or the error "Invalid Solana
    address". *)
Theorem ensurePubkey_spec (address : string) (s : St W) :
  let trimmed := String_trim address in
  let run := ensurePubkey address s in
  log run.2 = log s ∧ hook run.2 = hook s ∧
  if endsWith (String_toLowerCase trimmed) ".sol"
  then match run.1 with
       | inr r => r ≠ ""
       | inl e => e = ErrorObj ("Could not resolve domain: " +:+ trimmed)
       end
  else run.2 = s ∧
       match run.1 with
       | inr r => r = trimmed ∧ isValidPublicKey trimmed = true
       | inl e => e = ErrorObj ("Invalid Solana address: " +:+ trimmed) ∧
                  isValidPublicKey trimmed = false
       end.
Proof. exact (ensurePubkey_outcome address s). Qed.

Lemma accountExists_returns address (s : St W) :
  ∃ b s', accountExists address s = (inr b, s') ∧
          log s' = log s ∧ hook s' = hook s.
Proof.
  assert (Htotal : Total (accountExists (W := W) address) (fun _ => True)).
  { unfold accountExists. apply Total_tryCatch.
    - by intros ? ? ? _.
    - intros e. by apply Total_ret. }
  assert (Hq : Quiet (accountExists (W := W) address)).
  { unfold accountExists, rpcCall_getAccountInfo. quiet_steps. }
  destruct (Htotal s) as (b & s' & Hrun & _).
  destruct (Quiet_run _ _ _ _ Hq Hrun). by exists b, s'.
Qed.

Lemma resolveWallet_outcome (input : string) (s : St W) :
  let trimmed := String_trim input in
  ∃ r s',
    resolveWallet input s = (inr r, s') ∧
    log s' = log s ∧ hook s' = hook s ∧
    if endsWith (String_toLowerCase trimmed) ".sol"
    then (∃ a, a ≠ "" ∧
               r = {| wv_valid := true;
                      wv_address := Some a;
                      wv_type := Some domain;
                      wv_error := None |}) ∨
         r = {| wv_valid := false;
                wv_address := None;
                wv_type := None;
                wv_error := Some ("Could not resolve domain: "
                                  +:+ String_toLowerCase trimmed) |}
    else if isValidPublicKey trimmed
    then r = {| wv_valid := true;
                wv_address := Some trimmed;
                wv_type := Some pubkey;
                wv_error := None |}
    else s' = s ∧
         r = {| wv_valid := false;
                wv_address := None;
                wv_type := None;
                wv_error := Some "Invalid Solana address format" |}.
Proof.
  intros trimmed. unfold resolveWallet. fold trimmed.
  destruct (endsWith _ _).
  - destruct (resolveSolDomain_outcome (String_toLowerCase trimmed) s)
      as (r & s' & Hrun & Hr & Hlog & Hhook).
    rewrite (bind_inr _ _ _ _ _ Hrun).
    destruct r as [a|]; simpl.
    + specialize (Hr a eq_refl). unfold truthyStr.
      destruct (String.eqb_spec a ""); [done|]. simpl.
      eexists _, s'. split; [done|]. split; [done|]. split; [done|].
      left. by exists a.
    + eexists _, s'. split; [done|]. split; [done|]. split; [done|].
      by right.
  - destruct (isValidPublicKey trimmed); simpl.
    + destruct (accountExists_returns trimmed s)
        as (b & s' & Hrun & Hlog & Hhook).
      rewrite (bind_inr _ _ _ _ _ Hrun).
      eexists _, s'. split; [by destruct b|]. done.
    + eexists _, s. done.
Qed.

(** [resolveWallet] never throws.  A [.sol] domain gives the resolved
    address, of type [domain], or the error "Could not resolve domain";
    an input of valid format gives the trimmed input, of type [pubkey],
    whether the account exists on chain or not; any other input gives the
    error "Invalid Solana address format", with no call made. *)
Theorem resolveWallet_spec (input : string) (s : St W) :
  let trimmed := String_trim input in
  ∃ r s',
    resolveWallet input s = (inr r, s') ∧
    log s' = log s ∧ hook s' = hook s ∧
    if endsWith (String_toLowerCase trimmed) ".sol"
    then (∃ a, a ≠ "" ∧
               r = {| wv_valid := true;
                      wv_address := Some a;
                      wv_type := Some domain;
                      wv_error := None |}) ∨
         r = {| wv_valid := false;
                wv_address := None;
                wv_type := None;
                wv_error := Some ("Could not resolve domain: "
                                  +:+ String_toLowerCase trimmed) |}
    else if isValidPublicKey trimmed
    then r = {| wv_valid := true;
                wv_address := Some trimmed;
                wv_type := Some pubkey;
                wv_error := None |}
    else s' = s ∧
         r = {| wv_valid := false;
                wv_address := None;
                wv_type := None;
                wv_error := Some "Invalid Solana address format" |}.
Proof. exact (resolveWallet_outcome input s). Qed.

(** [resolveWallets] never rejects: it returns one validation per
    input, in order, each the one [resolveWallet] gives for that input
    in the state the earlier inputs have left. *)
Theorem resolveWallets_spec (inputs : list string) (s : St W) :
  ∃ rs s',
    resolveWallets inputs s = (inr rs, s') ∧
    length rs = length inputs ∧
    Settled resolveWallet s inputs (inr <$> rs) s' ∧
    log s' = log s ∧ hook s' = hook s.
Proof.
  unfold resolveWallets.
  destruct (promiseAll_run resolveWallet inputs s)
    as (rs & s' & Hrun & Hrs).
  destruct (Settled_returns _ _ _ _ _ Hrs) as [ys ->].
  { intros x s0. destruct (resolveWallet_outcome x s0) as (r & s1 & ? & _).
    by exists r, s1. }
  rewrite collect_fmap_inr in Hrun.
  exists ys, s'. split; [exact Hrun|].
  split; [by rewrite <- (Settled_length _ _ _ _ _ Hrs), length_fmap|].
  split; [exact Hrs|].
  clear Hrun. remember (inr <$> ys) as rs eqn:Heq. clear Heq.
  induction Hrs as [s|s x r s1 xs rs s' Hx _ [IH1 IH2]]; [done|].
  destruct (resolveWallet_outcome x s) as (r' & s1' & Hr & Hlog & Hhook & _).
  rewrite Hr in Hx. injection Hx as <- <-.
  split; congruence.
Qed.
End ResolveFacts.

(** ** The timeline, continued *)

Section MergeMoreFacts.
Import Types Timeline.

Lemma mergeOne_keys wallet m tx :
  List.map fst (mergeOne wallet m tx)
  = CloseAccounts.setAdd (List.map fst m) (Http.signature tx).
Proof.
  unfold mergeOne, CloseAccounts.setAdd.
  destruct (mapGet m (Http.signature tx)) as [existing|] eqn:Hget.
  - rewrite mapUpdate_keys.
    by rewrite bool_decide_eq_true_2 by (by eapply mapGet_Some).
  - apply mapGet_None in Hget.
    rewrite mapSet_fresh, List.map_app by done.
    by rewrite bool_decide_eq_false_2.
Qed.

Lemma mergeInner_keys wallet txs m :
  List.map fst (fold_left (mergeOne wallet) txs m)
  = fold_left CloseAccounts.setAdd (List.map Http.signature txs)
      (List.map fst m).
Proof.
  revert m. induction txs as [|tx txs IH]; intros m; simpl; [done|].
  by rewrite IH, mergeOne_keys.
Qed.

Lemma mergeOuter_keys results m :
  List.map fst
    (fold_left
       (fun m '(wallet, transactions) =>
          fold_left (mergeOne wallet) transactions m) results m)
  = fold_left CloseAccounts.setAdd (inputSignatures results)
      (List.map fst m).
Proof.
  revert m. induction results as [|[wallet txs] results IH]; intros m;
    simpl; [done|].
  unfold inputSignatures. simpl. rewrite fold_left_app.
  by rewrite IH, mergeInner_keys.
Qed.

Lemma mergeLoop_keys results :
  List.map fst (mergeLoop results) = firstSeen (inputSignatures results).
Proof. apply (mergeOuter_keys results []). Qed.

Lemma mergeLoop_signatures results :
  List.map signature (mapValues (mergeLoop results))
  = firstSeen (inputSignatures results).
Proof.
  rewrite <- mergeLoop_keys.
  destruct (mergeLoop_Merged results) as (_ & _ & Hall).
  unfold mapValues. rewrite List.map_map.
  apply Forall_fmap_ext_1. eapply Forall_impl; [exact Hall|].
  by intros e [? _].
Qed.

Lemma filter_insertByTimestamp t x l :
  List.filter (byTimestamp t) (insertByTimestamp x l)
  = if byTimestamp t x
    then x :: List.filter (byTimestamp t) l
    else List.filter (byTimestamp t) l.
Proof.
  unfold byTimestamp.
  induction l as [|y l IH]; simpl; [done|].
  destruct (Z.leb_spec (timestamp y - timestamp x) 0) as [Hle|Hgt]; simpl.
  - done.
  - rewrite IH.
    destruct (Z.eqb_spec (timestamp x) t) as [Hx|Hx]; [|done].
    destruct (Z.eqb_spec (timestamp y) t) as [Hy|Hy]; [lia|done].
Qed.

Lemma filter_sortByTimestampDesc t l :
  List.filter (byTimestamp t) (sortByTimestampDesc l)
  = List.filter (byTimestamp t) l.
Proof.
  induction l as [|x l IH]; simpl; [done|].
  rewrite filter_insertByTimestamp. fold (sortByTimestampDesc l).
  by rewrite IH.
Qed.

Lemma filter_fmap_sublist {A B} (f : A → B) (P : A → bool) (l : list A) :
  List.map f (List.filter P l) `sublist_of` List.map f l.
Proof.
  induction l as [|x l IH]; simpl; [done|].
  destruct (P x); simpl; [by apply sublist_skip|by apply sublist_cons].
Qed.

(** The sort of [mergeTransactions] is stable: transactions with one and
    the same timestamp come in the order in which their signatures first
    occur in the input. *)
Theorem mergeTransactions_stable
    (results : list (Wallet * list Http.HeliusEnhancedTransaction))
    (t : Z) :
  List.map signature
    (List.filter (byTimestamp t) (mergeTransactions results))
  `sublist_of` firstSeen (inputSignatures results).
Proof.
  unfold mergeTransactions. rewrite filter_sortByTimestampDesc.
  rewrite <- mergeLoop_signatures. apply filter_fmap_sublist.
Qed.

Lemma mergeOne_FromFirst wallet m seen tx :
  Merged m (List.map (fun q => Http.signature (snd q)) seen) →
  FromFirst m seen →
  FromFirst (mergeOne wallet m tx) (seen ++ [(wallet, tx)]).
Proof.
  intros (Hnd & Hkeys & _) Hall. unfold mergeOne, FromFirst in *.
  assert (Hold : ∀ e : string * ParsedTransaction,
            (∃ pre w tx0 post,
               seen = pre ++ (w, tx0) :: post ∧
               Forall (fun q => Http.signature (snd q) ≠ Http.signature tx0)
                      pre ∧
               fst e = Http.signature tx0 ∧
               setSelfTransfer (snd e) = setSelfTransfer (toParsed w tx0)) →
            ∃ pre w tx0 post,
               seen ++ [(wallet, tx)] = pre ++ (w, tx0) :: post ∧
               Forall (fun q => Http.signature (snd q) ≠ Http.signature tx0)
                      pre ∧
               fst e = Http.signature tx0 ∧
               setSelfTransfer (snd e) = setSelfTransfer (toParsed w tx0)).
  { intros e (pre & w & tx0 & post & -> & Hpre & Hk & Hv).
    exists pre, w, tx0, (post ++ [(wallet, tx)]).
    split; [by rewrite <- (assoc_L (++))|done]. }
  destruct (mapGet m (Http.signature tx)) as [existing|] eqn:Hget.
  - eapply mapUpdate_Forall; [exact Hnd|exact Hall|..].
    + intros e He _. destruct (Hold e He)
        as (pre & w & tx0 & post & ? & ? & ? & Hv).
      exists pre, w, tx0, post. simpl. split; [done|]. split; [done|].
      split; [done|]. by rewrite <- Hv.
    + intros e He _. by apply Hold.
  - apply mapGet_None in Hget. rewrite mapSet_fresh by done.
    apply Forall_app. split.
    + eapply Forall_impl; [exact Hall|]. exact Hold.
    + constructor; [|constructor].
      exists seen, wallet, tx, []. split; [done|]. split; [|done].
      apply Forall_forall. intros q Hq Heq. apply Hget, Hkeys.
      rewrite <- Heq. by apply (list_elem_of_fmap_2 (fun q => Http.signature (snd q))).
Qed.

Lemma mergeInner_FromFirst wallet txs m seen :
  Merged m (List.map (fun q => Http.signature (snd q)) seen) →
  FromFirst m seen →
  Merged (fold_left (mergeOne wallet) txs m)
    (List.map (fun q => Http.signature (snd q))
       (seen ++ List.map (pair wallet) txs)) ∧
  FromFirst (fold_left (mergeOne wallet) txs m)
    (seen ++ List.map (pair wallet) txs).
Proof.
  revert m seen. induction txs as [|tx txs IH]; intros m seen Hm Hf; simpl.
  - by rewrite app_nil_r.
  - rewrite (assoc_L (++) seen [_] _ : seen ++ _ :: _ = _).
    apply IH.
    + rewrite List.map_app. simpl. by apply mergeOne_Merged.
    + by apply mergeOne_FromFirst.
Qed.

Lemma mergeOuter_FromFirst results m seen :
  Merged m (List.map (fun q => Http.signature (snd q)) seen) →
  FromFirst m seen →
  FromFirst
    (fold_left
       (fun m '(wallet, transactions) =>
          fold_left (mergeOne wallet) transactions m) results m)
    (seen ++ flattenResults results).
Proof.
  revert m seen.
  induction results as [|[wallet txs] results IH]; intros m seen Hm Hf;
    simpl.
  - unfold flattenResults. simpl. by rewrite app_nil_r.
  - unfold flattenResults. simpl. rewrite (assoc_L (++)).
    destruct (mergeInner_FromFirst wallet txs m seen Hm Hf).
    by apply IH.
Qed.

(** Every transaction in the output of [mergeTransactions] was built
    from the first occurrence of its signature in the input: it carries
    the fields of that transaction and the label and colour of the wallet
    whose list held it; only [isSelfTransfer] can differ. *)
Theorem mergeTransactions_first_occurrence
    (results : list (Wallet * list Http.HeliusEnhancedTransaction)) :
  Forall (fun p =>
            ∃ pre w tx post,
              flattenResults results = pre ++ (w, tx) :: post ∧
              Forall (fun q => Http.signature (snd q) ≠ Http.signature tx)
                     pre ∧
              setSelfTransfer p = setSelfTransfer (toParsed w tx))
         (mergeTransactions results).
Proof.
  rewrite mergeTransactions_perm. unfold mapValues. apply Forall_fmap.
  pose proof (mergeOuter_FromFirst results [] [] Merged_empty
                (Forall_nil_2 _)) as Hall.
  eapply Forall_impl; [exact Hall|].
  intros e (pre & w & tx & post & Hflat & Hpre & _ & Hv).
  by exists pre, w, tx, post.
Qed.
End MergeMoreFacts.

Section TimelineMoreFacts.
Import Js Eff Machine Types Timeline TimelineMore UseTimeline.
Context {W : Type} `{!Solana.Lib} `{!Http.Fetch W} `{!FetchParsed W}.








(** [getTransactionDetails] never throws and logs nothing.  What it
    answers, by what the endpoint does: a request that fails gives the
    failure of that error; a reply that is not [ok] gives the failure
    "Failed to fetch transaction: <status text>"; a body that cannot be
    read gives the failure of that error; a body that is [null] or an
    empty array gives "Transaction not found"; otherwise the first
    transaction of the array is returned, converted field by field as
    [mergeTransactions] converts it, but without [isSelfTransfer],
    [walletLabel] and [walletColor]. *)
Theorem getTransactionDetails_cases (sig : string) (s : St W) :
  let failure m :=
    {| td_success := false; td_data := None; td_error := Some m |} in
  ∃ r s',
    getTransactionDetails sig s = (inr r, s') ∧
    log s' = log s ∧ hook s' = hook s ∧
    r = match (fetch_parse_transactions [sig] (world s)).1 with
        | inl e => failure (messageOr e "Failed to fetch transaction")
        | inr response =>
            if Http.ok response
            then match Http.json response with
                 | inl e =>
                     failure (messageOr e "Failed to fetch transaction")
                 | inr (Some (tx :: _)) =>
                     {| td_success := true;
                        td_data := Some (detailsOf tx);
                        td_error := None |}
                 | inr _ => failure "Transaction not found"
                 end
            else failure ("Failed to fetch transaction: "
                          +:+ Http.statusText response)
        end ∧
    ∀ wallet tx,
      toParsed wallet tx
      = {| signature := signature (detailsOf tx);
           type := type (detailsOf tx);
           source := source (detailsOf tx);
           description := description (detailsOf tx);
           fee := fee (detailsOf tx);
           feePayer := feePayer (detailsOf tx);
           slot := slot (detailsOf tx);
           timestamp := timestamp (detailsOf tx);
           blockTime := blockTime (detailsOf tx);
           nativeTransfers := nativeTransfers (detailsOf tx);
           tokenTransfers := tokenTransfers (detailsOf tx);
           events := events (detailsOf tx);
           isSelfTransfer := Some false;
           walletLabel := Some (label wallet);
           walletColor := Some (color wallet) |}.
Proof.
  intros failure. subst failure.
  unfold getTransactionDetails, tryCatch, bind, ext, lift.
  destruct (fetch_parse_transactions [sig] (world s))
    as [[e|response] w']; simpl.
  { by eexists _, _. }
  destruct (Http.ok response); simpl; [|by eexists _, _].
  destruct (Http.json response) as [e|[[|tx txs]|]]; simpl;
    by eexists _, _.
Qed.
End TimelineMoreFacts.

(** ** Sets of mints *)

Section SetFacts.
Import CloseAccounts.

Lemma setAdd_elem s x y : y ∈ setAdd s x ↔ y ∈ s ∨ y = x.
Proof.
  unfold setAdd. case_bool_decide as Hin.
  - split; [by left|]. intros [?| ->]; done.
  - by rewrite elem_of_app, list_elem_of_singleton.
Qed.

Lemma setAdd_NoDup s x : NoDup s → NoDup (setAdd s x).
Proof.
  unfold setAdd. intros Hnd. case_bool_decide as Hin; [done|].
  apply NoDup_app. split; [done|]. split; [|apply NoDup_singleton].
  by intros y Hy ->%list_elem_of_singleton.
Qed.


Lemma fold_setAdd_elem xs s y :
  y ∈ fold_left setAdd xs s ↔ y ∈ s ∨ y ∈ xs.
Proof.
  revert s. induction xs as [|x xs IH]; intros s; simpl.
  - rewrite elem_of_nil. tauto.
  - rewrite IH, setAdd_elem, elem_of_cons. tauto.
Qed.

Lemma fold_setAdd_NoDup xs s : NoDup s → NoDup (fold_left setAdd xs s).
Proof.
  revert s. induction xs as [|x xs IH]; intros s Hnd; simpl; [done|].
  by apply IH, setAdd_NoDup.
Qed.

End SetFacts.

(** ** Frozen token accounts *)

Section FrozenFacts.
Import Js Eff Machine Solana Types RpcFrozen.
Context {W : Type} `{!Lib} `{!TokenAccounts W}.

Lemma pushFrozen_omap frozenMints accounts :
  pushFrozen frozenMints accounts
  = frozenMints ++ omap frozenMint accounts.
Proof.
  unfold pushFrozen. revert frozenMints.
  induction accounts as [|a accounts IH]; intros acc; simpl.
  - by rewrite app_nil_r.
  - rewrite IH. destruct (frozenMint a); [|done].
    by rewrite <- (assoc_L (++)).
Qed.

Lemma getFrozenTokenMints_quiet ownerAddress :
  Quiet (getFrozenTokenMints (W := W) ownerAddress).
Proof.
  unfold getFrozenTokenMints, promiseAll2, settle. quiet_steps.
Qed.

Lemma getFrozenTokenMints_outcome (ownerAddress : string) (s : St W) :
  let failed e :=
    {| fm_success := false;
       fm_data := None;
       fm_error := Some (messageOr e "Failed to get frozen tokens") |} in
  ∃ r s',
    getFrozenTokenMints ownerAddress s = (inr r, s') ∧
    log s' = log s ∧ hook s' = hook s ∧
    match PublicKey_new ownerAddress with
    | inl e => s' = s ∧ r = failed e
    | inr owner =>
        let c1 :=
          conn_getParsedTokenAccountsByOwner owner TOKEN_PROGRAM_ID
            (world s) in
        let c2 :=
          conn_getParsedTokenAccountsByOwner owner TOKEN_2022_PROGRAM_ID
            c1.2 in
        world s' = c2.2 ∧
        match c1.1, c2.1 with
        | inr tokenAccounts, inr token2022Accounts =>
            r = {| fm_success := true;
                   fm_data := Some (omap frozenMint tokenAccounts
                                    ++ omap frozenMint token2022Accounts);
                   fm_error := None |}
        | inl e1, inl e2 => r = failed e1 ∨ r = failed e2
        | inl e, inr _ => r = failed e
        | inr _, inl e => r = failed e
        end
    end.
Proof.
  intros failed.
  pose proof (getFrozenTokenMints_quiet ownerAddress s) as [Hlog Hhook].
  destruct (getFrozenTokenMints ownerAddress s) as [r0 s0] eqn:Hrun.
  simpl in Hlog, Hhook. revert Hrun.
  unfold getFrozenTokenMints, promiseAll2, tryCatch, bind, settle, tryCatch,
    bind, lift, ext, ret, throw.
  destruct (PublicKey_new ownerAddress) as [e|owner]; simpl.
  { intros [= <- <-]. by eexists _, _. }
  destruct (conn_getParsedTokenAccountsByOwner owner TOKEN_PROGRAM_ID
              (world s)) as [[e1|a1] w1]; simpl;
    destruct (conn_getParsedTokenAccountsByOwner owner
                TOKEN_2022_PROGRAM_ID w1) as [[e2|a2] w2]; simpl;
    intros [= <- <-]; eexists _, _; (split; [done|]);
    (split; [done|]); (split; [done|]); (split; [done|]);
    rewrite ?pushFrozen_omap; auto.
Qed.

(** [getFrozenTokenMints] never throws.  An owner address that is not a
    public key gives a failure with no call made.  Otherwise both token
    programs are asked; when both answer, the data are the mints of the
    frozen accounts of the token program, in order, followed by those of
    the Token-2022 program; when a call fails, the result is a failure
    carrying the error of a failed call. *)
Theorem getFrozenTokenMints_spec (ownerAddress : string) (s : St W) :
  let failed e :=
    {| fm_success := false;
       fm_data := None;
       fm_error := Some (messageOr e "Failed to get frozen tokens") |} in
  ∃ r s',
    getFrozenTokenMints ownerAddress s = (inr r, s') ∧
    log s' = log s ∧ hook s' = hook s ∧
    match PublicKey_new ownerAddress with
    | inl e => s' = s ∧ r = failed e
    | inr owner =>
        let c1 :=
          conn_getParsedTokenAccountsByOwner owner TOKEN_PROGRAM_ID
            (world s) in
        let c2 :=
          conn_getParsedTokenAccountsByOwner owner TOKEN_2022_PROGRAM_ID
            c1.2 in
        world s' = c2.2 ∧
        match c1.1, c2.1 with
        | inr tokenAccounts, inr token2022Accounts =>
            r = {| fm_success := true;
                   fm_data := Some (omap frozenMint tokenAccounts
                                    ++ omap frozenMint token2022Accounts);
                   fm_error := None |}
        | inl e1, inl e2 => r = failed e1 ∨ r = failed e2
        | inl e, inr _ => r = failed e
        | inr _, inl e => r = failed e
        end
    end.
Proof. exact (getFrozenTokenMints_outcome ownerAddress s). Qed.

Lemma getFrozenTokenMints_returns ownerAddress (s : St W) :
  ∃ r s', getFrozenTokenMints ownerAddress s = (inr r, s').
Proof.
  destruct (getFrozenTokenMints_outcome ownerAddress s) as (r & s' & ? & _).
  by exists r, s'.
Qed.

Lemma combine_fold results acc m :
  m ∈ fold_left
        (fun allFrozen result =>
           match fm_success result, fm_data result with
           | true, Some data => fold_left CloseAccounts.setAdd data allFrozen
           | _, _ => allFrozen
           end) results acc
  ↔ m ∈ acc ∨
    ∃ r data, r ∈ results ∧ fm_success r = true ∧
              fm_data r = Some data ∧ m ∈ data.
Proof.
  revert acc. induction results as [|r results IH]; intros acc; simpl.
  - split; [by left|]. intros [?|(r & ? & ?%elem_of_nil & _)]; done.
  - rewrite IH. split.
    + intros [Hacc|(r' & data & Hin & ?)].
      * destruct (fm_success r) eqn:Hok, (fm_data r) as [data|] eqn:Hd;
          try (by left).
        apply fold_setAdd_elem in Hacc as [?|?]; [by left|].
        right. exists r, data. split; [left|done].
      * right. exists r', data. split; [by right|done].
    + intros [Hacc|(r' & data & Hin & Hok & Hd & Hm)].
      * left. destruct (fm_success r), (fm_data r); try done.
        apply fold_setAdd_elem. by left.
      * apply elem_of_cons in Hin as [->|Hin].
        -- left. rewrite Hok, Hd. apply fold_setAdd_elem. by right.
        -- right. by exists r', data.
Qed.

Lemma combine_NoDup results acc :
  NoDup acc →
  NoDup (fold_left
           (fun allFrozen result =>
              match fm_success result, fm_data result with
              | true, Some data =>
                  fold_left CloseAccounts.setAdd data allFrozen
              | _, _ => allFrozen
              end) results acc).
Proof.
  revert acc. induction results as [|r results IH]; intros acc Hnd;
    simpl; [done|].
  apply IH. destruct (fm_success r), (fm_data r); try done.
  by apply fold_setAdd_NoDup.
Qed.

(** The frozen mints of all wallets: the query never rejects, asks for
    each wallet in turn, and returns, without duplicates, exactly the
    mints reported by the requests that succeeded; a wallet whose request
    failed contributes nothing. *)
Theorem frozenMints_queryFn_spec (wallets : list Wallet) (s : St W) :
  ∃ results allFrozen s',
    UseFrozenMints.queryFn wallets s = (inr allFrozen, s') ∧
    Settled (fun w => getFrozenTokenMints (address w)) s wallets
      (inr <$> results) s' ∧
    length results = length wallets ∧
    NoDup allFrozen ∧
    ∀ m, m ∈ allFrozen ↔
         ∃ r data, r ∈ results ∧ fm_success r = true ∧
                   fm_data r = Some data ∧ m ∈ data.
Proof.
  destruct (promiseAll_run (fun w => getFrozenTokenMints (address w))
              wallets s) as (rs & s' & Hrun & Hrs).
  destruct (Settled_returns _ _ _ _ _ Hrs) as [results ->].
  { intros w s0. apply getFrozenTokenMints_returns. }
  rewrite collect_fmap_inr in Hrun.
  exists results, (UseFrozenMints.combine results), s'.
  split; [|split; [done|split; [|split]]].
  - unfold UseFrozenMints.queryFn. by rewrite (bind_inr _ _ _ _ _ Hrun).
  - by rewrite <- (Settled_length _ _ _ _ _ Hrs), length_fmap.
  - apply combine_NoDup, NoDup_nil_2.
  - intros m. unfold UseFrozenMints.combine. rewrite combine_fold.
    rewrite elem_of_nil. tauto.
Qed.
End FrozenFacts.

(** ** Simulating with a fresh blockhash *)

Section SimulateFacts.
Import Js Eff Machine Solana.
Context {W : Type} `{!Lib} `{!Connection W}.

End SimulateFacts.

(** ** The dust-account closer, for every world *)

Section HookFacts.
Import Js Eff Machine Solana CloseAccounts.
Context {W : Type} `{!Lib} `{!Connection W}.

Lemma Gained_nil h h' :
  Machine.closedMints h' = Machine.closedMints h →
  reclaimedSOL h' = reclaimedSOL h →
  Gained [] h h'.
Proof.
  intros Hm Hr. split; [done|]. rewrite Hr. simpl. ring.
Qed.

Lemma Gained_trans d1 d2 h h1 h2 :
  Gained d1 h h1 → Gained d2 h1 h2 → Gained (d1 ++ d2) h h2.
Proof.
  intros [Hm1 Hr1] [Hm2 Hr2]. split.
  - by rewrite fold_left_app, <- Hm1.
  - rewrite Hr2, Hr1, length_app, Nat2Z.inj_add, inject_Z_plus. ring.
Qed.

Lemma Gained_frame d h h1 h2 :
  Gained d h h1 →
  Machine.closedMints h2 = Machine.closedMints h1 →
  reclaimedSOL h2 = reclaimedSOL h1 →
  Gained d h h2.
Proof. intros [Hm Hr] Hm2 Hr2. split; [congruence|by rewrite Hr2]. Qed.

Lemma mapM_lift_run {S A B} (f : A → Thrown + B) l (s : S) :
  ∃ r, mapM (fun x => lift (f x)) l s = (r, s) ∧
       ∀ ys, r = inr ys → length ys = length l.
Proof.
  induction l as [|x l (r & Hrun & Hlen)]; simpl.
  - exists (inr []). split; [done|]. by intros ? [= <-].
  - unfold bind at 1. unfold lift at 1.
    destruct (f x) as [e|y]; [by exists (inl e)|].
    unfold bind at 1. rewrite Hrun.
    destruct r as [e|ys]; [by exists (inl e)|].
    exists (inr (y :: ys)). split; [done|].
    intros ? [= <-]. simpl. f_equal. by apply Hlen.
Qed.

Lemma collect_inr_inv {A} (rs : list (Thrown + A)) ys :
  collect rs = inr ys → rs = inr <$> ys.
Proof.
  revert ys. induction rs as [|[e|a] rs IH]; intros ys; simpl.
  - by intros [= <-].
  - done.
  - destruct (collect rs) as [e|vs]; [done|].
    intros [= <-]. by rewrite (IH vs).
Qed.

Lemma processBatch_hook sign owner total i batch acc (s : St W) :
  ∃ delta res s',
    processBatch sign owner total i batch acc s = (res, s') ∧
    Gained delta (hook s) (hook s') ∧
    isClosing (hook s') = isClosing (hook s) ∧
    match res with
    | inr acc' =>
        p_allClosedMints acc' = p_allClosedMints acc ++ delta ∧
        p_closedCount acc' = (p_closedCount acc + length delta)%nat
    | inl _ => True
    end.
Proof.
  unfold processBatch.
  rewrite (bind_inr _ _ _ _ _ (setHook_run _ s)).
  match goal with |- context [bind callGetRecentBlockhash _ ?s0] =>
    destruct (callGetRecentBlockhash_run s0) as (r & s1 & Hbh & _ & Hh1)
  end.
  rewrite (bind_inr _ _ _ _ _ Hbh). simpl in Hh1.
  pose proof (requireBlockhash_run r s1) as Hreq.
  destruct (blockhashOf r) as [hash|] eqn:Hhash.
  2:{ rewrite (bind_inl _ _ _ _ _ Hreq).
      eexists [], _, _. split; [done|].
      rewrite Hh1. split; [by apply Gained_nil|done]. }
  rewrite (bind_inr _ _ _ _ _ Hreq).
  set (tx := assemble hash owner (batch_instructions batch)).
  destruct (callSign_run sign tx s1) as (rr & s2 & Hsign & _ & Hh2).
  destruct rr as [e|signedTx].
  { erewrite tryCatch_inl; [|by rewrite (bind_inl _ _ _ _ _ Hsign)].
    eexists [], _, _. split; [done|]. rewrite Hh2, Hh1. simpl.
    split; [by apply Gained_nil|]. split; [done|].
    by rewrite app_nil_r, Nat.add_0_r. }
  destruct (serialize defaultConfig signedTx) as [e|serialized] eqn:Hser.
  { erewrite tryCatch_inl;
      [|rewrite (bind_inr _ _ _ _ _ Hsign);
        erewrite bind_inl; [done|]; unfold lift; by rewrite Hser].
    eexists [], _, _. split; [done|]. rewrite Hh2, Hh1. simpl.
    split; [by apply Gained_nil|]. split; [done|].
    by rewrite app_nil_r, Nat.add_0_r. }
  pose proof (setHook_run
                (setStatusMessage
                   ("Sending batch " +:+ pretty (i + 1)%nat +:+ "/"
                    +:+ pretty total +:+ "...")) s2) as Hmsg.
  match type of Hmsg with _ = (_, ?s3') =>
    destruct (callSend_run serialized s3') as (res & s4 & Hsend & _ & Hh4)
  end.
  simpl in Hh4.
  destruct (send_success res) eqn:Hok.
  - erewrite tryCatch_inr;
      [|rewrite (bind_inr _ _ _ _ _ Hsign);
        erewrite bind_inr; [|unfold lift; by rewrite Hser];
        rewrite (bind_inr _ _ _ _ _ Hmsg);
        rewrite (bind_inr _ _ _ _ _ Hsend), Hok;
        rewrite (bind_inr _ _ _ _ _ (setHook_run _ _));
        rewrite (bind_inr _ _ _ _ _ (setHook_run _ _));
        reflexivity].
    eexists (batch_mints batch), _, _. split; [done|]. simpl.
    rewrite Hh4, Hh2, Hh1. simpl. split; [|done].
    split; [done|]. simpl. reflexivity.
  - erewrite tryCatch_inr;
      [|rewrite (bind_inr _ _ _ _ _ Hsign);
        erewrite bind_inr; [|unfold lift; by rewrite Hser];
        rewrite (bind_inr _ _ _ _ _ Hmsg);
        rewrite (bind_inr _ _ _ _ _ Hsend), Hok; reflexivity].
    eexists [], _, _. split; [done|]. rewrite Hh4, Hh2, Hh1. simpl.
    split; [by apply Gained_nil|]. split; [done|].
    by rewrite app_nil_r, Nat.add_0_r.
Qed.

Lemma processBatches_hook sign owner total i batches acc (s : St W) :
  ∃ delta res s',
    processBatches sign owner total i batches acc s = (res, s') ∧
    Gained delta (hook s) (hook s') ∧
    isClosing (hook s') = isClosing (hook s) ∧
    match res with
    | inr acc' =>
        p_allClosedMints acc' = p_allClosedMints acc ++ delta ∧
        p_closedCount acc' = (p_closedCount acc + length delta)%nat
    | inl _ => True
    end.
Proof.
  revert i acc s. induction batches as [|batch rest IH]; intros i acc s.
  - exists [], (inr acc), s. split; [done|].
    split; [by apply Gained_nil|]. split; [done|].
    by rewrite app_nil_r, Nat.add_0_r.
  - destruct (processBatch_hook sign owner total i batch acc s)
      as (d1 & res1 & s1 & Hrun1 & Hg1 & Hc1 & Hres1).
    destruct res1 as [e|acc1].
    + exists d1, (inl e), s1. split; [|done].
      simpl. by rewrite (bind_inl _ _ _ _ _ Hrun1).
    + destruct (IH (S i) acc1 s1)
        as (d2 & res & s' & Hrun & Hg2 & Hc2 & Hres).
      exists (d1 ++ d2), res, s'. split; [|split; [|split]].
      * simpl. by rewrite (bind_inr _ _ _ _ _ Hrun1).
      * by eapply Gained_trans.
      * congruence.
      * destruct res as [e|acc']; [done|].
        destruct Hres1 as [Hm1 Hn1], Hres as [Hm Hn].
        rewrite Hm, Hm1, Hn, Hn1, length_app. split; [|lia].
        by rewrite (assoc_L (++)).
Qed.

Lemma submitBatches_hook sign owner skipped validTokens (s : St W) :
  ∃ mints res s',
    submitBatches sign owner skipped validTokens s = (res, s') ∧
    Gained mints (hook s) (hook s') ∧
    match res with
    | inr r =>
        isClosing (hook s') = false ∧ statusMessage (hook s') = "" ∧
        Accounted mints r
    | inl _ => True
    end.
Proof.
  unfold submitBatches.
  rewrite (bind_inr _ _ _ _ _ (setHook_run _ s)).
  match goal with |- context [bind (processBatches _ _ ?t ?i ?b ?a) _ ?s0] =>
    destruct (processBatches_hook sign owner t i b a s0)
      as (mints & res & s1 & Hrun & Hg & _ & Hres)
  end.
  simpl in Hg. destruct res as [e|final].
  - exists mints, (inl e), s1. split; [|done].
    by rewrite (bind_inl _ _ _ _ _ Hrun).
  - rewrite (bind_inr _ _ _ _ _ Hrun).
    rewrite (bind_inr _ _ _ _ _ (setHook_run _ _)).
    rewrite (bind_inr _ _ _ _ _ (setHook_run _ _)).
    destruct Hres as [Hm Hn]. simpl in Hm, Hn.
    destruct (Nat.ltb_spec 0 (p_closedCount final)) as [Hpos|Hzero].
    + eexists mints, _, _. split; [done|]. simpl.
      split; [by eapply Gained_frame|]. split; [done|]. split; [done|].
      unfold Accounted. simpl. rewrite Hm, Hn.
      split; [done|]. split; [done|]. split; [|done].
      intros ->. simpl in Hn. lia.
    + eexists mints, _, _. split; [done|]. simpl.
      split; [by eapply Gained_frame|]. split; [done|]. split; [done|].
      unfold Accounted. simpl. eauto.
Qed.
End HookFacts.

Section CloseAnyFacts.
Import Js Eff Machine Solana CloseAccounts.
Context {W : Type} `{!Lib} `{!Connection W}.

Lemma simulateOne_any hash owner ti (s : St W) :
  ∃ evs res s',
    simulateOne hash owner ti s = (res, s') ∧
    log s' = log s ++ evs ∧
    hook s' = hook s ∧
    match res with
    | inr _ => ∃ serialized r, evs = [EvSimulate serialized r]
    | inl _ => evs = []
    end.
Proof.
  unfold simulateOne. cbv zeta.
  destruct (serialize unsignedConfig
              (assemble hash owner (ti_instructions ti)))
    as [e|serialized] eqn:Hser.
  - exists [], (inl e), s. split; [|by rewrite app_nil_r].
    by erewrite bind_inl.
  - destruct (callSimulate_run serialized s) as (r & s' & Hrun & Hlog & Hh).
    eexists [EvSimulate serialized r], (inr _), s'.
    split; [|split; [done|split; [done|by eexists _, _]]].
    erewrite bind_inr; [|done].
    by rewrite (bind_inr _ _ _ _ _ Hrun).
Qed.

Lemma Settled_simulateOne_any hash owner (s : St W) tis rs s' :
  Settled (simulateOne hash owner) s tis rs s' →
  ∃ sims,
    log s' = log s ++ sims ∧
    hook s' = hook s ∧
    Forall (fun e => isSimulation e = true) sims ∧
    (length sims ≤ length tis)%nat ∧
    (∀ outs, rs = inr <$> outs → length sims = length tis).
Proof.
  induction 1 as [s|s ti r s1 tis rs s' Hx _ IH].
  - exists []. rewrite app_nil_r. by repeat split.
  - destruct IH as (sims & Hlog & Hh & Hsim & Hle & Hall).
    destruct (simulateOne_any hash owner ti s)
      as (evs & res & s1' & Hrun & Hlog1 & Hh1 & Hres).
    rewrite Hrun in Hx. injection Hx as <- <-.
    exists (evs ++ sims). split; [|split; [|split; [|split]]].
    + by rewrite Hlog, Hlog1, (assoc_L (++)).
    + congruence.
    + apply Forall_app. split; [|done].
      destruct res as [e|o]; [by subst evs|].
      destruct Hres as (? & ? & ->). by repeat constructor.
    + rewrite length_app. simpl.
      destruct res as [e|o]; [subst evs; simpl; lia|].
      destruct Hres as (? & ? & ->). simpl. lia.
    + intros [|o outs]; [done|]. rewrite fmap_cons. intros [= -> ->].
      destruct Hres as (? & ? & ->). rewrite length_app. simpl.
      f_equal. by apply (Hall outs).
Qed.

Lemma onError_run e (s : St W) :
  onError e s
  = (inr {| success := false;
            signature := None;
            error := Some (messageOr e "Unknown error");
            closedCount := 0;
            skippedCount := None;
            closedMints := None |},
     {| world := world s;
        log := log s;
        hook := setStatusMessage "" (setIsClosing false (hook s)) |}).
Proof. done. Qed.

Lemma closeAccountsBody_run sign owner tokens (s : St W) :
  ∃ r sims outcomes bevs os complete mints res s',
    closeAccountsBody sign owner tokens s = (res, s') ∧
    log s' = log s ++ EvGetRecentBlockhash r :: sims ++ bevs ∧
    Forall (fun e => isSimulation e = true) sims ∧
    (length sims ≤ length tokens)%nat ∧
    (bevs ≠ [] → length sims = length tokens) ∧
    (length outcomes ≤ length tokens)%nat ∧
    BatchTrace owner (buildBatches (List.filter valid outcomes))
      bevs os complete ∧
    Gained mints (hook s) (hook s') ∧
    match res with
    | inr result =>
        isClosing (hook s') = false ∧ statusMessage (hook s') = "" ∧
        Accounted mints result
    | inl _ => True
    end.
Proof.
  assert (Hnone : BatchTrace owner (buildBatches (List.filter valid []))
                    [] [] true).
  { simpl. rewrite buildBatches_nil. constructor. }
  unfold closeAccountsBody.
  destruct (callGetRecentBlockhash_run s) as (r & s1 & Hbh & Hlog1 & Hh1).
  rewrite (bind_inr _ _ _ _ _ Hbh).
  pose proof (requireBlockhash_run r s1) as Hreq.
  destruct (blockhashOf r) as [hash|] eqn:Hhash.
  2:{ rewrite (bind_inl _ _ _ _ _ Hreq).
      exists r, [], [], [], [], true, []. eexists _, _.
      split; [done|]. split; [done|]. split; [constructor|].
      split; [simpl; lia|]. split; [done|]. split; [simpl; lia|].
      split; [exact Hnone|]. split; [|done].
      apply Gained_nil; by rewrite Hh1. }
  rewrite (bind_inr _ _ _ _ _ Hreq).
  destruct (mapM_lift_run (instructionsFor owner) tokens s1)
    as (rb & Hbuild & Hlen).
  assert (Hbuild' : mapM (buildInstructions owner) tokens s1 = (rb, s1))
    by exact Hbuild.
  destruct rb as [e|tis].
  { rewrite (bind_inl _ _ _ _ _ Hbuild').
    exists r, [], [], [], [], true, []. eexists _, _.
    split; [done|]. split; [done|]. split; [constructor|].
    split; [simpl; lia|]. split; [done|]. split; [simpl; lia|].
    split; [exact Hnone|]. split; [|done].
    apply Gained_nil; by rewrite Hh1. }
  specialize (Hlen tis eq_refl).
  rewrite (bind_inr _ _ _ _ _ Hbuild').
  rewrite (bind_inr _ _ _ _ _ (setHook_run _ _)).
  match goal with |- context [bind (promiseAll _ _) _ ?s0] =>
    set (s2 := s0)
  end.
  destruct (promiseAll_run (simulateOne hash owner) tis s2)
    as (rs & s3 & Hall & Hrs).
  destruct (Settled_simulateOne_any _ _ _ _ _ _ Hrs)
    as (sims & Hlog3 & Hh3 & Hsims & Hle & Hfull).
  simpl in Hlog3, Hh3.
  assert (Hlog3' : log s3 = log s ++ EvGetRecentBlockhash r :: sims).
  { rewrite Hlog3, Hlog1, <- (assoc_L (++)). done. }
  destruct (collect rs) as [e|outcomes] eqn:Hcollect.
  { rewrite (bind_inl _ _ _ _ _ Hall).
    exists r, sims, [], [], [], true, []. eexists _, _.
    split; [done|]. split; [by rewrite app_nil_r|]. split; [done|].
    split; [lia|]. split; [done|]. split; [simpl; lia|].
    split; [exact Hnone|]. split; [|done].
    apply Gained_nil; by rewrite Hh3, Hh1. }
  apply collect_inr_inv in Hcollect. subst rs.
  specialize (Hfull outcomes eq_refl).
  assert (Hout : length outcomes = length tokens).
  { apply Settled_length in Hrs. rewrite length_fmap in Hrs. lia. }
  rewrite (bind_inr _ _ _ _ _ Hall).
  cbv zeta.
  destruct (Nat.eqb_spec (length (List.filter valid outcomes)) 0)
    as [Hvalid%nil_length_inv|Hvalid].
  - rewrite (bind_inr _ _ _ _ _ (setHook_run _ _)).
    rewrite (bind_inr _ _ _ _ _ (setHook_run _ _)).
    exists r, sims, outcomes, [], [], true, []. eexists _, _.
    split; [done|]. split; [by rewrite app_nil_r|]. split; [done|].
    split; [lia|]. split; [done|]. split; [lia|].
    split; [rewrite Hvalid, buildBatches_nil; constructor|].
    split; [apply Gained_nil; simpl; by rewrite Hh3, Hh1|].
    split; [done|]. split; [done|].
    unfold Accounted. simpl. eauto.
  - 
    set (skipped := (length outcomes
                     - length (List.filter valid outcomes))%nat).
    destruct (submitBatches_run sign owner skipped
                (List.filter valid outcomes) s3)
      as (bevs & os & complete & _ & Htrace & Hlog & _).
    destruct (submitBatches_hook sign owner skipped
                (List.filter valid outcomes) s3)
      as (mints & res & s' & Hrun & Hg & Hres).
    rewrite Hrun in Hlog. simpl in Hlog.
    exists r, sims, outcomes, bevs, os, complete, mints, res, s'.
    split; [done|].
    split; [rewrite Hlog, Hlog3', <- (assoc_L (++)); done|].
    split; [done|]. split; [lia|]. split; [intros _; lia|].
    split; [lia|]. split; [done|]. split; [|done].
    destruct Hg as [Hm Hq]. split; [by rewrite Hm, Hh3, Hh1|].
    by rewrite Hq, Hh3, Hh1.
Qed.

(** Every run of [closeAccounts]: what it logs, what the hook gains and
    what it returns. *)
Lemma closeAccounts_run (wallet : WalletContextState W)
    (tokens : list TokenToClose) (s : St W) :
  ∃ result s' evs mints,
    closeAccounts wallet tokens s = (inr result, s') ∧
    log s' = log s ++ evs ∧
    Gained mints (hook s) (hook s') ∧
    Accounted mints result ∧
    (evs = [] ∨
     ∃ owner r sims outcomes bevs os complete,
       publicKey wallet = Some owner ∧
       evs = EvGetRecentBlockhash r :: sims ++ bevs ∧
       Forall (fun e => isSimulation e = true) sims ∧
       (length sims ≤ length tokens)%nat ∧
       (bevs ≠ [] → length sims = length tokens) ∧
       (length outcomes ≤ length tokens)%nat ∧
       BatchTrace owner (buildBatches (List.filter valid outcomes))
         bevs os complete) ∧
    (is_Some (publicKey wallet) → is_Some (signTransaction wallet) →
     tokens ≠ [] →
     isClosing (hook s') = false ∧ statusMessage (hook s') = "").
Proof.
  unfold closeAccounts.
  destruct (publicKey wallet) as [owner|] eqn:Hpk.
  2:{ eexists _, s, [], []. split; [done|]. split; [by rewrite app_nil_r|].
      split; [by apply Gained_nil|]. split; [|split; [by left|]].
      - unfold Accounted. simpl. eauto.
      - by intros [? [=]]. }
  destruct (signTransaction wallet) as [sign|] eqn:Hsign.
  2:{ eexists _, s, [], []. split; [done|]. split; [by rewrite app_nil_r|].
      split; [by apply Gained_nil|]. split; [|split; [by left|]].
      - unfold Accounted. simpl. eauto.
      - by intros _ [? [=]]. }
  destruct tokens as [|token0 tokens0].
  { eexists _, s, [], []. split; [done|]. split; [by rewrite app_nil_r|].
    split; [by apply Gained_nil|]. split; [|split; [by left|done]].
    unfold Accounted. simpl. eauto. }
  set (tokens := token0 :: tokens0) in *.
  change ((length tokens =? 0)%nat) with false. cbv iota.
  rewrite (bind_inr _ _ _ _ _ (setHook_run _ s)).
  rewrite (bind_inr _ _ _ _ _ (setHook_run _ _)).
  match goal with |- context [tryCatch _ _ ?s0] => set (s0' := s0) end.
  destruct (closeAccountsBody_run sign owner tokens s0')
    as (r & sims & outcomes & bevs & os & complete & mints & res & s1
        & Hrun & Hlog & Hsims & Hle & Hfull & Hout & Htrace & Hg & Hres).
  simpl in Hlog, Hg.
  assert (Hshape : ∃ owner0 r0 sims0 outcomes0 bevs0 os0 complete0,
            Some owner = Some owner0 ∧
            EvGetRecentBlockhash r :: sims ++ bevs
            = EvGetRecentBlockhash r0 :: sims0 ++ bevs0 ∧
            Forall (fun e => isSimulation e = true) sims0 ∧
            (length sims0 ≤ length tokens)%nat ∧
            (bevs0 ≠ [] → length sims0 = length tokens) ∧
            (length outcomes0 ≤ length tokens)%nat ∧
            BatchTrace owner0
              (buildBatches (List.filter valid outcomes0))
              bevs0 os0 complete0).
  { by exists owner, r, sims, outcomes, bevs, os, complete. }
  assert (Hg' : ∀ h, Machine.closedMints h = Machine.closedMints (hook s1) →
                     reclaimedSOL h = reclaimedSOL (hook s1) →
                     Gained mints (hook s) h).
  { intros h Hm Hq. destruct Hg as [Hm1 Hq1].
    split; [by rewrite Hm|by rewrite Hq]. }
  destruct res as [e|result].
  - rewrite (tryCatch_inl _ _ _ _ _ Hrun), onError_run.
    eexists _, _, _, mints. split; [done|]. split; [exact Hlog|].
    split; [by apply Hg'|]. split; [|split; [by right|done]].
    unfold Accounted. simpl. eauto.
  - rewrite (tryCatch_inr _ _ _ _ _ Hrun).
    destruct Hres as (Hc & Hm & Hacc).
    eexists _, _, _, mints. split; [done|]. split; [exact Hlog|].
    split; [by apply Hg'|]. split; [done|]. split; [by right|done].
Qed.
End CloseAnyFacts.

Section CloseOrderFacts.
Import Js Eff Machine Solana CloseAccounts.
Context {W : Type} `{!Lib} `{!Connection W}.

Lemma count_app kind evs1 evs2 :
  count kind (evs1 ++ evs2) = (count kind evs1 + count kind evs2)%nat.
Proof. unfold count. by rewrite List.filter_app, length_app. Qed.

Lemma count_simulations sims :
  Forall (fun e => isSimulation e = true) sims →
  count isSimulation sims = length sims ∧
  count isSign sims = 0%nat ∧ count isSend sims = 0%nat ∧
  count isBlockhashFetch sims = 0%nat.
Proof.
  unfold count. induction 1 as [|e sims He _ (IH1 & IH2 & IH3 & IH4)];
    simpl; [done|].
  destruct e; try done. simpl. by rewrite IH1.
Qed.

Lemma count_fetch r :
  count isSimulation [EvGetRecentBlockhash r] = 0%nat ∧
  count isSign [EvGetRecentBlockhash r] = 0%nat ∧
  count isSend [EvGetRecentBlockhash r] = 0%nat ∧
  count isBlockhashFetch [EvGetRecentBlockhash r] = 1%nat.
Proof. done. Qed.

Lemma BatchEvents_counts owner batch evs oo :
  BatchEvents owner batch evs oo →
  count isSimulation evs = 0%nat ∧
  (count isSign evs ≤ 1)%nat ∧
  (count isSend evs ≤ count isSign evs)%nat ∧
  count isBlockhashFetch evs = 1%nat.
Proof. destruct 1; unfold count; simpl; repeat split; lia. Qed.

Lemma BatchTrace_counts owner batches evs os complete :
  BatchTrace owner batches evs os complete →
  count isSimulation evs = 0%nat ∧
  (count isSign evs ≤ length batches)%nat ∧
  (count isSend evs ≤ count isSign evs)%nat ∧
  (count isBlockhashFetch evs ≤ length batches)%nat.
Proof.
  induction 1 as [|batch rest evs Hev
                  |batch rest evs o evs' os c Hev _ (I1 & I2 & I3 & I4)].
  - unfold count. simpl. repeat split; lia.
  - apply BatchEvents_counts in Hev as (? & ? & ? & ?). simpl.
    repeat split; lia.
  - apply BatchEvents_counts in Hev as (? & ? & ? & ?).
    rewrite !count_app. simpl. repeat split; lia.
Qed.

Lemma chunks_bound {A} (chunks : list (list A)) :
  Forall (fun c => (1 ≤ length c ≤ 5)%nat) chunks →
  Forall (fun c => length c = 5%nat) (removelast chunks) →
  (5 * length chunks ≤ length (List.concat chunks) + 4)%nat.
Proof.
  induction chunks as [|c cs IH]; intros Hlen Hfull; simpl; [lia|].
  apply Forall_cons in Hlen as [Hc Hlen]. rewrite length_app.
  destruct cs as [|c' cs']; [simpl; lia|].
  change (removelast (c :: c' :: cs')) with (c :: removelast (c' :: cs'))
    in Hfull.
  apply Forall_cons in Hfull as [Hc5 Hfull].
  specialize (IH Hlen Hfull). simpl in *. lia.
Qed.

Lemma buildBatches_bound validTokens :
  (5 * length (buildBatches validTokens) ≤ length validTokens + 4)%nat.
Proof.
  destruct (buildBatches_chunks validTokens)
    as (chunks & -> & <- & Hlen & Hfull).
  rewrite length_map. by apply chunks_bound.
Qed.

Lemma filter_length_le {A} (P : A → bool) (l : list A) :
  (length (List.filter P l) ≤ length l)%nat.
Proof. induction l as [|x l IH]; simpl; [done|]. destruct (P x); simpl; lia. Qed.

Lemma BatchEvents_send owner batch evs oo evs1 serialized res evs2 :
  BatchEvents owner batch evs oo →
  evs = evs1 ++ EvSend serialized res :: evs2 →
  ∃ evs0 hash signedTx,
    evs1 = evs0 ++ [EvSign (assemble hash owner (batch_instructions batch))
                      (inr signedTx)] ∧
    serialize defaultConfig signedTx = inr serialized.
Proof.
  destruct 1 as [r Hr|r hash e Hr|r hash signedTx e Hr Hser
                |r hash signedTx ser0 res0 Hr Hser]; intros Heq.
  - destruct evs1 as [|? [|? ?]]; done.
  - destruct evs1 as [|? [|? [|? ?]]]; done.
  - destruct evs1 as [|? [|? [|? ?]]]; done.
  - destruct evs1 as [|e1 [|e2 [|e3 [|? ?]]]]; try done.
    injection Heq as <- <- <- <- <-.
    by exists [EvGetRecentBlockhash r], hash, signedTx.
Qed.

Lemma addAll_feePayer ixs t : feePayer (addAll ixs t) = feePayer t.
Proof.
  unfold addAll. revert t.
  induction ixs as [|ix ixs IH]; intros t; simpl; [done|]. by rewrite IH.
Qed.

Lemma BatchTrace_send owner batches evs os complete evs1 serialized res
    evs2 :
  BatchTrace owner batches evs os complete →
  evs = evs1 ++ EvSend serialized res :: evs2 →
  ∃ evs0 tx signedTx,
    evs1 = evs0 ++ [EvSign tx (inr signedTx)] ∧
    feePayer tx = Some owner ∧
    serialize defaultConfig signedTx = inr serialized.
Proof.
  intros Htrace. revert evs1.
  induction Htrace as [|batch rest evs Hev
                       |batch rest evs o evs' os c Hev _ IH];
    intros evs1 Heq.
  - by destruct evs1.
  - destruct (BatchEvents_send _ _ _ _ _ _ _ _ Hev Heq)
      as (evs0 & hash & signedTx & -> & Hser).
    exists evs0, (assemble hash owner (batch_instructions batch)), signedTx.
    split; [done|]. split; [|done].
    unfold assemble. by rewrite addAll_feePayer.
  - apply List.app_eq_app in Heq as [l [[-> Hl]|[-> Hl]]].
    + destruct l as [|e l].
      * simpl in Hl. destruct (IH [] (eq_sym Hl)) as (evs0 & ? & ? & H0 & _).
        by destruct evs0.
      * injection Hl as <- ->.
        destruct (BatchEvents_send _ _ _ _ _ _ _ _ Hev eq_refl)
          as (evs0 & hash & signedTx & Heq1 & Hser).
        exists evs0, (assemble hash owner (batch_instructions batch)),
          signedTx.
        split; [done|]. split; [|done].
        unfold assemble. by rewrite addAll_feePayer.
    + destruct (IH l Hl) as (evs0 & tx & signedTx & -> & Hp & Hser).
      exists (evs ++ evs0), tx, signedTx.
      split; [by rewrite (assoc_L (++))|done].
Qed.

(** [closeAccounts] never rejects: whatever the wallet, the tokens and
    the outside do, it returns a result.  A success carries no error and
    lists at least one closed mint, as many as [closedCount]; a failure
    carries an error, no signature, no mints and [closedCount = 0]. *)
Theorem closeAccounts_never_rejects (wallet : WalletContextState W)
    (tokens : list TokenToClose) (s : St W) :
  ∃ result s',
    closeAccounts wallet tokens s = (inr result, s') ∧
    if success result
    then error result = None ∧
         (0 < closedCount result)%nat ∧
         ∃ mints, closedMints result = Some mints ∧
                  length mints = closedCount result
    else is_Some (error result) ∧
         closedCount result = 0%nat ∧
         closedMints result = None ∧
         signature result = None.
Proof.
  destruct (closeAccounts_run wallet tokens s)
    as (result & s' & evs & mints & Hrun & _ & _ & Hacc & _).
  exists result, s'. split; [exact Hrun|].
  unfold Accounted in Hacc. destruct (success result).
  - destruct Hacc as (Hm & Hn & Hne & He).
    split; [done|]. split; [|by exists mints].
    rewrite Hn. destruct mints; [done|simpl; lia].
  - destruct Hacc as (? & ? & ? & ?). done.
Qed.


(** Once the wallet is connected and a token is given, every run ends
    with [isClosing = false] and an empty status message, whether it
    succeeds, fails or is cut short by an exception. *)
Theorem closeAccounts_resets_status (wallet : WalletContextState W)
    (tokens : list TokenToClose) (s : St W) :
  is_Some (publicKey wallet) →
  is_Some (signTransaction wallet) →
  tokens ≠ [] →
  isClosing (hook (closeAccounts wallet tokens s).2) = false ∧
  statusMessage (hook (closeAccounts wallet tokens s).2) = "".
Proof.
  intros Hpk Hsign Hne.
  destruct (closeAccounts_run wallet tokens s)
    as (result & s' & evs & mints & Hrun & _ & _ & _ & _ & Hflags).
  rewrite Hrun. by apply Hflags.
Qed.

(** The calls of a run come in two parts.  The first holds the first
    blockhash fetch and the simulations, and no signing or sending; the
    second holds the calls of the batch loop, and no simulation.  When
    the second part is not empty, the first holds one simulation for each
    token: nothing is signed or sent before every token has been
    simulated. *)
Theorem closeAccounts_simulates_first (wallet : WalletContextState W)
    (tokens : list TokenToClose) (s : St W) :
  ∃ before after,
    log (closeAccounts wallet tokens s).2 = log s ++ before ++ after ∧
    count isSign before = 0%nat ∧
    count isSend before = 0%nat ∧
    count isSimulation after = 0%nat ∧
    (count isSimulation before ≤ length tokens)%nat ∧
    (after = [] ∨ count isSimulation before = length tokens).
Proof.
  destruct (closeAccounts_run wallet tokens s)
    as (result & s' & evs & mints & Hrun & Hlog & _ & _ & Hshape & _).
  rewrite Hrun. simpl.
  destruct Hshape as [->|(owner & r & sims & outcomes & bevs & os
                         & complete & _ & -> & Hsims & Hle & Hfull & _
                         & Htrace)].
  - exists [], []. split; [done|]. unfold count. simpl.
    repeat split; try lia. by left.
  - exists (EvGetRecentBlockhash r :: sims), bevs.
    destruct (count_simulations sims Hsims) as (Hc1 & Hc2 & Hc3 & _).
    destruct (BatchTrace_counts _ _ _ _ _ Htrace) as (Hb1 & _).
    split; [by rewrite Hlog|].
    change (EvGetRecentBlockhash r :: sims)
      with ([EvGetRecentBlockhash r] ++ sims).
    destruct (count_fetch r) as (Hf1 & Hf2 & Hf3 & _).
    rewrite !count_app, Hc1, Hc2, Hc3, Hf1, Hf2, Hf3.
    repeat split; try lia.
    destruct bevs as [|b bevs]; [by left|]. right. by apply Hfull.
Qed.

(** Nothing is sent that the wallet has not signed: every send recorded
    in a run comes directly after a signing that the wallet accepted, of a
    transaction whose fee payer is the connected wallet, and what is sent
    is the serialization of the transaction the wallet handed back. *)
Theorem closeAccounts_sends_signed (wallet : WalletContextState W)
    (tokens : list TokenToClose) (s : St W) :
  ∃ evs,
    log (closeAccounts wallet tokens s).2 = log s ++ evs ∧
    ∀ evs1 serialized res evs2,
      evs = evs1 ++ EvSend serialized res :: evs2 →
      ∃ evs0 tx signedTx,
        evs1 = evs0 ++ [EvSign tx (inr signedTx)] ∧
        feePayer tx = publicKey wallet ∧
        serialize defaultConfig signedTx = inr serialized.
Proof.
  destruct (closeAccounts_run wallet tokens s)
    as (result & s' & evs & mints & Hrun & Hlog & _ & _ & Hshape & _).
  rewrite Hrun. simpl. exists evs. split; [exact Hlog|].
  intros evs1 serialized res evs2 Heq.
  destruct Hshape as [->|(owner & r & sims & outcomes & bevs & os
                         & complete & Hpk & -> & Hsims & _ & _ & _
                         & Htrace)].
  { by destruct evs1. }
  destruct evs1 as [|e1 evs1]; [done|].
  injection Heq as <- Heq.
  apply List.app_eq_app in Heq as [l [[-> Hl]|[-> Hl]]].
  - destruct l as [|e l].
    + simpl in Hl.
      destruct (BatchTrace_send _ _ _ _ _ [] _ _ _ Htrace (eq_sym Hl))
        as (evs0 & ? & ? & H0 & _).
      by destruct evs0.
    + injection Hl as <- ->.
      apply Forall_app in Hsims as [_ Hsims].
      by apply Forall_cons in Hsims as [? _].
  - destruct (BatchTrace_send _ _ _ _ _ _ _ _ _ Htrace Hl)
      as (evs0 & tx & signedTx & -> & Hp & Hser).
    exists (EvGetRecentBlockhash r :: sims ++ evs0), tx, signedTx.
    split; [simpl; by rewrite (assoc_L (++))|]. split; [|done].
    by rewrite Hpk.
Qed.

(** How much a run asks of the outside, for [n] tokens: at most [n]
    simulations, at most [ceil(n / 5)] requests to sign, no more sends
    than signings, and at most one blockhash fetch more than there are
    batches. *)
Theorem closeAccounts_call_bounds (wallet : WalletContextState W)
    (tokens : list TokenToClose) (s : St W) :
  ∃ evs,
    log (closeAccounts wallet tokens s).2 = log s ++ evs ∧
    (count isSimulation evs ≤ length tokens)%nat ∧
    (5 * count isSign evs ≤ length tokens + 4)%nat ∧
    (count isSend evs ≤ count isSign evs)%nat ∧
    (5 * count isBlockhashFetch evs ≤ length tokens + 9)%nat.
Proof.
  destruct (closeAccounts_run wallet tokens s)
    as (result & s' & evs & mints & Hrun & Hlog & _ & _ & Hshape & _).
  rewrite Hrun. simpl. exists evs. split; [exact Hlog|].
  destruct Hshape as [->|(owner & r & sims & outcomes & bevs & os
                         & complete & _ & -> & Hsims & Hle & _ & Hout
                         & Htrace)].
  { unfold count. simpl. repeat split; lia. }
  destruct (count_simulations sims Hsims) as (Hc1 & Hc2 & Hc3 & Hc4).
  destruct (BatchTrace_counts _ _ _ _ _ Htrace) as (Hb1 & Hb2 & Hb3 & Hb4).
  pose proof (buildBatches_bound (List.filter valid outcomes)) as Hbb.
  pose proof (filter_length_le valid outcomes) as Hfl.
  change (EvGetRecentBlockhash r :: sims ++ bevs)
    with ([EvGetRecentBlockhash r] ++ sims ++ bevs).
  destruct (count_fetch r) as (Hf1 & Hf2 & Hf3 & Hf4).
  rewrite !count_app, Hc1, Hc2, Hc3, Hc4, Hf1, Hf2, Hf3, Hf4.
  repeat split; lia.
Qed.
End CloseOrderFacts.

(** ** Assets and dust accounts *)

Section AssetsFacts.
Import Js Eff Machine Solana Http Das Assets.
Context {W : Type} `{!Lib} `{!Fetch W} `{!DasApi W}.

Lemma isNonFungible_negb item : isNonFungible item = negb (isFungible item).
Proof.
  unfold isNonFungible, isFungible. by rewrite !negb_orb.
Qed.

Lemma partition_fold items tokens nfts :
  fold_left
    (fun '(tokens, nfts) item =>
       if isFungible item
       then (tokens ++ [item], nfts)
       else (tokens, nfts ++ [item]))
    items (tokens, nfts)
  = (tokens ++ List.filter isFungible items,
     nfts ++ List.filter (fun item => negb (isFungible item)) items).
Proof.
  revert tokens nfts. induction items as [|item items IH];
    intros tokens nfts; simpl.
  - by rewrite !app_nil_r.
  - destruct (isFungible item); simpl; rewrite IH.
    + by rewrite <- (assoc_L (++)).
    + by rewrite <- (assoc_L (++)).
Qed.

Lemma insertByValue_perm x l : insertByValue x l ≡ₚ x :: l.
Proof.
  induction l as [|y l IH]; simpl; [done|].
  destruct (Qle_bool _ _); [done|]. rewrite IH. apply Permutation_swap.
Qed.

Lemma sortByValueDesc_perm l : sortByValueDesc l ≡ₚ l.
Proof.
  induction l as [|x l IH]; simpl; [done|].
  by rewrite insertByValue_perm, IH.
Qed.

Lemma insertByValue_sorted x l :
  StronglySorted (fun a b => (valueOf b <= valueOf a)%Q) l →
  StronglySorted (fun a b => (valueOf b <= valueOf a)%Q)
    (insertByValue x l).
Proof.
  induction 1 as [|y l Hl IH Hy]; simpl.
  - repeat constructor.
  - destruct (Qle_bool (valueOf y - valueOf x) 0) eqn:Hle.
    + apply Qle_bool_iff in Hle.
      assert (Hyx : (valueOf y <= valueOf x)%Q) by lra.
      constructor; [by constructor|].
      constructor; [done|].
      eapply Forall_impl; [exact Hy|]. simpl. intros z Hz. lra.
    + assert (Hxy : (valueOf x <= valueOf y)%Q).
      { destruct (Qlt_le_dec (valueOf y) (valueOf x)) as [Hlt|]; [|done].
        exfalso. assert (Hb : Qle_bool (valueOf y - valueOf x) 0 = true);
          [|congruence].
        apply Qle_bool_iff. lra. }
      constructor; [exact IH|].
      rewrite insertByValue_perm. constructor; [done|exact Hy].
Qed.

Lemma sortByValueDesc_sorted l :
  StronglySorted (fun a b => (valueOf b <= valueOf a)%Q)
    (sortByValueDesc l).
Proof.
  induction l as [|x l IH]; simpl; [constructor|].
  by apply insertByValue_sorted.
Qed.

Lemma categorizeAssets_facts (items : list DASAsset) :
  (categorizeAssets items).1 ≡ₚ List.filter isFungible items ∧
  StronglySorted (fun a b => (valueOf b <= valueOf a)%Q)
    (categorizeAssets items).1 ∧
  (categorizeAssets items).2
  = List.filter (fun item => negb (isFungible item)) items.
Proof.
  unfold categorizeAssets. rewrite partition_fold. simpl.
  split; [apply sortByValueDesc_perm|].
  split; [apply sortByValueDesc_sorted|done].
Qed.


Lemma dasCall_quiet params :
  Quiet (dasCall_getAssetsByOwner (W := W) params).
Proof. unfold dasCall_getAssetsByOwner. quiet_steps. Qed.

Lemma fetchNFTPages_quiet pubkey pagesLeft page allNFTs :
  Quiet (fetchNFTPages (W := W) pubkey pagesLeft page allNFTs).
Proof.
  revert page allNFTs.
  induction pagesLeft as [|n IH]; intros page allNFTs; simpl.
  - apply Quiet_ret.
  - apply Quiet_bind.
    + unfold settle. apply Quiet_tryCatch.
      * apply Quiet_bind; [apply dasCall_quiet|]. intros ?. apply Quiet_ret.
      * intros ?. apply Quiet_ret.
    + intros [e|response]; [apply Quiet_ret|].
      destruct (_ =? _)%nat; [apply IH|apply Quiet_ret].
Qed.

Lemma getAssets_quiet address : Quiet (getAssets (W := W) address).
Proof.
  unfold getAssets, fetchWalletAssets, RpcFrozen.promiseAll2, settle,
    fetchWalletTokens, fetchWalletNFTs.
  repeat first
    [ apply Quiet_ret
    | apply Quiet_throw
    | apply ensurePubkey_quiet
    | apply dasCall_quiet
    | apply fetchNFTPages_quiet
    | apply Quiet_bind; [|intros ?]
    | apply Quiet_tryCatch; [|intros ?]
    | match goal with
      | |- Quiet (if ?b then _ else _) => destruct b
      | |- Quiet (match ?x with _ => _ end) => destruct x
      end ].
Qed.

(** [getAssets] never throws and logs nothing.  A success carries the
    fungible items as tokens, the most valuable first, and the other
    items as NFTs; the native balance is the one fetched, or 0 lamports
    when there is none.  An address that is neither a [.sol] domain nor a
    valid public key gives the failure "Invalid Solana address", with no
    call made. *)
Theorem getAssets_spec (address : string) (s : St W) :
  ∃ r s',
    getAssets address s = (inr r, s') ∧
    log s' = log s ∧ hook s' = hook s ∧
    (if Assets.success r
     then Assets.error r = None ∧
          ∃ d, Assets.data r = Some d ∧
               Forall (fun item => isFungible item = true) (tokens d) ∧
               Forall (fun item => isFungible item = false) (nfts d) ∧
               StronglySorted (fun a b => (valueOf b <= valueOf a)%Q)
                 (tokens d)
     else Assets.data r = None ∧ is_Some (Assets.error r)) ∧
    (let trimmed := String_trim address in
     WalletActions.endsWith (String_toLowerCase trimmed) ".sol" = false →
     WalletActions.isValidPublicKey trimmed = false →
     s' = s ∧
     r = {| Assets.success := false;
            Assets.data := None;
            Assets.error :=
              Some ("Invalid Solana address: " +:+ trimmed) |}).
Proof.
  assert (Htotal : Total (getAssets (W := W) address)
            (fun r =>
               if Assets.success r
               then Assets.error r = None ∧
                    ∃ d, Assets.data r = Some d ∧
                         Forall (fun item => isFungible item = true)
                                (tokens d) ∧
                         Forall (fun item => isFungible item = false)
                                (nfts d) ∧
                         StronglySorted
                           (fun a b => (valueOf b <= valueOf a)%Q)
                           (tokens d)
               else Assets.data r = None ∧ is_Some (Assets.error r))).
  { unfold getAssets. apply Total_tryCatch.
    - apply Post_bind. intros response.
      destruct (categorizeAssets_facts (items response))
        as (Hperm & Hsorted & Hnfts).
      destruct (categorizeAssets (items response)) as [tokens nfts].
      simpl in *. apply Post_ret. simpl. split; [done|].
      eexists. split; [done|]. simpl. split; [|split; [|done]].
      + rewrite Hperm. apply Forall_forall.
        by intros item [_ ?]%list_elem_of_In%List.filter_In.
      + rewrite Hnfts. apply Forall_forall.
        intros item [_ ?]%list_elem_of_In%List.filter_In.
        by apply negb_true_iff.
    - intros e. apply Total_ret. simpl. eauto. }
  destruct (Htotal s) as (r & s' & Hrun & Hr).
  destruct (Quiet_run _ _ _ _ (getAssets_quiet _) Hrun) as [Hlog Hhook].
  exists r, s'. split; [exact Hrun|]. split; [exact Hlog|].
  split; [exact Hhook|]. split; [exact Hr|].
  intros trimmed Hsol Hvalid.
  pose proof (ensurePubkey_outcome address s) as Hspec. simpl in Hspec.
  fold trimmed in Hspec. rewrite Hsol in Hspec.
  destruct Hspec as (_ & _ & Hs & Hcase).
  destruct (WalletActions.ensurePubkey address s) as [[e|pk] s1] eqn:Hpk;
    simpl in Hs, Hcase; subst s1.
  2:{ destruct Hcase. congruence. }
  destruct Hcase as [-> _].
  set (e := ErrorObj ("Invalid Solana address: " +:+ trimmed)) in *.
  assert (Ht : fetchWalletTokens address s = (inl e, s)).
  { unfold fetchWalletTokens. by rewrite (bind_inl _ _ _ _ _ Hpk). }
  assert (Hn : fetchWalletNFTs address None s = (inl e, s)).
  { unfold fetchWalletNFTs. by rewrite (bind_inl _ _ _ _ _ Hpk). }
  assert (Ha : fetchWalletAssets address s = (inl e, s)).
  { unfold fetchWalletAssets, RpcFrozen.promiseAll2.
    erewrite bind_inl; [done|].
    rewrite (bind_inr _ _ _ _ _ (settle_run _ _)), Ht. simpl.
    rewrite (bind_inr _ _ _ _ _ (settle_run _ _)), Hn. done. }
  revert Hrun. unfold getAssets.
  erewrite tryCatch_inl; [|by rewrite (bind_inl _ _ _ _ _ Ha)].
  by intros [= <- <-].
Qed.
End AssetsFacts.

Section DustFacts.
Import Js Das PortfolioDust.

Lemma splitDust_fold (tokens : list DASAsset)
    (frozenMints : option (list string)) (closedMints : list string)
    (valuable dust : list DASAsset) :
  fold_left
    (fun '(valuable, dust) token =>
       let value := valueOf token in
       if negb (Qle_bool 1 value) then
         if negb (isFrozen frozenMints token)
            && negb (bool_decide (id token ∈ closedMints))
         then (valuable, dust ++ [token])
         else (valuable, dust)
       else (valuable ++ [token], dust))
    tokens (valuable, dust)
  = (valuable ++ List.filter (fun t => Qle_bool 1 (valueOf t)) tokens,
     dust ++ List.filter
               (fun t => negb (Qle_bool 1 (valueOf t))
                         && negb (isFrozen frozenMints t)
                         && negb (bool_decide (id t ∈ closedMints)))
               tokens).
Proof.
  revert valuable dust. induction tokens as [|t tokens IH];
    intros valuable dust; simpl.
  - by rewrite !app_nil_r.
  - destruct (Qle_bool 1 (valueOf t)); simpl.
    + by rewrite IH, <- (assoc_L (++)).
    + destruct (negb (isFrozen frozenMints t)
                && negb (bool_decide (id t ∈ closedMints))); simpl.
      * by rewrite IH, <- (assoc_L (++)).
      * by rewrite IH.
Qed.

(** What the portfolio view hands to [closeAccounts]: every token to
    close is one of the portfolio's tokens that the user selected, worth
    less than one dollar (or without a price), frozen neither by the RPC
    check nor by its ownership record, and not closed already in this
    session; its mint is the token's id and its balance the token's whole
    raw balance.  A token worth a dollar or more is never among them. *)
Theorem tokensToClose_spec (tokens : list DASAsset)
    (frozenMints : option (list string))
    (closedMints selectedDust : list string) :
  let '(valuable, dust) := splitDust tokens frozenMints closedMints in
  valuable = List.filter (fun t => Qle_bool 1 (valueOf t)) tokens ∧
  Forall
    (fun t =>
       ∃ token,
         token ∈ tokens ∧
         CloseAccounts.mint t = id token ∧
         CloseAccounts.tokenProgram t
         = token_program <$> token_info token ∧
         CloseAccounts.balance t = balance <$> token_info token ∧
         id token ∈ selectedDust ∧
         (id token ∉ closedMints) ∧
         (∀ mints, frozenMints = Some mints → id token ∉ mints) ∧
         (∀ o, ownership token = Some o → frozen o = false) ∧
         (valueOf token < 1)%Q ∧
         token ∉ valuable)
    (tokensToClose dust selectedDust).
Proof.
  unfold splitDust. rewrite splitDust_fold. simpl.
  split; [done|]. unfold tokensToClose.
  apply Forall_fmap, Forall_forall. intros token Hin.
  apply list_elem_of_In, List.filter_In in Hin as [Hin Hsel].
  apply List.filter_In in Hin as [Hin Hdust].
  apply bool_decide_eq_true_1 in Hsel.
  apply andb_true_iff in Hdust as [Hdust Hclosed].
  apply andb_true_iff in Hdust as [Hvalue Hfrozen].
  apply negb_true_iff in Hvalue, Hfrozen, Hclosed.
  apply bool_decide_eq_false_1 in Hclosed.
  unfold isFrozen in Hfrozen. apply orb_false_iff in Hfrozen as [Hf1 Hf2].
  exists token. simpl.
  split; [by apply list_elem_of_In|]. split; [done|]. split; [done|].
  split; [done|]. split; [done|]. split; [done|].
  split; [|split; [|split]].
  - intros mints ->. by apply bool_decide_eq_false_1 in Hf1.
  - intros o Ho. by rewrite Ho in Hf2.
  - destruct (Qlt_le_dec (valueOf token) 1) as [?|Hle]; [done|].
    apply Qle_bool_iff in Hle. congruence.
  - intros Hv%list_elem_of_In%List.filter_In. destruct Hv. congruence.
Qed.
End DustFacts.

(** ** Runs in the scripted world *)

Section MoreRuns.
Import Js Machine Solana Http Types CloseAccounts Demo DemoMore.

Lemma resolveSolDomain_name_witness :
  (WalletActions.resolveSolDomain (Fetch0 := resolver) "my.solar.sol"
     (start quiet)).1
  = inr (Some "owner of myar.sol").
Proof.
  refine (f_equal fst
            (resolveSolDomain_name (Fetch0 := resolver) "my" "ar.sol"
               "owner of myar.sol" (start quiet)
               {| ok := true; statusText := "OK";
                  json := inr {| sns_result :=
                                   Some (JStr "owner of myar.sol") |} |}
               quiet _ _ _ _ _)).
  - intros p q Heq. vm_compute in Heq.
    destruct p as [|c1 [|c2 p]]; simpl; [discriminate|discriminate|lia].
  - reflexivity.
  - reflexivity.
  - reflexivity.
  - discriminate.
Defined.

(** The details of a transaction, in the scripted world *)
Example getTransactionDetails_sample :
  (TimelineMore.getTransactionDetails "shared" (start quiet)).1
  = inr {| TimelineMore.td_success := true;
           TimelineMore.td_data :=
             TimelineMore.detailsOf <$> head (history "A");
           TimelineMore.td_error := None |}.
Proof. reflexivity. Qed.


Lemma closeAccounts_resets_status_witness :
  let w := {| blockhashes := [inl (ErrorObj "node unreachable")];
              simulations := []; sends := []; signs := [] |} in
  isClosing (hook (closeAccounts wallet sixTokens (start w)).2) = false ∧
  statusMessage (hook (closeAccounts wallet sixTokens (start w)).2) = "".
Proof.
  intros w.
  apply (closeAccounts_resets_status wallet sixTokens (start w)).
  - by eexists.
  - by eexists.
  - discriminate.
Defined.

(** A wallet with one frozen account in each token program *)
Example getFrozenTokenMints_sample :
  (RpcFrozen.getFrozenTokenMints
     "9xQeWvG816bUx9EPjHmaT23yvVM2ZWbrrpZb9PusVFin" (start quiet)).1
  = inr {| RpcFrozen.fm_success := true;
           RpcFrozen.fm_data := Some ["m2"; "m9"];
           RpcFrozen.fm_error := None |}.
Proof. reflexivity. Qed.

(** Of four tokens, one is worth more than a dollar, one is frozen and
    one was closed a moment ago: one dust account is left to close. *)
Example tokensToClose_sample :
  let tokens :=
    [ asset "m1" 6 (Some (12 # 10)) false;
      asset "m2" 6 (Some (1 # 100)) true;
      asset "m3" 6 None false;
      asset "m4" 6 (Some (5 # 10)) false ] in
  let dust := (PortfolioDust.splitDust tokens None ["m3"]).2 in
  List.map Das.id dust = ["m4"] ∧
  PortfolioDust.tokensToClose dust ["m1"; "m2"; "m3"; "m4"]
  = [ {| mint := "m4";
         tokenProgram := Some "TokenkegQfeZyiNwAJbNbGKPFXCWuBvf9Ss623VQ5DA";
         balance := Some 1500 |} ].
Proof. split; reflexivity. Qed.
End MoreRuns.

